(** * nanoduration: a non-negative [Duration] value type over IEEE-754 doubles

    The development embeds [src/index.ts].  A JavaScript [number] is a
    binary64 value; it is modelled by [spec_float] at precision 53 and
    maximal exponent 1024, with the arithmetic of the Standard Library's
    [SpecFloat] (round to nearest, ties to even).  The built-ins the source
    calls ([Number.isFinite], [%], [Math.min], [toFixed], the template
    literal's number-to-string conversion, ...) follow ECMA-262. *)

From Stdlib Require Import ZArith Bool List String Ascii Lia.
From Stdlib Require Import QArith Qpower Qabs Qround Lqa.
From Stdlib Require Import SpecFloat.
Import ListNotations.

Local Open Scope Z_scope.

(** ** Numbers *)

Module Num.

Definition prec : Z := 53.
Definition emax : Z := 1024.

Definition number : Type := spec_float.

Definition pos_zero : number := S754_zero false.
Definition neg_zero : number := S754_zero true.
Definition NaN : number := S754_nan.
Definition Infinity : number := S754_infinity false.
Definition neg_Infinity : number := S754_infinity true.

(** Well-formed doubles: the mantissa is canonical for its exponent and the
    exponent is in range. *)
Definition wf (x : number) : Prop := valid_binary prec emax x = true.

(** The double nearest to an integer (an integer literal of the source). *)
Definition of_Z (n : Z) : number := binary_normalize prec emax n 0 false.

(** The double nearest to [s * 10^p] (a decimal literal, and the rounding of
    a mathematical value [s * 10^p] to a Number value). *)
Definition of_decimal (s p : Z) : number :=
  match p with
  | Zneg q =>
      match s with
      | Z0 => S754_zero false
      | Zpos m =>
          SFdiv prec emax (S754_finite false m 0)
                          (S754_finite false (Pos.pow 10 q) 0)
      | Zneg m =>
          SFdiv prec emax (S754_finite true m 0)
                          (S754_finite false (Pos.pow 10 q) 0)
      end
  | _ => of_Z (s * 10 ^ p)
  end.

(** Arithmetic operators [+ - * /]. *)
Definition add : number -> number -> number := SFadd prec emax.
Definition sub : number -> number -> number := SFsub prec emax.
Definition mul : number -> number -> number := SFmul prec emax.
Definition div : number -> number -> number := SFdiv prec emax.
Definition neg : number -> number := SFopp.

(** Relational operators; every comparison with NaN is false. *)
Definition lt (x y : number) : bool := SFltb x y.
Definition le (x y : number) : bool := SFleb x y.
Definition gt (x y : number) : bool := SFltb y x.
Definition ge (x y : number) : bool := SFleb y x.

(** [===] on numbers: NaN differs from itself, [+0 === -0]. *)
Definition strict_eq (x y : number) : bool := SFeqb x y.

(** Identity of Number values (the same double). *)
Definition same (x y : number) : bool :=
  match x, y with
  | S754_zero s1, S754_zero s2 => Bool.eqb s1 s2
  | S754_infinity s1, S754_infinity s2 => Bool.eqb s1 s2
  | S754_nan, S754_nan => true
  | S754_finite s1 m1 e1, S754_finite s2 m2 e2 =>
      Bool.eqb s1 s2 && Pos.eqb m1 m2 && Z.eqb e1 e2
  | _, _ => false
  end.

(** [Number.isFinite]. *)
Definition isFinite (x : number) : bool :=
  match x with
  | S754_zero _ | S754_finite _ _ _ => true
  | S754_infinity _ | S754_nan => false
  end.

(** [Number.isInteger]: finite, and the mathematical value has no
    fractional part. *)
Definition isInteger (x : number) : bool :=
  match x with
  | S754_zero _ => true
  | S754_finite _ m e =>
      match e with
      | Zneg q => Z.eqb (Z.pos m mod Z.pow_pos 2 q) 0
      | _ => true
      end
  | S754_infinity _ | S754_nan => false
  end.

(** [Number::remainder] (the [%] operator): the sign of the result is the
    sign of the dividend and the result is exact. *)
Definition rem (n d : number) : number :=
  match n, d with
  | S754_nan, _ | _, S754_nan => S754_nan
  | S754_infinity _, _ => S754_nan
  | _, S754_infinity _ => n
  | _, S754_zero _ => S754_nan
  | S754_zero _, _ => n
  | S754_finite sn mn en, S754_finite _ md ed =>
      let ez := Z.min en ed in
      let r := Z.rem (Z.pos (fst (shl_align mn en ez)))
                     (Z.pos (fst (shl_align md ed ez))) in
      binary_normalize prec emax (cond_Zopp sn r) ez sn
  end.

(** [Math.max] and [Math.min] of two arguments: NaN is contagious and
    [-0] is smaller than [+0]. *)
Definition Math_max (x y : number) : number :=
  match x, y with
  | S754_nan, _ | _, S754_nan => S754_nan
  | S754_zero sx, S754_zero sy => S754_zero (sx && sy)
  | _, _ => if lt x y then y else x
  end.

Definition Math_min (x y : number) : number :=
  match x, y with
  | S754_nan, _ | _, S754_nan => S754_nan
  | S754_zero sx, S754_zero sy => S754_zero (sx || sy)
  | _, _ => if lt y x then y else x
  end.

End Num.

(** ** Conversions between numbers and strings *)

Module Str.
Import Num.

Local Open Scope string_scope.
Local Open Scope Z_scope.

Definition digit_char (d : Z) : ascii :=
  ascii_of_N (48 + Z.to_N d).

Fixpoint digits_loop (fuel : nat) (n : Z) (acc : string) : string :=
  match fuel with
  | O => acc
  | S fuel' =>
      let acc' := String (digit_char (n mod 10)) acc in
      if n / 10 =? 0 then acc' else digits_loop fuel' (n / 10) acc'
  end.

(** The decimal digits of a non-negative integer, without leading zeros
    (["0"] for zero). *)
Definition digits_of_Z (n : Z) : string :=
  digits_loop (S (Z.to_nat (Z.log2 n))) n "".

Fixpoint zeros (n : nat) : string :=
  match n with
  | O => ""
  | S n' => String "0" (zeros n')
  end.

Definition str_take (n : nat) (s : string) : string := substring 0 n s.
Definition str_drop (n : nat) (s : string) : string :=
  substring n (length s - n) s.

(** *** Number::toString, radix 10 *)

(** The mathematical value [m * 2^e] of a positive finite double as a
    fraction of integers. *)
Definition fraction (m : positive) (e : Z) : Z * Z :=
  match e with
  | Zneg q => (Z.pos m, Z.pow_pos 2 q)
  | _ => (Z.pos m * 2 ^ e, 1)
  end.

Fixpoint first_scale (fuel : nat) (num den j : Z) : Z :=
  match fuel with
  | O => j
  | S fuel' =>
      if den <=? num * 10 then j
      else first_scale fuel' (num * 10) den (j + 1)
  end.

(** The integer [n] with [10^(n-1) <= num/den < 10^n]. *)
Definition decimal_exponent (num den : Z) : Z :=
  if den <=? num
  then Z.of_nat (length (digits_of_Z (num / den)))
  else 1 - first_scale 400 num den 1.

(** The candidates with [k] digits around [num/den]: the two multiples of
    [10^(n0-k)] that enclose the value, the closer one first (the even one
    on a tie), kept when they convert back to [x]. *)
Definition candidates (x : number) (num den n0 k : Z) : list (Z * Z) :=
  let p := n0 - k in
  let a := num * 10 ^ Z.max (- p) 0 in
  let b := den * 10 ^ Z.max p 0 in
  let q := a / b in
  let r := a mod b in
  let lo := (q, n0) in
  let hi := if q + 1 =? 10 ^ k then (10 ^ (k - 1), n0 + 1) else (q + 1, n0) in
  let ordered :=
    match 2 * r ?= b with
    | Lt => [lo; hi]
    | Gt => [hi; lo]
    | Eq => if Z.even q then [lo; hi] else [hi; lo]
    end in
  filter (fun sn => same (of_decimal (fst sn) (snd sn - k)) x) ordered.

(** The least [k] for which some [s] of [k] digits has
    [s * 10^(n-k)] convert to [x]; 17 digits always suffice for a double. *)
Fixpoint shortest (fuel : nat) (x : number) (num den n0 k : Z) : Z * Z * Z :=
  match fuel with
  | O => (num * 10 ^ Z.max (k - n0) 0 / (den * 10 ^ Z.max (n0 - k) 0), k, n0)
  | S fuel' =>
      match candidates x num den n0 k with
      | (s, n) :: _ => (s, k, n)
      | [] => shortest fuel' x num den n0 (k + 1)
      end
  end.

Definition format_decimal (s k n : Z) : string :=
  let ds := digits_of_Z s in
  if (-5 <=? n) && (n <=? 21) then
    if k <=? n then ds ++ zeros (Z.to_nat (n - k))
    else if 0 <? n then
      str_take (Z.to_nat n) ds ++ "." ++ str_drop (Z.to_nat n) ds
    else "0." ++ zeros (Z.to_nat (- n)) ++ ds
  else
    let e := n - 1 in
    let c := if e <? 0 then "-" else "+" in
    let es := digits_of_Z (Z.abs e) in
    if k =? 1 then ds ++ "e" ++ c ++ es
    else str_take 1 ds ++ "." ++ str_drop 1 ds ++ "e" ++ c ++ es.

Definition Number_toString (x : number) : string :=
  match x with
  | S754_nan => "NaN"
  | S754_zero _ => "0"
  | S754_infinity false => "Infinity"
  | S754_infinity true => "-Infinity"
  | S754_finite sx m e =>
      let '(num, den) := fraction m e in
      let n0 := decimal_exponent num den in
      let '(s, k, n) := shortest 17 (S754_finite false m e) num den n0 1 in
      (if sx then "-" else "") ++ format_decimal s k n
  end.

(** *** Number.prototype.toFixed *)

Definition toFixed (x : number) (f : nat) : string :=
  if negb (isFinite x) then Number_toString x
  else
    let sign := if lt x pos_zero then "-" else "" in
    let x := if lt x pos_zero then neg x else x in
    let m :=
      if ge x (of_Z (10 ^ 21)) then Number_toString x
      else
        let '(num, den) :=
          match x with
          | S754_finite _ m e => fraction m e
          | _ => (0, 1)
          end in
        (* the integer n with n / 10^f nearest to x, the larger on a tie *)
        let n := (2 * num * 10 ^ Z.of_nat f + den) / (2 * den) in
        let m := digits_of_Z n in
        match f with
        | O => m
        | _ =>
            let m := zeros (S f - length m) ++ m in
            let k := length m in
            str_take (k - f) m ++ "." ++ str_drop (k - f) m
        end in
    sign ++ m.

(** *** StringToNumber, for decimal literals *)

Definition is_digit (c : ascii) : bool :=
  let n := N_of_ascii c in (48 <=? n)%N && (n <=? 57)%N.

(** Reads a run of decimal digits: its value on top of [acc], the number of
    digits read, and the rest of the string. *)
Fixpoint read_digits (s : string) (acc : Z) (count : Z) : Z * Z * string :=
  match s with
  | String c rest =>
      if is_digit c
      then read_digits rest (10 * acc + (Z.of_N (N_of_ascii c) - 48)) (count + 1)
      else (acc, count, s)
  | EmptyString => (acc, count, s)
  end.

Definition read_sign (s : string) : bool * string :=
  match s with
  | String "-" rest => (true, rest)
  | String "+" rest => (false, rest)
  | _ => (false, s)
  end.

(** [Number(s)] for a string holding an optionally signed [Infinity] or
    decimal literal (digits, an optional fraction, an optional exponent);
    the empty string is [+0] and any other text is [NaN]. *)
Definition Number_of_string (s : string) : number :=
  match s with
  | EmptyString => pos_zero
  | _ =>
      let '(negative, body) := read_sign s in
      let signed v := if negative then neg v else v in
      if String.eqb body "Infinity" then signed Infinity
      else
        let '(ip, ni, after_int) := read_digits body 0 0 in
        let '(mant, nf, after_frac) :=
          match after_int with
          | String "." rest => read_digits rest ip 0
          | _ => (ip, 0, after_int)
          end in
        if ni + nf =? 0 then NaN
        else
          match after_frac with
          | EmptyString => signed (of_decimal mant (- nf))
          | String c rest =>
              if (Ascii.eqb c "e" || Ascii.eqb c "E")%bool then
                let '(eneg, edigits) := read_sign rest in
                let '(ev, ne, tail) := read_digits edigits 0 0 in
                if (ne =? 0) || negb (String.eqb tail "") then NaN
                else signed (of_decimal mant ((if eneg then - ev else ev) - nf))
              else NaN
          end
  end.

End Str.

(** ** Exceptions *)

(** The source throws only [RangeError]s, told apart by their message. *)
Inductive exn : Type :=
| RangeError (message : string).

(** A call either returns a value or throws. *)
Inductive completion (A : Type) : Type :=
| Return (a : A)
| Throw (e : exn).

Arguments Return {A} a.
Arguments Throw {A} e.

Definition bind {A B : Type} (c : completion A) (k : A -> completion B)
  : completion B :=
  match c with
  | Return a => k a
  | Throw e => Throw e
  end.

Notation "x <- c ;; k" := (bind c (fun x => k))
  (at level 61, c at next level, right associativity).

Definition returns {A : Type} (c : completion A) : bool :=
  match c with
  | Return _ => true
  | Throw _ => false
  end.

(** ** The Duration type *)

Import Num.

Local Open Scope string_scope.

(** The three errors of the module, by the message of the source. *)
Definition not_finite_error : exn := RangeError "Value must be finite".
Definition division_by_zero_error : exn := RangeError "Division by zero".
Definition min_max_error : exn := RangeError "min must be <= max".

(** [toPositive]: non-finite values throw, negative values are clamped
    to [0]. *)
Definition toPositive (num : number) : completion number :=
  if negb (isFinite num) then Throw not_finite_error
  else Return (if le num (of_Z 0) then of_Z 0 else num).

Record Duration : Type := new_Duration { nanoseconds : number }.

Module Duration.

Definition NS_PER_MICRO : number := of_decimal 1 3.
Definition NS_PER_MILLI : number := of_decimal 1 6.
Definition NS_PER_SECOND : number := of_decimal 1 9.
Definition NS_PER_MINUTE : number := mul (of_Z 60) NS_PER_SECOND.
Definition NS_PER_HOUR : number := mul (of_Z 60) NS_PER_MINUTE.

(** *** Constructors *)

Definition fromNanos (nanos : number) : completion Duration :=
  n <- toPositive nanos ;;
  Return (new_Duration n).

Definition fromMicros (micros : number) : completion Duration :=
  n <- toPositive (mul micros NS_PER_MICRO) ;;
  Return (new_Duration n).

Definition fromMillis (millis : number) : completion Duration :=
  n <- toPositive (mul millis NS_PER_MILLI) ;;
  Return (new_Duration n).

Definition fromSecs (secs : number) : completion Duration :=
  n <- toPositive (mul secs NS_PER_SECOND) ;;
  Return (new_Duration n).

Definition fromMinutes (minutes : number) : completion Duration :=
  n <- toPositive (mul minutes NS_PER_MINUTE) ;;
  Return (new_Duration n).

Definition fromHours (hours : number) : completion Duration :=
  n <- toPositive (mul hours NS_PER_HOUR) ;;
  Return (new_Duration n).

(** The static initialiser of [ZERO], and the constant it leaves. *)
Definition ZERO_init : completion Duration :=
  n <- toPositive (of_Z 0) ;;
  Return (new_Duration n).

Definition ZERO : Duration := new_Duration pos_zero.

(** *** Observers *)

Definition asNanos (this : Duration) : number := nanoseconds this.
Definition asMicros (this : Duration) : number :=
  div (nanoseconds this) NS_PER_MICRO.
Definition asMillis (this : Duration) : number :=
  div (nanoseconds this) NS_PER_MILLI.
Definition asSecs (this : Duration) : number :=
  div (nanoseconds this) NS_PER_SECOND.
Definition asMinutes (this : Duration) : number :=
  div (nanoseconds this) NS_PER_MINUTE.
Definition asHours (this : Duration) : number :=
  div (nanoseconds this) NS_PER_HOUR.

(** *** Arithmetic *)

Definition add (this other : Duration) : completion Duration :=
  n <- toPositive (Num.add (nanoseconds this) (nanoseconds other)) ;;
  Return (new_Duration n).

Definition sub (this other : Duration) : completion Duration :=
  n <- toPositive (Num.sub (nanoseconds this) (nanoseconds other)) ;;
  Return (new_Duration n).

Definition mul (this : Duration) (factor : number) : completion Duration :=
  n <- toPositive (Num.mul (nanoseconds this) factor) ;;
  Return (new_Duration n).

Definition div (this : Duration) (divisor : number) : completion Duration :=
  if strict_eq divisor (of_Z 0) then Throw division_by_zero_error
  else
    n <- toPositive (Num.div (nanoseconds this) divisor) ;;
    Return (new_Duration n).

(** *** Comparisons *)

Definition eq (this other : Duration) : bool :=
  strict_eq (nanoseconds this) (nanoseconds other).
Definition lt (this other : Duration) : bool :=
  Num.lt (nanoseconds this) (nanoseconds other).
Definition le (this other : Duration) : bool :=
  Num.le (nanoseconds this) (nanoseconds other).
Definition gt (this other : Duration) : bool :=
  Num.gt (nanoseconds this) (nanoseconds other).
Definition ge (this other : Duration) : bool :=
  Num.ge (nanoseconds this) (nanoseconds other).

(** *** Utilities *)

Definition isZero (this : Duration) : bool :=
  strict_eq (nanoseconds this) (of_Z 0).

Definition clamp (this min max : Duration) : completion Duration :=
  if gt min max then Throw min_max_error
  else
    n <- toPositive
           (Math_min (Math_max (nanoseconds this) (nanoseconds min))
                     (nanoseconds max)) ;;
    Return (new_Duration n).

(** The suffix of the microsecond branch: the source file spells it with the
    code points U+00C2 U+00B5 before the [s]; the string holds their
    UTF-8 bytes. *)
Definition micro_suffix : string :=
  String (ascii_of_N 195) (String (ascii_of_N 130)
    (String (ascii_of_N 194) (String (ascii_of_N 181) "s"))).

(** The local [round] of [toString]. *)
Definition round (n : number) : number :=
  if isInteger n then n else Str.Number_of_string (Str.toFixed n 6).

Definition toString (this : Duration) : string :=
  if strict_eq (rem (nanoseconds this) NS_PER_HOUR) (of_Z 0)
  then Str.Number_toString (round (asHours this)) ++ "h"
  else if strict_eq (rem (nanoseconds this) NS_PER_MINUTE) (of_Z 0)
  then Str.Number_toString (round (asMinutes this)) ++ "m"
  else if strict_eq (rem (nanoseconds this) NS_PER_SECOND) (of_Z 0)
  then Str.Number_toString (round (asSecs this)) ++ "s"
  else if strict_eq (rem (nanoseconds this) NS_PER_MILLI) (of_Z 0)
  then Str.Number_toString (round (asMillis this)) ++ "ms"
  else if strict_eq (rem (nanoseconds this) NS_PER_MICRO) (of_Z 0)
  then Str.Number_toString (round (asMicros this)) ++ micro_suffix
  else Str.Number_toString (nanoseconds this) ++ "ns".

End Duration.

(** ** Vocabulary of the specification *)

(** The values [toPositive] returns, the [PositiveNumber]s of the source:
    [+0] and the positive finite doubles. *)
Definition positive_number (x : number) : bool :=
  match x with
  | S754_zero false | S754_finite false _ _ => true
  | _ => false
  end.

(** The Durations that the public interface builds: the six unit
    constructors, [ZERO], [add], [sub], [mul], [div] and [clamp], applied to
    well-formed doubles. *)
Inductive reachable : Duration -> Prop :=
| reach_ZERO : reachable Duration.ZERO
| reach_fromNanos x d :
    wf x -> Duration.fromNanos x = Return d -> reachable d
| reach_fromMicros x d :
    wf x -> Duration.fromMicros x = Return d -> reachable d
| reach_fromMillis x d :
    wf x -> Duration.fromMillis x = Return d -> reachable d
| reach_fromSecs x d :
    wf x -> Duration.fromSecs x = Return d -> reachable d
| reach_fromMinutes x d :
    wf x -> Duration.fromMinutes x = Return d -> reachable d
| reach_fromHours x d :
    wf x -> Duration.fromHours x = Return d -> reachable d
| reach_add a b d :
    reachable a -> reachable b -> Duration.add a b = Return d -> reachable d
| reach_sub a b d :
    reachable a -> reachable b -> Duration.sub a b = Return d -> reachable d
| reach_mul a k d :
    reachable a -> wf k -> Duration.mul a k = Return d -> reachable d
| reach_div a k d :
    reachable a -> wf k -> Duration.div a k = Return d -> reachable d
| reach_clamp a lo hi d :
    reachable a -> reachable lo -> reachable hi ->
    Duration.clamp a lo hi = Return d -> reachable d.

(** The units of [toString], in the order it scans them. *)
Inductive time_unit : Type := Hour | Minute | Second | Milli | Micro.

Definition scan_order : list time_unit := [Hour; Minute; Second; Milli; Micro].

Definition scale (u : time_unit) : number :=
  match u with
  | Hour => Duration.NS_PER_HOUR
  | Minute => Duration.NS_PER_MINUTE
  | Second => Duration.NS_PER_SECOND
  | Milli => Duration.NS_PER_MILLI
  | Micro => Duration.NS_PER_MICRO
  end.

(** The scale factors as integers. *)
Definition scale_Z (u : time_unit) : Z :=
  match u with
  | Hour => 3600000000000
  | Minute => 60000000000
  | Second => 1000000000
  | Milli => 1000000
  | Micro => 1000
  end.

(** The suffixes that the branches of [toString] print, by unit. *)
Definition short_code (u : time_unit) : string :=
  match u with
  | Hour => "h"
  | Minute => "m"
  | Second => "s"
  | Milli => "ms"
  | Micro => Duration.micro_suffix
  end.

(** The unit constructors other than [fromNanos], by unit. *)
Definition from_unit (u : time_unit) : number -> completion Duration :=
  match u with
  | Hour => Duration.fromHours
  | Minute => Duration.fromMinutes
  | Second => Duration.fromSecs
  | Milli => Duration.fromMillis
  | Micro => Duration.fromMicros
  end.

Definition magnitude (u : time_unit) (d : Duration) : number :=
  Num.div (nanoseconds d) (scale u).

(** "The scale factor divides the count with zero remainder", as the source
    tests it. *)
Definition divides_evenly (d : Duration) (u : time_unit) : bool :=
  strict_eq (rem (nanoseconds d) (scale u)) (of_Z 0).

(** ** Vocabulary of the rounding proofs *)

Local Open Scope Z_scope.

Abbreviation fexp := (SpecFloat.fexp prec emax).
Abbreviation emin := (SpecFloat.emin prec emax).

(** [mrs] holds the integer part of [N / D] and locates the rest with
    respect to one half. *)
Definition represents (N D : Z) (mrs : shr_record) : Prop :=
  0 < D /\ 0 <= N /\
  shr_m mrs = N / D /\
  shr_r mrs = (D <=? 2 * (N mod D)) /\
  shr_s mrs = negb (N mod D =? 0) && negb (2 * (N mod D) =? D).

(** Round to nearest, ties to even, of [N / D]. *)
Definition rne (N D : Z) : Z :=
  match 2 * (N mod D) ?= D with
  | Lt => N / D
  | Gt => N / D + 1
  | Eq => if Z.even (N / D) then N / D else N / D + 1
  end.

(** The result of rounding to a mantissa [M] at exponent [E], renormalised
    when the rounding carried into a new digit. *)
Definition rounded (sx : bool) (M E : Z) : spec_float :=
  match M with
  | Z0 => S754_zero sx
  | Zpos m =>
      if M <? 2 ^ prec then
        if E <=? emax - prec then S754_finite sx m E else S754_infinity sx
      else
        if E + 1 <=? emax - prec
        then S754_finite sx (Z.to_pos (2 ^ (prec - 1))) (E + 1)
        else S754_infinity sx
  | Zneg _ => S754_nan
  end.

(** The mathematical value of a double, as a rational; zero for the values
    that are not finite. *)
Definition pow2 (e : Z) : Q := (2 ^ e)%Q.

Definition value (x : number) : Q :=
  match x with
  | S754_finite s m e => (inject_Z (cond_Zopp s (Z.pos m)) * pow2 e)%Q
  | _ => 0%Q
  end.

(** ** [toString] in the words of the specification *)

(** The short codes the specification lists: [h], [m], [s], [ms] and a
    microsecond symbol, the micro sign U+00B5 followed by [s] (the string
    holds the UTF-8 bytes of the sign). *)
Definition micro_symbol : string :=
  String (ascii_of_N 194) (String (ascii_of_N 181) "s").

Definition short_code_spec (u : time_unit) : string :=
  match u with
  | Hour => "h"
  | Minute => "m"
  | Second => "s"
  | Milli => "ms"
  | Micro => micro_symbol
  end.

(** "The count divides evenly (zero remainder)": the count is a whole
    number of scale factors. *)
Definition divides_evenly_spec (d : Duration) (u : time_unit) : bool :=
  let v := value (nanoseconds d) in
  let s := inject_Z (scale_Z u) in
  Qeq_bool v (inject_Z (Qfloor (v / s)) * s).

(** "Rounded to 6 decimal places when it is not already an integer": the
    nearest whole number of millionths, as a double. *)
Definition round_spec (n : number) : number :=
  if isInteger n then n
  else of_decimal (Qfloor (value n * 1000000 + (1 # 2))) (-6).

(** The largest unit of the descending scan that divides the count evenly,
    its magnitude rounded and followed by the short code of the unit; raw
    nanoseconds when no unit divides evenly. *)
Definition toString_spec (d : Duration) : string :=
  match find (divides_evenly_spec d) scan_order with
  | Some u =>
      Str.Number_toString (round_spec (magnitude u d)) ++ short_code_spec u
  | None => Str.Number_toString (nanoseconds d) ++ "ns"
  end.

(** [r] is the non-negative double obtained by rounding the rational [v]:
    [v] is written [N / D * 2^e0], the exponent [E] is chosen from the
    digits of the integer part, and the mantissa is [N / (D * 2^(E - e0))]
    rounded to nearest, ties to even. *)
Definition rounds_to (v : Q) (r : number) : Prop :=
  exists N D e0 : Z,
    0 < D /\ 0 <= N /\
    let E := fexp (Zdigits2 (N / D) + e0) in
    let M := rne N (D * 2 ^ (E - e0)) in
    e0 <= E /\ M <= 2 ^ prec /\
    (inject_Z N / inject_Z D * pow2 e0 == v)%Q /\
    (value r == inject_Z M * pow2 E)%Q /\
    wf r /\ positive_number r = true.

Ltac bool_cases :=
  repeat match goal with
  | |- context [Z.leb ?a ?b] => destruct (Z.leb_spec a b)
  | |- context [Z.eqb ?a ?b] => destruct (Z.eqb_spec a b)
  | H : context [Z.leb ?a ?b] |- _ => destruct (Z.leb_spec a b)
  | H : context [Z.eqb ?a ?b] |- _ => destruct (Z.eqb_spec a b)
  end.

(** * Checks of the embedding on concrete values *)

Module Checks.

Local Open Scope Z_scope.
Local Open Scope string_scope.

(** Literals and arithmetic: 0.1 is 0x1.999999999999ap-4, and
    0.1 + 0.2 is not 0.3. *)
Example tenth_bits :
  of_decimal 1 (-1) = S754_finite false 7205759403792794 (-56).
Proof. vm_compute. reflexivity. Qed.

Example tenth_plus_fifth :
  Str.Number_toString (Num.add (of_decimal 1 (-1)) (of_decimal 2 (-1)))
  = "0.30000000000000004".
Proof. vm_compute. reflexivity. Qed.

Example remainder_keeps_fraction :
  Num.rem (of_decimal 55 (-1)) (of_Z 2) = of_decimal 15 (-1).
Proof. vm_compute. reflexivity. Qed.

(** Number-to-string conversion: plain digits up to 1e21, exponents beyond
    and below 1e-6, the least subnormal and the greatest double. *)
Example print_integer : Str.Number_toString (of_Z 1500) = "1500".
Proof. vm_compute. reflexivity. Qed.

Example print_fraction : Str.Number_toString (of_decimal 15 (-1)) = "1.5".
Proof. vm_compute. reflexivity. Qed.

Example print_large :
  Str.Number_toString (of_decimal 1 20) = "100000000000000000000" /\
  Str.Number_toString (of_decimal 1 21) = "1e+21".
Proof. split; vm_compute; reflexivity. Qed.

Example print_small :
  Str.Number_toString (of_decimal 123456 (-11)) = "0.00000123456" /\
  Str.Number_toString (of_decimal 1 (-7)) = "1e-7".
Proof. split; vm_compute; reflexivity. Qed.

Example print_extremes :
  Str.Number_toString (S754_finite false 1 (-1074)) = "5e-324" /\
  Str.Number_toString (of_decimal 17976931348623157 292)
  = "1.7976931348623157e+308".
Proof. split; vm_compute; reflexivity. Qed.

(** [toFixed]: ties go up, but 1.005 is below the tie as a double. *)
Example toFixed_rounds :
  Str.toFixed (of_decimal 1234567 (-7)) 6 = "0.123457" /\
  Str.toFixed (of_decimal 25 (-1)) 0 = "3" /\
  Str.toFixed (of_decimal 1005 (-3)) 2 = "1.00".
Proof. repeat split; vm_compute; reflexivity. Qed.

Example Number_parses :
  Str.Number_of_string "0.123457" = of_decimal 123457 (-6) /\
  Str.Number_of_string "-Infinity" = neg_Infinity /\
  Str.Number_of_string "1e21" = of_decimal 1 21.
Proof. repeat split; vm_compute; reflexivity. Qed.

(** The usage section of the README: 2 s plus 500 ms is 2.5 s. *)
Example readme_usage :
  exists a b total remaining,
    Duration.fromSecs (of_Z 2) = Return a /\
    Duration.fromMillis (of_Z 500) = Return b /\
    Duration.add a b = Return total /\
    Duration.asMillis total = of_Z 2500 /\
    Duration.asSecs total = of_decimal 25 (-1) /\
    Duration.gt total a = true /\
    Duration.sub total (new_Duration (of_Z 5000000000)) = Return remaining /\
    Duration.isZero remaining = true.
Proof.
  exists (new_Duration (of_Z 2000000000)), (new_Duration (of_Z 500000000)),
    (new_Duration (of_Z 2500000000)), Duration.ZERO.
  repeat split; vm_compute; reflexivity.
Qed.

(** Display of whole hours, of one nanosecond, and of a count that no unit
    divides: the fallback prints the count as it is. *)
Example display_samples :
  Duration.toString (new_Duration (of_Z 3600000000000)) = "1h" /\
  Duration.toString (new_Duration (of_Z 90000000000)) = "90s" /\
  Duration.toString (new_Duration (of_Z 1)) = "1ns" /\
  Duration.toString (new_Duration (of_decimal 1234567 (-7))) = "0.1234567ns".
Proof. repeat split; vm_compute; reflexivity. Qed.

End Checks.

(** * Facts about the arithmetic of doubles *)

Module FloatFacts.

#[local] Opaque prec emax.

(** ** Digits *)
Lemma digits2_bounds (p : positive) :
  2 ^ (Z.pos (digits2_pos p) - 1) <= Z.pos p < 2 ^ Z.pos (digits2_pos p).
Proof.
  induction p as [p IH | p IH | ]; simpl digits2_pos.
  - rewrite Pos2Z.inj_succ.
    replace (Z.succ (Z.pos (digits2_pos p)) - 1) with (Z.succ (Z.pos (digits2_pos p) - 1)) by lia.
    rewrite !Z.pow_succ_r by lia. lia.
  - rewrite Pos2Z.inj_succ.
    replace (Z.succ (Z.pos (digits2_pos p)) - 1) with (Z.succ (Z.pos (digits2_pos p) - 1)) by lia.
    rewrite !Z.pow_succ_r by lia. lia.
  - simpl. lia.
Qed.

Lemma Zdigits2_bounds (m : Z) :
  0 < m -> 2 ^ (Zdigits2 m - 1) <= m < 2 ^ Zdigits2 m.
Proof.
  destruct m as [ | p | p ]; try lia. intros _. apply digits2_bounds.
Qed.

Lemma Zdigits2_nonneg (m : Z) : 0 <= Zdigits2 m.
Proof. destruct m; simpl; lia. Qed.

Lemma Zdigits2_pos (m : Z) : 0 < m -> 0 < Zdigits2 m.
Proof. destruct m; simpl; lia. Qed.

Lemma pow2_lt_inv (a b : Z) : 0 <= b -> 2 ^ a < 2 ^ b -> a < b.
Proof.
  intros Hb H. destruct (Z_lt_le_dec a b) as [ | Hle]; [assumption | ].
  apply (Z.pow_le_mono_r 2) in Hle; lia.
Qed.

Lemma Zdigits2_unique (m d : Z) :
  2 ^ (d - 1) <= m < 2 ^ d -> 0 < m -> Zdigits2 m = d.
Proof.
  intros H Hm. pose proof (Zdigits2_bounds m Hm) as B.
  pose proof (Zdigits2_pos m Hm) as P.
  assert (0 < d).
  { destruct (Z_lt_le_dec 0 d); [assumption | ].
    assert (2 ^ d <= 2 ^ 0) by (apply Z.pow_le_mono_r; lia). simpl in *. lia. }
  assert (Zdigits2 m - 1 < d) by (apply pow2_lt_inv; lia).
  assert (d - 1 < Zdigits2 m) by (apply pow2_lt_inv; lia).
  lia.
Qed.

Lemma Zdigits2_le (m d : Z) : 0 <= d -> 0 <= m < 2 ^ d -> Zdigits2 m <= d.
Proof.
  intros Hd H. destruct (Z.eq_dec m 0) as [-> | ]; [simpl; lia | ].
  pose proof (Zdigits2_bounds m ltac:(lia)).
  assert (Zdigits2 m - 1 < d) by (apply pow2_lt_inv; lia). lia.
Qed.

Lemma Zdigits2_ge (m d : Z) : 2 ^ (d - 1) <= m -> 0 < m -> d <= Zdigits2 m.
Proof.
  intros H Hm. pose proof (Zdigits2_bounds m Hm). pose proof (Zdigits2_pos m Hm).
  assert (d - 1 < Zdigits2 m) by (apply pow2_lt_inv; lia). lia.
Qed.

Lemma Zdigits2_mono (a b : Z) : 0 <= a <= b -> Zdigits2 a <= Zdigits2 b.
Proof.
  intros H. destruct (Z.eq_dec a 0) as [-> | ]; [apply Zdigits2_nonneg | ].
  apply Zdigits2_ge; [ | lia].
  pose proof (Zdigits2_bounds a ltac:(lia)). lia.
Qed.

(** Shifting right a non-negative mantissa by [n] bits drops [n] digits. *)
Lemma Zdigits2_div_pow2 (m n : Z) :
  0 < m -> 0 <= n < Zdigits2 m -> Zdigits2 (m / 2 ^ n) = Zdigits2 m - n.
Proof.
  intros Hm Hn. pose proof (Zdigits2_bounds m Hm) as B.
  assert (P : 0 < 2 ^ n) by (apply Z.pow_pos_nonneg; lia).
  assert (E1 : 2 ^ (Zdigits2 m - 1) = 2 ^ (Zdigits2 m - n - 1) * 2 ^ n).
  { rewrite <- Z.pow_add_r by lia. f_equal. lia. }
  assert (E2 : 2 ^ (Zdigits2 m) = 2 ^ (Zdigits2 m - n) * 2 ^ n).
  { rewrite <- Z.pow_add_r by lia. f_equal. lia. }
  assert (L : 2 ^ (Zdigits2 m - n - 1) <= m / 2 ^ n).
  { apply Z.div_le_lower_bound; lia. }
  assert (U : m / 2 ^ n < 2 ^ (Zdigits2 m - n)).
  { apply Z.div_lt_upper_bound; lia. }
  assert (0 < 2 ^ (Zdigits2 m - n - 1)) by (apply Z.pow_pos_nonneg; lia).
  apply Zdigits2_unique; [ | lia]. split; [ | lia].
  exact L.
Qed.

(** ** Shifts *)

Lemma iter_pos_rel {A : Type} (f : A -> A) (R : Z -> A -> Prop) :
  (forall k a, 0 <= k -> R k a -> R (k + 1) (f a)) ->
  forall p k a, 0 <= k -> R k a -> R (k + Z.pos p) (iter_pos f p a).
Proof.
  intros step. induction p as [p IH | p IH | ]; intros k a Hk Ha; simpl.
  - replace (k + Z.pos p~1) with (k + 1 + Z.pos p + Z.pos p) by lia.
    apply IH; [lia | ]. apply IH; [lia | ]. apply step; assumption.
  - replace (k + Z.pos p~0) with (k + Z.pos p + Z.pos p) by lia.
    apply IH; [lia | ]. apply IH; assumption.
  - apply step; assumption.
Qed.



Lemma shr_1_represents (N D : Z) (mrs : shr_record) :
  represents N D mrs -> represents N (D * 2) (shr_1 mrs).
Proof.
  destruct mrs as [m r s]. unfold represents. cbn [shr_m shr_r shr_s].
  intros (HD & HN & Hm & Hr & Hs).
  pose proof (Z.mod_pos_bound N D HD) as Hb.
  pose proof (Z.div_pos N D HN HD) as Hq.
  assert (Hdiv : N / (D * 2) = m / 2) by (rewrite Hm, Z.div_div by lia; reflexivity).
  assert (Hmod : N mod (D * 2) = N mod D + D * (m mod 2))
    by (rewrite Hm; apply Z.rem_mul_r; lia).
  pose proof (Z.mod_pos_bound m 2 ltac:(lia)) as Hb2.
  pose proof (Z.div_mod m 2 ltac:(lia)) as Hdm.
  rewrite Hdiv, Hmod. clear Hdiv Hmod.
  set (rho := N mod D) in *. clearbody rho.
  assert (Hrs : (r || s)%bool = negb (rho =? 0)).
  { rewrite Hr, Hs. bool_cases; try reflexivity; lia. }
  assert (Hshape :
    shr_1 {| shr_m := m; shr_r := r; shr_s := s |} =
    {| shr_m := m / 2; shr_r := negb (m mod 2 =? 0); shr_s := (r || s)%bool |}).
  { destruct m as [ | [p | p | ] | p]; try lia; cbn [shr_1]; f_equal.
    - rewrite Pos2Z.inj_xI. apply (Z.div_unique _ 2 _ 1); lia.
    - rewrite Pos2Z.inj_xI.
      replace ((2 * Z.pos p + 1) mod 2) with 1; [reflexivity | ].
      apply (Z.mod_unique _ 2 (Z.pos p) 1); lia.
    - rewrite Pos2Z.inj_xO. apply (Z.div_unique _ 2 _ 0); lia.
    - rewrite Pos2Z.inj_xO.
      replace ((2 * Z.pos p) mod 2) with 0; [reflexivity | ].
      apply (Z.mod_unique _ 2 (Z.pos p) 0); lia. }
  rewrite Hshape. cbn [shr_m shr_r shr_s]. rewrite Hrs.
  split; [lia | ]. split; [assumption | ]. split; [reflexivity | ].
  assert (Hcase : m mod 2 = 0 \/ m mod 2 = 1) by lia.
  destruct Hcase as [E | E]; rewrite E; split; bool_cases; try reflexivity; lia.
Qed.

Lemma shr_represents (N D : Z) (mrs : shr_record) (e n : Z) :
  represents N D mrs ->
  represents N (D * 2 ^ Z.max n 0) (fst (shr mrs e n)) /\
  snd (shr mrs e n) = e + Z.max n 0.
Proof.
  intros H. destruct n as [ | p | p]; cbn [shr fst snd].
  - rewrite Z.max_r by lia. rewrite Z.pow_0_r, Z.mul_1_r. split; [assumption | lia].
  - rewrite Z.max_l by lia. split; [ | reflexivity].
    pose proof (iter_pos_rel shr_1 (fun k a => represents N (D * 2 ^ k) a)) as I.
    apply (I) with (p := p) (k := 0) (a := mrs).
    + intros k a Hk Ha. rewrite Z.pow_add_r, Z.pow_1_r, Z.mul_assoc by lia.
      apply shr_1_represents; assumption.
    + lia.
    + rewrite Z.pow_0_r, Z.mul_1_r. assumption.
  - rewrite Z.max_r by lia. rewrite Z.pow_0_r, Z.mul_1_r. split; [assumption | lia].
Qed.


Lemma round_represents (N D : Z) (mrs : shr_record) :
  represents N D mrs ->
  round_nearest_even (shr_m mrs) (loc_of_shr_record mrs) = rne N D.
Proof.
  destruct mrs as [m r s]. unfold represents, rne. cbn [shr_m shr_r shr_s].
  intros (HD & HN & Hm & Hr & Hs). subst m.
  pose proof (Z.mod_pos_bound N D HD) as Hb.
  set (rho := N mod D) in *. clearbody rho.
  destruct (Z.compare_spec (2 * rho) D) as [E | E | E].
  - assert (Er : r = true) by (rewrite Hr; apply Z.leb_le; lia).
    assert (Es : s = false) by (rewrite Hs; bool_cases; try reflexivity; lia).
    rewrite Er, Es. reflexivity.
  - assert (Er : r = false) by (rewrite Hr; apply Z.leb_gt; lia).
    rewrite Er. destruct s; reflexivity.
  - assert (Er : r = true) by (rewrite Hr; apply Z.leb_le; lia).
    assert (Es : s = true) by (rewrite Hs; bool_cases; try reflexivity; lia).
    rewrite Er, Es. reflexivity.
Qed.

Lemma represents_of_loc_Exact (m : Z) :
  0 <= m -> represents m 1 (shr_record_of_loc m loc_Exact).
Proof.
  intros H. unfold represents. cbn [shr_record_of_loc shr_m shr_r shr_s].
  rewrite Z.div_1_r, Z.mod_1_r. repeat split; lia.
Qed.

Lemma rne_bounds (N D : Z) :
  0 < D -> 0 <= N ->
  N / D <= rne N D <= N / D + 1 /\
  2 * N - D <= 2 * D * rne N D <= 2 * N + D.
Proof.
  intros HD HN. pose proof (Z.mod_pos_bound N D HD) as Hb.
  pose proof (Z.div_mod N D ltac:(lia)) as Hdm. unfold rne.
  destruct (Z.compare_spec (2 * (N mod D)) D); [destruct (Z.even (N / D)) | | ]; nia.
Qed.

Lemma rne_exact (N D : Z) : 0 < D -> N mod D = 0 -> rne N D = N / D.
Proof.
  intros HD H. unfold rne. rewrite H.
  destruct (Z.compare_spec (2 * 0) D); lia.
Qed.

(** ** Rounding to the format *)


Lemma fexp_spec (e : Z) : fexp e = Z.max (e - prec) emin.
Proof. reflexivity. Qed.

Lemma emin_val : emin = -1074.
Proof. reflexivity. Qed.

Lemma prec_val : prec = 53.
Proof. reflexivity. Qed.

Lemma emax_val : emax = 1024.
Proof. reflexivity. Qed.



Lemma bra_unfold (sx : bool) (mx ex : Z) (lx : location) (N D : Z) :
  represents N D (shr_record_of_loc mx lx) ->
  let n := Z.max (fexp (Zdigits2 mx + ex) - ex) 0 in
  let M := rne N (D * 2 ^ n) in
  let n2 := Z.max (fexp (Zdigits2 M + (ex + n)) - (ex + n)) 0 in
  binary_round_aux prec emax sx mx ex lx =
  match M / 2 ^ n2 with
  | Z0 => S754_zero sx
  | Zpos m =>
      if ex + n + n2 <=? emax - prec
      then S754_finite sx m (ex + n + n2) else S754_infinity sx
  | Zneg _ => S754_nan
  end.
Proof.
  intros H n M n2. unfold binary_round_aux, shr_fexp.
  pose proof (shr_represents N D _ ex (fexp (Zdigits2 mx + ex) - ex) H) as [R1 E1].
  fold n in R1, E1.
  destruct (shr (shr_record_of_loc mx lx) ex (fexp (Zdigits2 mx + ex) - ex))
    as [mrs' e']. cbn [fst snd] in R1, E1. subst e'.
  rewrite (round_represents _ _ _ R1). fold M.
  assert (HM : 0 <= M).
  { destruct R1 as (HD & HN & _). pose proof (rne_bounds N (D * 2 ^ n) HD HN).
    pose proof (Z.div_pos N (D * 2 ^ n) HN HD). unfold M. lia. }
  pose proof (shr_represents M 1 _ (ex + n) (fexp (Zdigits2 M + (ex + n)) - (ex + n))
                (represents_of_loc_Exact M HM)) as [R2 E2].
  fold n2 in R2, E2.
  destruct (shr (shr_record_of_loc M loc_Exact) (ex + n)
              (fexp (Zdigits2 M + (ex + n)) - (ex + n))) as [mrs'' e''].
  cbn [fst snd] in R2, E2. subst e''.
  destruct R2 as (_ & _ & Hm & _). rewrite Hm, Z.mul_1_l. reflexivity.
Qed.

Lemma pow2_pos (n : Z) : 0 <= n -> 0 < 2 ^ n.
Proof. intros; apply Z.pow_pos_nonneg; lia. Qed.

Lemma pow2_split (a b : Z) : 0 <= b <= a -> 2 ^ a = 2 ^ (a - b) * 2 ^ b.
Proof. intros. rewrite <- Z.pow_add_r by lia. f_equal; lia. Qed.

Theorem bra_rounded (sx : bool) (mx ex : Z) (lx : location) (N D : Z) :
  represents N D (shr_record_of_loc mx lx) ->
  ex <= fexp (Zdigits2 mx + ex) ->
  let E := fexp (Zdigits2 mx + ex) in
  let M := rne N (D * 2 ^ (E - ex)) in
  binary_round_aux prec emax sx mx ex lx = rounded sx M E /\
  0 <= M <= 2 ^ prec /\
  (0 < M < 2 ^ prec -> fexp (Zdigits2 M + E) = E).
Proof.
  intros H Hex E M.
  rewrite (bra_unfold sx mx ex lx N D H).
  replace (Z.max (fexp (Zdigits2 mx + ex) - ex) 0) with (E - ex) by (fold E; lia).
  fold M. replace (ex + (E - ex)) with E by lia.
  assert (Hmx : mx = N / D) by (destruct H as (_ & _ & Hm & _); destruct lx as [ | [ | | ]]; exact Hm).
  assert (HD : 0 < D) by apply H. assert (HN : 0 <= N) by apply H.
  assert (Hmx0 : 0 <= mx) by (rewrite Hmx; apply Z.div_pos; lia).
  assert (Hn : 0 <= E - ex) by lia.
  pose proof (pow2_pos (E - ex) Hn) as Hpn.
  assert (HD' : 0 < D * 2 ^ (E - ex)) by nia.
  pose proof (rne_bounds N (D * 2 ^ (E - ex)) HD' HN) as [HB _]. fold M in HB.
  assert (Hmx' : N / (D * 2 ^ (E - ex)) = mx / 2 ^ (E - ex))
    by (rewrite Hmx, Z.div_div by lia; reflexivity).
  rewrite Hmx' in HB.
  pose proof (Z.div_pos mx (2 ^ (E - ex)) Hmx0 Hpn) as Hq0.
  pose proof (pow2_pos prec ltac:(rewrite prec_val; lia)) as Hpp.
  pose proof (pow2_pos (prec - 1) ltac:(rewrite prec_val; lia)) as Hpp1.
  assert (Hpp2 : 2 ^ prec = 2 * 2 ^ (prec - 1)).
  { rewrite (pow2_split prec 1) by (rewrite prec_val; lia). rewrite Z.pow_1_r; lia. }
  pose proof (Zdigits2_nonneg mx) as Hdx0.
  assert (Ecases : (E = Zdigits2 mx + ex - prec /\ emin <= E) \/
                   (E = emin /\ Zdigits2 mx + ex - prec < emin))
    by (unfold E; rewrite fexp_spec; lia).
  destruct Ecases as [[HE HEm] | [HE Hsub]].
  - (* the mantissa keeps [prec] digits *)
    assert (Hn' : E - ex = Zdigits2 mx - prec) by lia.
    assert (Hmxpos : 0 < mx).
    { destruct (Z.eq_dec mx 0) as [Z | ]; [ | lia]. rewrite Z in *. simpl in *.
      rewrite prec_val in *. lia. }
    assert (Hd' : Zdigits2 (mx / 2 ^ (E - ex)) = prec).
    { rewrite Zdigits2_div_pow2; rewrite ?prec_val in *; lia. }
    assert (Hq1 : 0 < mx / 2 ^ (E - ex)).
    { destruct (Z.eq_dec (mx / 2 ^ (E - ex)) 0) as [Z | ]; [ | lia].
      rewrite Z in Hd'. simpl in Hd'. rewrite prec_val in Hd'. lia. }
    pose proof (Zdigits2_bounds _ Hq1) as BQ. rewrite Hd' in BQ.
    assert (HMpos : 0 < M) by lia.
    destruct (Z_lt_le_dec M (2 ^ prec)) as [Hlt | Hge].
    + assert (HdM : Zdigits2 M = prec) by (apply Zdigits2_unique; lia).
      assert (Hf : fexp (Zdigits2 M + E) = E) by (rewrite HdM, fexp_spec; lia).
      split; [ | split; [lia | intros _; exact Hf]].
      rewrite Hf. replace (Z.max (E - E) 0) with 0 by lia.
      rewrite Z.pow_0_r, Z.div_1_r, Z.add_0_r.
      unfold rounded. destruct M as [ | m | m]; try lia.
      destruct (Z.ltb_spec (Z.pos m) (2 ^ prec)); [reflexivity | lia].
    + assert (HMeq : M = 2 ^ prec) by lia.
      assert (HdM : Zdigits2 M = prec + 1).
      { apply Zdigits2_unique; [ | lia]. rewrite HMeq.
        replace (prec + 1 - 1) with prec by lia. split; [lia | ].
        rewrite Z.pow_add_r, Z.pow_1_r by (rewrite ?prec_val; lia). lia. }
      assert (Hf : fexp (Zdigits2 M + E) = E + 1) by (rewrite HdM, fexp_spec; lia).
      split; [ | split; [lia | lia]].
      rewrite Hf. replace (Z.max (E + 1 - E) 0) with 1 by lia.
      rewrite Z.pow_1_r.
      replace (M / 2) with (2 ^ (prec - 1))
        by (rewrite HMeq, Hpp2; apply Z.div_unique_exact; lia).
      unfold rounded. destruct M as [ | m | m]; try lia.
      destruct (Z.ltb_spec (Z.pos m) (2 ^ prec)); [lia | ].
      destruct (2 ^ (prec - 1)) as [ | q | q] eqn:Eq; try lia.
      reflexivity.
  - (* the result is subnormal *)
    assert (Hqb : mx / 2 ^ (E - ex) < 2 ^ (prec - 1)).
    { destruct (Z.eq_dec mx 0) as [Z | Hnz].
      - rewrite Z, Z.div_0_l by lia. lia.
      - pose proof (Zdigits2_bounds mx ltac:(lia)) as Bx.
        apply Z.div_lt_upper_bound; [lia | ].
        destruct (Z_lt_le_dec (Zdigits2 mx) (E - ex)) as [Hs | Hs].
        + assert (2 ^ Zdigits2 mx <= 2 ^ (E - ex)) by (apply Z.pow_le_mono_r; lia). nia.
        + assert (2 ^ Zdigits2 mx <= 2 ^ (E - ex) * 2 ^ (prec - 1)).
          { rewrite <- Z.pow_add_r by (rewrite ?prec_val; lia).
            apply Z.pow_le_mono_r; lia. }
          lia. }
    assert (HMb : M <= 2 ^ (prec - 1)) by lia.
    assert (Hf : 0 < M -> fexp (Zdigits2 M + E) = E).
    { intros HMp. assert (Zdigits2 M <= prec).
      { apply Zdigits2_le; [rewrite prec_val; lia | lia]. }
      rewrite fexp_spec. lia. }
    split; [ | split; [lia | intros [HMp _]; auto]].
    destruct (Z.eq_dec M 0) as [Z | Hnz].
    + rewrite Z. simpl Zdigits2. rewrite Z.div_0_l; [reflexivity | ].
      apply Z.pow_nonzero; lia.
    + rewrite Hf by lia. replace (Z.max (E - E) 0) with 0 by lia.
      rewrite Z.pow_0_r, Z.div_1_r, Z.add_0_r.
      unfold rounded. destruct M as [ | m | m]; try lia.
      destruct (Z.ltb_spec (Z.pos m) (2 ^ prec)); [reflexivity | lia].
Qed.

Lemma fexp_ge_emin (e : Z) : emin <= fexp e.
Proof. rewrite fexp_spec. lia. Qed.

Lemma fexp_mono (a b : Z) : a <= b -> fexp a <= fexp b.
Proof. rewrite !fexp_spec. lia. Qed.

Lemma rounded_wf (sx : bool) (M E : Z) :
  emin <= E -> 0 <= M <= 2 ^ prec ->
  (0 < M < 2 ^ prec -> fexp (Zdigits2 M + E) = E) ->
  wf (rounded sx M E).
Proof.
  intros HE HM Hc. unfold wf, rounded.
  destruct M as [ | m | m]; [reflexivity | | reflexivity].
  destruct (Z.ltb_spec (Z.pos m) (2 ^ prec)) as [Hlt | Hge].
  - destruct (Z.leb_spec E (emax - prec)) as [Hle | ]; [ | reflexivity].
    cbn [valid_binary]. unfold bounded, canonical_mantissa.
    specialize (Hc ltac:(lia)). cbn [Zdigits2] in Hc. rewrite Hc, Z.eqb_refl.
    apply Z.leb_le in Hle. rewrite Hle. reflexivity.
  - destruct (Z.leb_spec (E + 1) (emax - prec)) as [Hle | ]; [ | reflexivity].
    cbn [valid_binary]. unfold bounded, canonical_mantissa.
    pose proof (pow2_pos (prec - 1) ltac:(rewrite prec_val; lia)) as Hp.
    assert (Hd : Z.pos (digits2_pos (Z.to_pos (2 ^ (prec - 1)))) = prec).
    { change (Z.pos (digits2_pos (Z.to_pos (2 ^ (prec - 1)))))
        with (Zdigits2 (Z.pos (Z.to_pos (2 ^ (prec - 1))))).
      rewrite Z2Pos.id by lia. apply Zdigits2_unique; [ | lia].
      split; [lia | ]. apply Z.pow_lt_mono_r; rewrite ?prec_val; lia. }
    rewrite Hd, fexp_spec.
    replace (Z.max (prec + (E + 1) - prec) emin) with (E + 1) by lia.
    rewrite Z.eqb_refl. apply Z.leb_le in Hle. rewrite Hle. reflexivity.
Qed.

Lemma rounded_not_nan (sx : bool) (M E : Z) : 0 <= M -> rounded sx M E <> S754_nan.
Proof.
  unfold rounded. intros HM. destruct M as [ | m | m]; try lia; try discriminate.
  destruct (_ <? _); destruct (_ <=? _); discriminate.
Qed.

(** ** Alignment *)

Lemma iter_xO (d m : positive) : Z.pos (Pos.iter xO m d) = Z.pos m * 2 ^ Z.pos d.
Proof.
  change (Pos.iter xO m d) with (shift_pos d m).
  rewrite shift_pos_correct, Z.pow_pos_fold. lia.
Qed.

Lemma shl_align_spec (mx : positive) (ex ex' : Z) :
  snd (shl_align mx ex ex') = Z.min ex ex' /\
  Z.pos (fst (shl_align mx ex ex')) = Z.pos mx * 2 ^ (ex - Z.min ex ex').
Proof.
  unfold shl_align. destruct (ex' - ex) as [ | d | d] eqn:Hd; cbn [fst snd].
  - replace (Z.min ex ex') with ex by lia. rewrite Z.sub_diag, Z.pow_0_r. lia.
  - replace (Z.min ex ex') with ex by lia. rewrite Z.sub_diag, Z.pow_0_r. lia.
  - replace (Z.min ex ex') with ex' by lia. rewrite iter_xO.
    replace (ex - ex') with (Z.pos d) by lia. split; reflexivity.
Qed.

Lemma Zdigits2_mul_pow2 (m n : Z) :
  0 < m -> 0 <= n -> Zdigits2 (m * 2 ^ n) = Zdigits2 m + n.
Proof.
  intros Hm Hn. pose proof (Zdigits2_bounds m Hm) as B.
  pose proof (Zdigits2_pos m Hm). pose proof (pow2_pos n Hn).
  apply Zdigits2_unique; [ | nia].
  replace (Zdigits2 m + n - 1) with (Zdigits2 m - 1 + n) by lia.
  rewrite !Z.pow_add_r by lia. nia.
Qed.

(** [binary_round] rounds [mx * 2^ex] at the exponent of its format. *)
Theorem binary_round_rounded (sx : bool) (mx : positive) (ex : Z) :
  let E := fexp (Z.pos (digits2_pos mx) + ex) in
  let z := Z.min ex E in
  let M := rne (Z.pos mx * 2 ^ (ex - z)) (2 ^ (E - z)) in
  binary_round prec emax sx mx ex = rounded sx M E /\
  0 <= M <= 2 ^ prec /\
  (0 < M < 2 ^ prec -> fexp (Zdigits2 M + E) = E).
Proof.
  intros E z M. unfold binary_round.
  pose proof (shl_align_spec mx ex E) as [Hs Hf]. fold E.
  destruct (shl_align mx ex E) as [mz ez]. cbn [fst snd] in Hs, Hf.
  fold z in Hs, Hf. subst ez.
  assert (Hz : 0 <= ex - z) by lia.
  assert (Hd : Zdigits2 (Z.pos mz) + z = Z.pos (digits2_pos mx) + ex).
  { rewrite Hf, Zdigits2_mul_pow2 by lia. cbn [Zdigits2]. lia. }
  pose proof (bra_rounded sx (Z.pos mz) z loc_Exact (Z.pos mz) 1
                (represents_of_loc_Exact _ (Pos2Z.is_nonneg mz))) as B.
  cbv zeta in B. rewrite Hd in B. fold E in B. rewrite Z.mul_1_l, Hf in B. fold M in B.
  rewrite Hf. apply B. lia.
Qed.

Lemma binary_normalize_wf (m e : Z) (sz : bool) :
  wf (binary_normalize prec emax m e sz).
Proof.
  destruct m as [ | p | p]; cbn [binary_normalize]; [reflexivity | | ].
  - destruct (binary_round_rounded false p e) as (-> & HM & Hc).
    apply rounded_wf; auto using fexp_ge_emin.
  - destruct (binary_round_rounded true p e) as (-> & HM & Hc).
    apply rounded_wf; auto using fexp_ge_emin.
Qed.

(** ** Well-formedness of the results of the arithmetic *)

Lemma wf_finite_inv (s : bool) (m : positive) (e : Z) :
  wf (S754_finite s m e) ->
  fexp (Z.pos (digits2_pos m) + e) = e /\ e <= emax - prec.
Proof.
  unfold wf. cbn [valid_binary]. unfold bounded, canonical_mantissa.
  intros H. apply andb_true_iff in H as [H1 H2].
  apply Z.eqb_eq in H1. apply Z.leb_le in H2. auto.
Qed.

Lemma wf_finite_bounds (s : bool) (m : positive) (e : Z) :
  wf (S754_finite s m e) ->
  Z.pos (digits2_pos m) <= prec /\ emin <= e <= emax - prec /\
  (Z.pos (digits2_pos m) = prec \/ e = emin).
Proof.
  intros H. apply wf_finite_inv in H as [H1 H2]. rewrite fexp_spec in H1. lia.
Qed.

Lemma add_wf (x y : number) : wf x -> wf y -> wf (add x y).
Proof.
  intros Hx Hy. unfold add.
  destruct x as [sx | sx | | sx mx ex], y as [sy | sy | | sy my ey];
    cbn [SFadd]; try assumption; try reflexivity.
  - destruct sx, sy; assumption || reflexivity.
  - destruct sx, sy; assumption || reflexivity.
  - apply binary_normalize_wf.
Qed.

Lemma sub_wf (x y : number) : wf x -> wf y -> wf (sub x y).
Proof.
  intros Hx Hy. unfold sub.
  destruct x as [sx | sx | | sx mx ex], y as [sy | sy | | sy my ey];
    cbn [SFsub]; try assumption; try reflexivity.
  - destruct sx, sy; assumption || reflexivity.
  - destruct sx, sy; assumption || reflexivity.
  - apply binary_normalize_wf.
Qed.

Lemma Zdigits2_mul_ge (a b : Z) :
  0 < a -> 0 < b -> Zdigits2 a + Zdigits2 b - 1 <= Zdigits2 (a * b).
Proof.
  intros Ha Hb. pose proof (Zdigits2_bounds a Ha). pose proof (Zdigits2_bounds b Hb).
  pose proof (Zdigits2_pos a Ha). pose proof (Zdigits2_pos b Hb).
  apply Zdigits2_ge; [ | nia].
  replace (Zdigits2 a + Zdigits2 b - 1 - 1) with ((Zdigits2 a - 1) + (Zdigits2 b - 1)) by lia.
  rewrite Z.pow_add_r by lia.
  pose proof (pow2_pos (Zdigits2 a - 1) ltac:(lia)).
  pose proof (pow2_pos (Zdigits2 b - 1) ltac:(lia)). nia.
Qed.

(** The product of two well-formed mantissas is never shifted left. *)
Lemma mul_exponent_ok (sx sy : bool) (mx my : positive) (ex ey : Z) :
  wf (S754_finite sx mx ex) -> wf (S754_finite sy my ey) ->
  ex + ey <= fexp (Zdigits2 (Z.pos (mx * my)) + (ex + ey)).
Proof.
  intros Hx Hy.
  apply wf_finite_bounds in Hx as (Hx1 & Hx2 & Hx3).
  apply wf_finite_bounds in Hy as (Hy1 & Hy2 & Hy3).
  pose proof (Zdigits2_mul_ge (Z.pos mx) (Z.pos my) ltac:(lia) ltac:(lia)) as Hd.
  cbn [Zdigits2] in Hd. rewrite Pos2Z.inj_mul. cbn [Zdigits2] in *.
  pose proof (Pos2Z.is_pos (digits2_pos mx)). pose proof (Pos2Z.is_pos (digits2_pos my)).
  rewrite fexp_spec. rewrite emin_val in *. rewrite prec_val in *. lia.
Qed.

Theorem mul_rounded (sx sy : bool) (mx my : positive) (ex ey : Z) :
  wf (S754_finite sx mx ex) -> wf (S754_finite sy my ey) ->
  let E := fexp (Zdigits2 (Z.pos (mx * my)) + (ex + ey)) in
  let M := rne (Z.pos (mx * my)) (2 ^ (E - (ex + ey))) in
  mul (S754_finite sx mx ex) (S754_finite sy my ey) = rounded (xorb sx sy) M E /\
  0 <= M <= 2 ^ prec /\
  (0 < M < 2 ^ prec -> fexp (Zdigits2 M + E) = E).
Proof.
  intros Hx Hy E M. unfold mul. cbn [SFmul].
  pose proof (bra_rounded (xorb sx sy) (Z.pos (mx * my)) (ex + ey) loc_Exact
                (Z.pos (mx * my)) 1
                (represents_of_loc_Exact _ (Pos2Z.is_nonneg _))
                (mul_exponent_ok sx sy mx my ex ey Hx Hy)) as B.
  cbv zeta in B. fold E in B. rewrite Z.mul_1_l in B. exact B.
Qed.

Lemma mul_wf (x y : number) : wf x -> wf y -> wf (mul x y).
Proof.
  intros Hx Hy.
  destruct x as [sx | sx | | sx mx ex], y as [sy | sy | | sy my ey];
    try reflexivity.
  destruct (mul_rounded sx sy mx my ex ey Hx Hy) as (-> & HM & Hc).
  apply rounded_wf; auto using fexp_ge_emin.
Qed.

(** ** Division *)

Lemma new_location_represents (m' m2 : Z) :
  0 <= m' -> 0 < m2 ->
  represents m' m2
    (shr_record_of_loc (m' / m2) (new_location m2 (m' mod m2))).
Proof.
  intros H1 H2. pose proof (Z.mod_pos_bound m' m2 H2) as Hb.
  set (rho := m' mod m2) in *.
  assert (Hloc : new_location m2 rho =
                 if rho =? 0 then loc_Exact
                 else loc_Inexact (2 * rho ?= m2)).
  { unfold new_location, new_location_even, new_location_odd.
    destruct (Z.even m2) eqn:Hev; [reflexivity | ].
    destruct (rho =? 0); [reflexivity | ]. f_equal.
    assert (Hodd : Z.odd m2 = true) by (rewrite <- Z.negb_even, Hev; reflexivity).
    apply Z.odd_spec in Hodd as [k Hk].
    destruct (Z.compare_spec (2 * rho + 1) m2), (Z.compare_spec (2 * rho) m2);
      try reflexivity; lia. }
  rewrite Hloc. unfold represents. fold rho.
  destruct (Z.eqb_spec rho 0) as [E | E].
  - cbn [shr_record_of_loc shr_m shr_r shr_s]. rewrite E.
    repeat split; try lia; bool_cases; try reflexivity; lia.
  - destruct (Z.compare_spec (2 * rho) m2);
      cbn [shr_record_of_loc shr_m shr_r shr_s];
      repeat split; try lia; bool_cases; try reflexivity; lia.
Qed.

Theorem div_rounded (sx sy : bool) (mx my : positive) (ex ey : Z) :
  let e' := Z.min (fexp (Zdigits2 (Z.pos mx) + ex - (Zdigits2 (Z.pos my) + ey)))
                  (ex - ey) in
  let m' := Z.pos mx * 2 ^ (ex - ey - e') in
  let E := fexp (Zdigits2 (m' / Z.pos my) + e') in
  let M := rne m' (Z.pos my * 2 ^ (E - e')) in
  div (S754_finite sx mx ex) (S754_finite sy my ey) = rounded (xorb sx sy) M E /\
  0 <= M <= 2 ^ prec /\
  (0 < M < 2 ^ prec -> fexp (Zdigits2 M + E) = E) /\
  e' <= E.
Proof.
  intros e' m' E M. unfold div. cbn [SFdiv]. unfold SFdiv_core_binary.
  fold e'.
  assert (Hs : 0 <= ex - ey - e') by lia.
  assert (Hm' : match ex - ey - e' with
                | 0 => Z.pos mx
                | Z.pos _ => Z.shiftl (Z.pos mx) (ex - ey - e')
                | Z.neg _ => 0
                end = m').
  { unfold m'. destruct (ex - ey - e') as [ | p | p] eqn:Hp.
    - rewrite Z.pow_0_r; lia.
    - rewrite Z.shiftl_mul_pow2 by lia. reflexivity.
    - lia. }
  rewrite Hm'.
  pose proof (pow2_pos _ Hs) as Hp.
  assert (Hm'pos : 0 < m') by (unfold m'; nia).
  assert (Hde : Z.div_eucl m' (Z.pos my) = (m' / Z.pos my, m' mod Z.pos my))
    by (unfold Z.div, Z.modulo; destruct (Z.div_eucl m' (Z.pos my)); reflexivity).
  rewrite Hde.
  assert (Hpre : e' <= fexp (Zdigits2 (m' / Z.pos my) + e')).
  { fold E.
    set (F := fexp (Zdigits2 (Z.pos mx) + ex - (Zdigits2 (Z.pos my) + ey))) in *.
    assert (He'F : e' <= F) by lia.
    pose proof (fexp_ge_emin (Zdigits2 (m' / Z.pos my) + e')) as HEm. fold E in HEm.
    destruct (Z.eq_dec F emin) as [HF | HF]; [lia | ].
    assert (HFv : F = Zdigits2 (Z.pos mx) + ex - (Zdigits2 (Z.pos my) + ey) - prec)
      by (unfold F in *; rewrite fexp_spec in *; lia).
    pose proof (Zdigits2_bounds (Z.pos mx) ltac:(lia)) as Bx.
    pose proof (Zdigits2_bounds (Z.pos my) ltac:(lia)) as By.
    pose proof (Zdigits2_pos (Z.pos mx) ltac:(lia)) as Px.
    pose proof (Zdigits2_pos (Z.pos my) ltac:(lia)) as Py.
    set (dx := Zdigits2 (Z.pos mx)) in *. set (dy := Zdigits2 (Z.pos my)) in *.
    assert (Hk : 0 <= dx + (ex - ey - e') - dy - 1) by (rewrite prec_val in *; lia).
    assert (Hq : 2 ^ (dx + (ex - ey - e') - dy - 1) <= m' / Z.pos my).
    { apply Z.div_le_lower_bound; [lia | ].
      assert (Z.pos my * 2 ^ (dx + (ex - ey - e') - dy - 1)
              <= 2 ^ dy * 2 ^ (dx + (ex - ey - e') - dy - 1)).
      { apply Z.mul_le_mono_nonneg_r; [apply Z.lt_le_incl, pow2_pos; lia | lia]. }
      rewrite <- Z.pow_add_r in H by lia.
      replace (dy + (dx + (ex - ey - e') - dy - 1)) with ((dx - 1) + (ex - ey - e')) in H by lia.
      rewrite Z.pow_add_r in H by lia. unfold m'. nia. }
    assert (Hdq : dx + (ex - ey - e') - dy <= Zdigits2 (m' / Z.pos my)).
    { apply Zdigits2_ge; [exact Hq | ].
      pose proof (pow2_pos _ Hk). lia. }
    unfold E. rewrite fexp_spec. lia. }
  pose proof (bra_rounded (xorb sx sy) (m' / Z.pos my) e'
                (new_location (Z.pos my) (m' mod Z.pos my)) m' (Z.pos my)
                (new_location_represents m' (Z.pos my) ltac:(lia) ltac:(lia)) Hpre) as B.
  cbv zeta in B. fold E in B. fold M in B.
  destruct B as (B1 & B2 & B3). repeat split; try assumption; lia.
Qed.

Lemma div_wf (x y : number) : wf x -> wf y -> wf (div x y).
Proof.
  intros Hx Hy.
  destruct x as [sx | sx | | sx mx ex], y as [sy | sy | | sy my ey];
    try reflexivity.
  destruct (div_rounded sx sy mx my ex ey) as (-> & HM & Hc & _).
  apply rounded_wf; auto using fexp_ge_emin.
Qed.

Lemma rem_wf (x y : number) : wf x -> wf y -> wf (rem x y).
Proof.
  intros Hx Hy.
  destruct x as [sx | sx | | sx mx ex], y as [sy | sy | | sy my ey];
    try reflexivity; try assumption.
  cbn [rem]. apply binary_normalize_wf.
Qed.

Lemma of_Z_wf (n : Z) : wf (of_Z n).
Proof. apply binary_normalize_wf. Qed.

(** ** Subtraction of non-negative doubles cannot overflow *)

Lemma rne_le (N D k : Z) : 0 < D -> 0 <= N -> N <= k * D -> rne N D <= k.
Proof.
  intros HD HN H. pose proof (Z.mod_pos_bound N D HD) as Hb.
  pose proof (Z.div_mod N D ltac:(lia)) as Hdm.
  assert (Hq : N / D <= k) by (apply Z.div_le_upper_bound; lia).
  destruct (Z.eq_dec (N / D) k) as [Hk | Hk].
  - assert (N mod D = 0) by nia. rewrite rne_exact; lia.
  - pose proof (rne_bounds N D HD HN). lia.
Qed.

Lemma rounded_finite (s : bool) (M E : Z) :
  0 <= M ->
  (M < 2 ^ prec /\ E <= emax - prec) \/ E + 1 <= emax - prec ->
  isFinite (rounded s M E) = true.
Proof.
  intros HM H. unfold rounded. destruct M as [ | m | m]; [reflexivity | | lia].
  destruct (Z.ltb_spec (Z.pos m) (2 ^ prec)).
  - destruct (Z.leb_spec E (emax - prec)); [reflexivity | lia].
  - destruct (Z.leb_spec (E + 1) (emax - prec)); [reflexivity | lia].
Qed.

(** Rounding a value that does not exceed a well-formed finite double
    gives a finite double. *)
Lemma binary_round_le_finite (s sx : bool) (p mx : positive) (e ex : Z) :
  wf (S754_finite sx mx ex) ->
  Z.pos p * 2 ^ (e - Z.min e ex) <= Z.pos mx * 2 ^ (ex - Z.min e ex) ->
  isFinite (binary_round prec emax s p e) = true.
Proof.
  intros Hwf Hle.
  destruct (binary_round_rounded s p e) as (-> & HM & _).
  apply wf_finite_inv in Hwf as [Hc Hb].
  set (E := fexp (Z.pos (digits2_pos p) + e)) in *.
  assert (HE : E <= ex).
  { rewrite <- Hc. apply fexp_mono.
    assert (Zdigits2 (Z.pos p * 2 ^ (e - Z.min e ex))
            <= Zdigits2 (Z.pos mx * 2 ^ (ex - Z.min e ex))).
    { apply Zdigits2_mono. split; [ | exact Hle].
      pose proof (pow2_pos (e - Z.min e ex) ltac:(lia)). nia. }
    rewrite !Zdigits2_mul_pow2 in H by lia. cbn [Zdigits2] in H. lia. }
  apply rounded_finite; [lia | ].
  destruct (Z.eq_dec E ex) as [Heq | Hne]; [left | right; lia].
  split; [ | lia].
  assert (Hmx : Z.pos mx < 2 ^ prec).
  { pose proof (digits2_bounds mx) as Bx. rewrite fexp_spec in Hc.
    assert (2 ^ Z.pos (digits2_pos mx) <= 2 ^ prec)
      by (apply Z.pow_le_mono_r; lia). lia. }
  assert (rne (Z.pos p * 2 ^ (e - Z.min e E)) (2 ^ (E - Z.min e E)) <= Z.pos mx).
  { apply rne_le.
    - apply pow2_pos; lia.
    - pose proof (pow2_pos (e - Z.min e E) ltac:(lia)). nia.
    - rewrite Heq. exact Hle. }
  lia.
Qed.

Lemma positive_number_cases (x : number) :
  positive_number x = true ->
  x = S754_zero false \/ exists m e, x = S754_finite false m e.
Proof.
  destruct x as [[ | ] | | | [ | ] m e]; try discriminate; eauto.
Qed.

Theorem sub_finite (x y : number) :
  wf x -> wf y -> positive_number x = true -> positive_number y = true ->
  isFinite (sub x y) = true.
Proof.
  intros Hx Hy Px Py.
  destruct (positive_number_cases x Px) as [-> | (mx & ex & ->)];
    destruct (positive_number_cases y Py) as [-> | (my & ey & ->)];
    try reflexivity.
  unfold sub. cbn [SFsub cond_Zopp].
  pose proof (shl_align_spec mx ex (Z.min ex ey)) as [_ HA].
  pose proof (shl_align_spec my ey (Z.min ex ey)) as [_ HB].
  rewrite HA, HB.
  replace (Z.min ex (Z.min ex ey)) with (Z.min ex ey) by lia.
  replace (Z.min ey (Z.min ex ey)) with (Z.min ex ey) by lia.
  set (ez := Z.min ex ey).
  set (A := Z.pos mx * 2 ^ (ex - ez)). set (B := Z.pos my * 2 ^ (ey - ez)).
  assert (HApos : 0 < A) by (pose proof (pow2_pos (ex - ez) ltac:(lia)); unfold A; nia).
  assert (HBpos : 0 < B) by (pose proof (pow2_pos (ey - ez) ltac:(lia)); unfold B; nia).
  destruct (A - B) as [ | p | p] eqn:Hd; cbn [binary_normalize]; [reflexivity | | ].
  - apply (binary_round_le_finite false false p mx ez ex Hx).
    replace (Z.min ez ex) with ez by lia. rewrite Z.sub_diag, Z.pow_0_r. fold A. lia.
  - apply (binary_round_le_finite true false p my ez ey Hy).
    replace (Z.min ez ey) with ez by lia. rewrite Z.sub_diag, Z.pow_0_r. fold B. lia.
Qed.

(** ** Values as rationals *)

Lemma pow2_add (a b : Z) : (pow2 (a + b) == pow2 a * pow2 b)%Q.
Proof. unfold pow2. apply Qpower_plus. discriminate. Qed.

Lemma pow2_gt0 (a : Z) : (0 < pow2 a)%Q.
Proof. unfold pow2. apply Qpower_0_lt. reflexivity. Qed.

Lemma pow2_inject (n : Z) : 0 <= n -> (pow2 n == inject_Z (2 ^ n))%Q.
Proof. intros H. unfold pow2. rewrite Zpower_Qpower by assumption. reflexivity. Qed.

Lemma inject_cond_Zopp (s : bool) (m : Z) :
  (inject_Z (cond_Zopp s m) == (if s then - inject_Z m else inject_Z m))%Q.
Proof. destruct s; cbn [cond_Zopp]; [rewrite inject_Z_opp | ]; reflexivity. Qed.

Lemma value_rounded (s : bool) (M E : Z) :
  0 <= M <= 2 ^ prec -> isFinite (rounded s M E) = true ->
  (value (rounded s M E) == inject_Z (cond_Zopp s M) * pow2 E)%Q.
Proof.
  intros HM F. unfold rounded in *. destruct M as [ | m | m]; [ | | lia].
  - cbn [value]. destruct s; cbn; ring.
  - destruct (Z.ltb_spec (Z.pos m) (2 ^ prec)) as [Hlt | Hge].
    + destruct (E <=? emax - prec); [reflexivity | discriminate].
    + destruct (E + 1 <=? emax - prec); [ | discriminate].
      cbn [value]. assert (HMe : Z.pos m = 2 ^ prec) by lia.
      pose proof (pow2_pos (prec - 1) ltac:(rewrite prec_val; lia)) as Hp.
      rewrite Z2Pos.id, HMe by assumption.
      assert (Hq : (inject_Z (2 ^ prec) * pow2 E ==
                    inject_Z (2 ^ (prec - 1)) * pow2 (E + 1))%Q).
      { rewrite pow2_add.
        rewrite <- !pow2_inject by (rewrite prec_val; lia).
        replace prec with ((prec - 1) + 1) at 1 by lia.
        rewrite (pow2_add (prec - 1) 1). ring. }
      destruct s; cbn [cond_Zopp]; rewrite ?inject_Z_opp; lra.
Qed.

Lemma inject_Z_pos (z : Z) : 0 < z -> (0 < inject_Z z)%Q.
Proof. intros H. change 0%Q with (inject_Z 0). rewrite <- Zlt_Qlt. assumption. Qed.

Lemma inject_Z_nonneg (z : Z) : 0 <= z -> (0 <= inject_Z z)%Q.
Proof. intros H. change 0%Q with (inject_Z 0). rewrite <- Zle_Qle. assumption. Qed.

Lemma Qdiv_floor (N D : Z) :
  0 < D -> 0 <= N -> (inject_Z (N / D) <= inject_Z N / inject_Z D)%Q.
Proof.
  intros HD HN.
  assert (Hd : (0 < inject_Z D)%Q) by (apply inject_Z_pos; assumption).
  apply Qle_shift_div_l; [assumption | ].
  rewrite <- inject_Z_mult, <- Zle_Qle.
  pose proof (Z.mul_div_le N D HD). lia.
Qed.

(** The rounding error: half a unit in the last place, that is a relative
    error of [2^-prec] for a normal result and an absolute error of half the
    least subnormal otherwise. *)
Lemma round_error_aux (n d p t m w h pE bound : Q) :
  (0 < d -> 0 < t -> n == w * d ->
   2 * n <= 2 * (d * p) * m + d * p ->
   2 * (d * p) * m <= 2 * n + d * p ->
   pE == p * t -> h * 2 == pE -> h <= bound ->
   - bound <= m * pE - w * t <= bound)%Q.
Proof.
  intros Hd Ht Hw B1 B2 HEq Hhalf Hulp.
  assert (H1 : (2 * w - p <= 2 * p * m)%Q).
  { apply (Qmult_le_l _ _ d Hd). lra. }
  assert (H2 : (2 * p * m <= 2 * w + p)%Q).
  { apply (Qmult_le_l _ _ d Hd). lra. }
  assert (H3 : ((2 * w - p) * t <= 2 * p * m * t)%Q)
    by (apply Qmult_le_compat_r; lra).
  assert (H4 : (2 * p * m * t <= (2 * w + p) * t)%Q)
    by (apply Qmult_le_compat_r; lra).
  rewrite HEq. split; lra.
Qed.

Theorem round_error (N D e0 : Z) :
  0 < D -> 0 <= N ->
  let E := fexp (Zdigits2 (N / D) + e0) in
  e0 <= E ->
  let M := rne N (D * 2 ^ (E - e0)) in
  let V := (inject_Z N / inject_Z D * pow2 e0)%Q in
  (Qabs (inject_Z M * pow2 E - V) <= V * pow2 (- prec) + pow2 (emin - 1))%Q.
Proof.
  intros HD HN E HE M V.
  pose proof (pow2_pos (E - e0) ltac:(lia)) as Hp.
  assert (HD' : 0 < D * 2 ^ (E - e0)) by nia.
  pose proof (rne_bounds N (D * 2 ^ (E - e0)) HD' HN) as [_ [B1 B2]]. fold M in B1, B2.
  assert (B1' : 2 * N <= 2 * (D * 2 ^ (E - e0)) * M + D * 2 ^ (E - e0)) by lia.
  clear B1. rewrite Zle_Qle in B1', B2.
  repeat rewrite ?inject_Z_mult, ?inject_Z_plus in B1', B2.
  change (inject_Z 2) with 2%Q in B1', B2.
  rewrite <- (pow2_inject (E - e0)) in B1', B2 by lia.
  assert (Hd : (0 < inject_Z D)%Q) by (apply inject_Z_pos; assumption).
  assert (Hn : (0 <= inject_Z N)%Q) by (apply inject_Z_nonneg; assumption).
  pose proof (pow2_gt0 (E - e0)) as Hpq. pose proof (pow2_gt0 e0) as Ht.
  pose proof (pow2_gt0 (- prec)) as Hu. pose proof (pow2_gt0 (emin - 1)) as Hh.
  assert (HEq : (pow2 E == pow2 (E - e0) * pow2 e0)%Q).
  { rewrite <- pow2_add. replace (E - e0 + e0) with E by lia. reflexivity. }
  assert (Hhalf : (pow2 (E - 1) * 2 == pow2 E)%Q).
  { replace E with ((E - 1) + 1) at 2 by lia. rewrite pow2_add. reflexivity. }
  assert (Hw : (inject_Z N == inject_Z N / inject_Z D * inject_Z D)%Q) by (field; lra).
  assert (Hw0 : (0 <= inject_Z N / inject_Z D)%Q) by (apply Qle_shift_div_l; lra).
  (* half a unit in the last place, against the magnitude of the value *)
  assert (Hulp : (pow2 (E - 1) <= V * pow2 (- prec) + pow2 (emin - 1))%Q).
  { unfold V.
    assert (Ecases : E = emin \/ E = Zdigits2 (N / D) + e0 - prec)
      by (unfold E; rewrite fexp_spec; lia).
    destruct Ecases as [HEm | HEn].
    - rewrite HEm.
      assert (0 <= inject_Z N / inject_Z D * pow2 e0 * pow2 (- prec))%Q.
      { apply Qmult_le_0_compat; [apply Qmult_le_0_compat | ]; lra. }
      lra.
    - assert (Hq : 0 < N / D).
      { destruct (Z.eq_dec (N / D) 0) as [Z | Hnz].
        - rewrite Z in HEn. cbn [Zdigits2] in HEn. rewrite prec_val in *. lia.
        - pose proof (Z.div_pos N D HN HD). lia. }
      pose proof (Zdigits2_bounds (N / D) Hq) as [Bq _].
      pose proof (Zdigits2_pos (N / D) Hq) as Pq.
      assert (Hfl : (pow2 (Zdigits2 (N / D) - 1) <= inject_Z N / inject_Z D)%Q).
      { rewrite pow2_inject by lia.
        apply Qle_trans with (inject_Z (N / D)).
        - rewrite <- Zle_Qle. assumption.
        - apply Qdiv_floor; assumption. }
      assert (Hsplit : (pow2 (E - 1) ==
                        pow2 (Zdigits2 (N / D) - 1) * pow2 e0 * pow2 (- prec))%Q).
      { rewrite <- !pow2_add. rewrite HEn.
        replace (Zdigits2 (N / D) + e0 - prec - 1)
          with (Zdigits2 (N / D) - 1 + e0 + - prec) by lia. reflexivity. }
      rewrite Hsplit.
      assert (pow2 (Zdigits2 (N / D) - 1) * pow2 e0 * pow2 (- prec)
              <= inject_Z N / inject_Z D * pow2 e0 * pow2 (- prec))%Q.
      { apply Qmult_le_compat_r; [ | lra]. apply Qmult_le_compat_r; lra. }
      lra. }
  apply Qabs_Qle_condition. unfold V in *.
  apply (round_error_aux (inject_Z N) (inject_Z D) (pow2 (E - e0)) (pow2 e0)
           (inject_Z M) (inject_Z N / inject_Z D) (pow2 (E - 1)));
    assumption.
Qed.

Lemma Qabs_le_of_bounds (x y : Q) : (- y <= x <= y -> Qabs x <= y)%Q.
Proof. intros H. apply Qabs_Qle_condition. exact H. Qed.

(** The product of two positive doubles, when it does not overflow, is the
    exact product up to half a unit in the last place. *)
Theorem mul_error (mx my : positive) (ex ey : Z) :
  let x := S754_finite false mx ex in
  let y := S754_finite false my ey in
  wf x -> wf y -> isFinite (mul x y) = true ->
  (Qabs (value (mul x y) - value x * value y)
   <= value x * value y * pow2 (- prec) + pow2 (emin - 1))%Q.
Proof.
  intros x y Hx Hy F.
  destruct (mul_rounded false false mx my ex ey Hx Hy) as (Hm & HM & _).
  cbv zeta in Hm. fold x y in Hm. rewrite Hm in F |- *.
  rewrite (value_rounded _ _ _ HM F). cbn [xorb cond_Zopp].
  pose proof (round_error (Z.pos (mx * my)) 1 (ex + ey) ltac:(lia) ltac:(lia)) as R.
  cbv zeta in R. rewrite Z.div_1_r, Z.mul_1_l in R.
  specialize (R (mul_exponent_ok false false mx my ex ey Hx Hy)).
  assert (HV : (inject_Z (Z.pos (mx * my)) / inject_Z 1 * pow2 (ex + ey)
                == value x * value y)%Q).
  { unfold x, y. cbn [value cond_Zopp]. rewrite Pos2Z.inj_mul, inject_Z_mult, pow2_add.
    change (inject_Z 1) with 1%Q. field. }
  rewrite HV in R. exact R.
Qed.

(** The quotient of two positive doubles, when it does not overflow, is the
    exact quotient up to half a unit in the last place. *)
Theorem div_error (mx my : positive) (ex ey : Z) :
  let x := S754_finite false mx ex in
  let y := S754_finite false my ey in
  isFinite (div x y) = true ->
  (Qabs (value (div x y) - value x / value y)
   <= value x / value y * pow2 (- prec) + pow2 (emin - 1))%Q.
Proof.
  intros x y F.
  destruct (div_rounded false false mx my ex ey) as (Hm & HM & _ & He').
  cbv zeta in Hm, HM, He'. fold x y in Hm. rewrite Hm in F |- *.
  rewrite (value_rounded _ _ _ HM F). cbn [xorb cond_Zopp].
  set (e' := Z.min (fexp (Zdigits2 (Z.pos mx) + ex - (Zdigits2 (Z.pos my) + ey)))
                   (ex - ey)) in *.
  set (m' := Z.pos mx * 2 ^ (ex - ey - e')) in *.
  assert (Hs : 0 <= ex - ey - e') by (unfold e'; lia).
  pose proof (pow2_pos _ Hs) as Hp.
  pose proof (round_error m' (Z.pos my) e' ltac:(lia) ltac:(unfold m'; nia)) as R.
  cbv zeta in R. specialize (R He').
  assert (HV : (inject_Z m' / inject_Z (Z.pos my) * pow2 e'
                == value x / value y)%Q).
  { unfold x, y, m'. cbn [value cond_Zopp].
    rewrite inject_Z_mult, <- pow2_inject by assumption.
    assert (Hsplit : (pow2 ex == pow2 (ex - ey - e') * pow2 e' * pow2 ey)%Q).
    { rewrite <- !pow2_add. replace (ex - ey - e' + e' + ey) with ex by lia. reflexivity. }
    rewrite Hsplit.
    pose proof (pow2_gt0 ey). pose proof (inject_Z_pos (Z.pos my) ltac:(lia)).
    field. split; lra. }
  rewrite HV in R. exact R.
Qed.

(** Dividing a well-formed double by a normal double that is not tiny
    cannot overflow: every observer returns a finite number. *)
Lemma div_finite (sx sy : bool) (mx my : positive) (ex ey : Z) :
  wf (S754_finite sx mx ex) ->
  Zdigits2 (Z.pos my) = prec -> ex - ey + 2 <= emax ->
  isFinite (div (S754_finite sx mx ex) (S754_finite sy my ey)) = true.
Proof.
  intros Hx Hdy Hexp.
  destruct (div_rounded sx sy mx my ex ey) as (Hm & HM & _ & He').
  cbv zeta in Hm, HM, He'. rewrite Hm.
  set (e' := Z.min (fexp (Zdigits2 (Z.pos mx) + ex - (Zdigits2 (Z.pos my) + ey)))
                   (ex - ey)) in *.
  set (m' := Z.pos mx * 2 ^ (ex - ey - e')) in *.
  assert (Hs : 0 <= ex - ey - e') by (unfold e'; lia).
  pose proof (pow2_pos _ Hs) as Hp.
  apply rounded_finite; [lia | right].
  apply wf_finite_bounds in Hx as (Hx1 & Hx2 & _).
  pose proof (Zdigits2_bounds (Z.pos mx) ltac:(lia)) as Bx. cbn [Zdigits2] in Bx.
  pose proof (Zdigits2_bounds (Z.pos my) ltac:(lia)) as By. rewrite Hdy in By.
  assert (Hmx : Z.pos mx < 2 ^ prec).
  { assert (2 ^ Z.pos (digits2_pos mx) <= 2 ^ prec) by (apply Z.pow_le_mono_r; lia). lia. }
  assert (Hq : Zdigits2 (m' / Z.pos my) <= ex - ey - e' + 1).
  { apply Zdigits2_le; [lia | ]. split; [apply Z.div_pos; unfold m'; nia | ].
    apply Z.div_lt_upper_bound; [lia | ].
    assert (2 ^ prec = 2 * 2 ^ (prec - 1)).
    { rewrite (pow2_split prec 1) by (rewrite prec_val; lia). rewrite Z.pow_1_r; lia. }
    rewrite Z.pow_add_r, Z.pow_1_r by lia. unfold m'. nia. }
  rewrite fexp_spec. rewrite emin_val, prec_val, emax_val in *. lia.
Qed.

(** ** The remainder *)

Lemma strict_eq_zero (x : number) :
  strict_eq x (of_Z 0) = true -> exists s, x = S754_zero s.
Proof.
  destruct x as [sx | [ | ] | | [ | ] mx ex]; try discriminate; eauto.
Qed.


Lemma rne_one (N : Z) : rne N 1 = N.
Proof. rewrite rne_exact; [apply Z.div_1_r | lia | apply Z.mod_1_r]. Qed.

Lemma binary_round_nonzero (s s' : bool) (p : positive) (e : Z) :
  emin <= e -> binary_round prec emax s p e <> S754_zero s'.
Proof.
  intros He. destruct (binary_round_rounded s p e) as (-> & HM & _).
  set (E := fexp (Z.pos (digits2_pos p) + e)) in *.
  set (z := Z.min e E) in *.
  assert (H1 : 1 <= rne (Z.pos p * 2 ^ (e - z)) (2 ^ (E - z))).
  { destruct (Z_le_gt_dec E e) as [Hle | Hgt].
    - replace (E - z) with 0 by (unfold z; lia). rewrite Z.pow_0_r, rne_one.
      pose proof (pow2_pos (e - z) ltac:(unfold z; lia)). nia.
    - replace (e - z) with 0 by (unfold z; lia). rewrite Z.pow_0_r, Z.mul_1_r.
      replace (E - z) with (E - e) by (unfold z; lia).
      assert (HE : E = Z.pos (digits2_pos p) + e - prec)
        by (unfold E in *; rewrite fexp_spec in *; lia).
      pose proof (pow2_pos (E - e) ltac:(lia)) as Hp.
      pose proof (rne_bounds (Z.pos p) (2 ^ (E - e)) Hp ltac:(lia)) as [[B _] _].
      pose proof (digits2_bounds p) as [Bp _].
      assert (2 ^ (prec - 1) <= Z.pos p / 2 ^ (E - e)).
      { apply Z.div_le_lower_bound; [lia | ].
        rewrite <- Z.pow_add_r by (rewrite ?prec_val; lia).
        replace (E - e + (prec - 1)) with (Z.pos (digits2_pos p) - 1) by lia. exact Bp. }
      pose proof (pow2_pos (prec - 1) ltac:(rewrite prec_val; lia)). lia. }
  unfold rounded.
  destruct (rne (Z.pos p * 2 ^ (e - z)) (2 ^ (E - z))) as [ | q | q]; try lia.
  destruct (_ <? _); destruct (_ <=? _); discriminate.
Qed.

Lemma rem_zero_iff (m mc : positive) (e ec : Z) :
  wf (S754_finite false m e) -> wf (S754_finite false mc ec) ->
  let ez := Z.min e ec in
  strict_eq (rem (S754_finite false m e) (S754_finite false mc ec)) (of_Z 0) = true
  <-> Z.rem (Z.pos m * 2 ^ (e - ez)) (Z.pos mc * 2 ^ (ec - ez)) = 0.
Proof.
  intros Hx Hc ez. cbn [rem].
  pose proof (shl_align_spec m e (Z.min e ec)) as [_ HA].
  pose proof (shl_align_spec mc ec (Z.min e ec)) as [_ HB].
  rewrite HA, HB.
  replace (Z.min e (Z.min e ec)) with ez by (unfold ez; lia).
  replace (Z.min ec (Z.min e ec)) with ez by (unfold ez; lia).
  fold ez. cbn [cond_Zopp].
  set (A := Z.pos m * 2 ^ (e - ez)). set (B := Z.pos mc * 2 ^ (ec - ez)).
  assert (HApos : 0 < A)
    by (pose proof (pow2_pos (e - ez) ltac:(unfold ez; lia)); unfold A; nia).
  assert (HBpos : 0 < B)
    by (pose proof (pow2_pos (ec - ez) ltac:(unfold ez; lia)); unfold B; nia).
  pose proof (Z.rem_nonneg A B ltac:(lia) ltac:(lia)) as Hr.
  apply wf_finite_bounds in Hx as (_ & Hx2 & _).
  apply wf_finite_bounds in Hc as (_ & Hc2 & _).
  destruct (Z.rem A B) as [ | r | r] eqn:Er; try lia.
  - split; reflexivity.
  - cbn [binary_normalize]. split; [ | discriminate].
    pose proof (binary_round_nonzero false false r ez ltac:(unfold ez; lia)) as N0.
    pose proof (binary_round_nonzero false true r ez ltac:(unfold ez; lia)) as N1.
    intros H. apply strict_eq_zero in H as [[ | ] H]; congruence.
Qed.

Lemma value_aligned (m : positive) (e ez : Z) :
  ez <= e ->
  (value (S754_finite false m e) == inject_Z (Z.pos m * 2 ^ (e - ez)) * pow2 ez)%Q.
Proof.
  intros H. cbn [value cond_Zopp].
  rewrite inject_Z_mult, <- pow2_inject by lia.
  rewrite <- Qmult_assoc, <- pow2_add. replace (e - ez + ez) with e by lia.
  reflexivity.
Qed.

(** The remainder is zero exactly when the dividend is a whole multiple of
    the divisor. *)
Theorem rem_zero_value (m mc : positive) (e ec : Z) :
  let x := S754_finite false m e in
  let c := S754_finite false mc ec in
  wf x -> wf c ->
  (strict_eq (rem x c) (of_Z 0) = true
   <-> exists k : Z, (value x == inject_Z k * value c)%Q).
Proof.
  intros x c Hx Hc. unfold x, c. rewrite (rem_zero_iff m mc e ec Hx Hc). cbv zeta.
  set (ez := Z.min e ec).
  pose proof (value_aligned m e ez ltac:(unfold ez; lia)) as Vx.
  pose proof (value_aligned mc ec ez ltac:(unfold ez; lia)) as Vc.
  set (A := Z.pos m * 2 ^ (e - ez)) in *. set (B := Z.pos mc * 2 ^ (ec - ez)) in *.
  assert (HBpos : 0 < B)
    by (pose proof (pow2_pos (ec - ez) ltac:(unfold ez; lia)); unfold B; nia).
  pose proof (pow2_gt0 ez) as Hz.
  rewrite Z.rem_divide by lia. split.
  - intros [k Hk]. exists k. rewrite Vx, Vc, Hk, inject_Z_mult. ring.
  - intros [k Hk]. exists k. rewrite Vx, Vc in Hk.
    assert (Hq : (inject_Z A == inject_Z (k * B))%Q).
    { rewrite inject_Z_mult. apply (Qmult_inj_r _ _ (pow2 ez)); [lra | ].
      rewrite Hk. ring. }
    exact (proj1 (inject_Z_injective _ _) Hq).
Qed.

(** ** Overflow *)

Lemma rounded_overflow (s : bool) (M E : Z) :
  0 <= M -> isFinite (rounded s M E) = false -> rounded s M E = S754_infinity s.
Proof.
  unfold rounded. intros HM. destruct M as [ | m | m]; try lia; try discriminate.
  destruct (_ <? _); destruct (_ <=? _); try discriminate; reflexivity.
Qed.

Lemma add_overflow (x y : number) :
  positive_number x = true -> positive_number y = true ->
  isFinite (add x y) = false -> add x y = Infinity.
Proof.
  intros Px Py.
  destruct (positive_number_cases x Px) as [-> | (mx & ex & ->)];
    destruct (positive_number_cases y Py) as [-> | (my & ey & ->)];
    try discriminate.
  unfold add. cbn [SFadd cond_Zopp].
  pose proof (Pos2Z.is_pos (fst (shl_align mx ex (Z.min ex ey)))) as HA.
  pose proof (Pos2Z.is_pos (fst (shl_align my ey (Z.min ex ey)))) as HB.
  destruct (Z.pos (fst (shl_align mx ex (Z.min ex ey))) +
            Z.pos (fst (shl_align my ey (Z.min ex ey)))) as [ | p | p] eqn:Hp;
    [lia | | lia].
  cbn [binary_normalize].
  destruct (binary_round_rounded false p (Z.min ex ey)) as (-> & HM & _).
  apply rounded_overflow. lia.
Qed.

Lemma mul_overflow (x k : number) :
  wf x -> wf k -> isFinite x = true -> isFinite k = true ->
  isFinite (mul x k) = false ->
  mul x k = Infinity \/ mul x k = neg_Infinity.
Proof.
  intros Wx Wk Fx Fk.
  destruct x as [sx | sx | | sx mx ex]; try discriminate;
    destruct k as [sk | sk | | sk mk ek]; try discriminate.
  destruct (mul_rounded sx sk mx mk ex ek Wx Wk) as (-> & HM & _).
  intros F. rewrite (rounded_overflow _ _ _ (proj1 HM) F).
  destruct (xorb sx sk); [right | left]; reflexivity.
Qed.

(** ** Chaining rounding errors *)

Local Open Scope Q_scope.

Lemma scaled_back (a b vy q ic u h : Q) :
  0 < ic -> ic <= 1 # 2 -> 0 <= h ->
  a == b * ic -> q == vy * ic ->
  Qabs (vy - b) <= b * u + h ->
  Qabs (q - a) <= a * u + h * (1 # 2).
Proof.
  intros Hic Hic2 Hh Ha Hq H. apply Qabs_Qle_condition in H as [H1 H2].
  apply Qabs_Qle_condition.
  assert (E1 : a * u == b * u * ic) by (rewrite Ha; ring).
  assert (E2 : q - a == (vy - b) * ic) by (rewrite Ha, Hq; ring).
  assert (M1 : (vy - b) * ic <= (b * u + h) * ic) by (apply Qmult_le_compat_r; lra).
  assert (M2 : (- (b * u + h)) * ic <= (vy - b) * ic) by (apply Qmult_le_compat_r; lra).
  assert (M3 : h * ic <= h * (1 # 2)) by (rewrite !(Qmult_comm h); apply Qmult_le_compat_r; lra).
  rewrite E2. split; lra.
Qed.

Lemma round_trip_chain (a q vz u h : Q) :
  0 <= a -> 0 <= u -> u <= 1 # 2 -> 0 <= h ->
  Qabs (q - a) <= a * u + h * (1 # 2) ->
  Qabs (vz - q) <= q * u + h ->
  Qabs (vz - a) <= a * (4 * u) + 2 * h.
Proof.
  intros Ha Hu Hu2 Hh H1 H2.
  apply Qabs_Qle_condition in H1 as [H1a H1b].
  apply Qabs_Qle_condition in H2 as [H2a H2b].
  apply Qabs_Qle_condition.
  assert (P1 : q * u <= (a + a * u + h * (1 # 2)) * u)
    by (apply Qmult_le_compat_r; lra).
  assert (P0 : 0 <= a * u) by (apply Qmult_le_0_compat; lra).
  assert (P2 : a * u * u <= a * u * (1 # 2))
    by (rewrite !(Qmult_comm (a * u)); apply Qmult_le_compat_r; lra).
  assert (P3 : h * u <= h * (1 # 2))
    by (rewrite !(Qmult_comm h); apply Qmult_le_compat_r; lra).
  split; lra.
Qed.

Lemma three_way_chain (a q vz vw u h : Q) :
  0 <= a -> 0 <= u -> u <= 1 # 2 -> 0 <= h ->
  Qabs (q - a) <= a * u + h * (1 # 2) ->
  Qabs (vz - q) <= q * u + h ->
  Qabs (vw - a) <= a * u + h ->
  Qabs (vz - vw) <= a * (4 * u) + 4 * h.
Proof.
  intros Ha Hu Hu2 Hh H1 H2 H3.
  apply Qabs_Qle_condition in H1 as [H1a H1b].
  apply Qabs_Qle_condition in H2 as [H2a H2b].
  apply Qabs_Qle_condition in H3 as [H3a H3b].
  apply Qabs_Qle_condition.
  assert (P1 : q * u <= (a + a * u + h * (1 # 2)) * u)
    by (apply Qmult_le_compat_r; lra).
  assert (P0 : 0 <= a * u) by (apply Qmult_le_0_compat; lra).
  assert (P2 : a * u * u <= a * u * (1 # 2))
    by (rewrite !(Qmult_comm (a * u)); apply Qmult_le_compat_r; lra).
  assert (P3 : h * u <= h * (1 # 2))
    by (rewrite !(Qmult_comm h); apply Qmult_le_compat_r; lra).
  split; lra.
Qed.

Local Close Scope Q_scope.

Lemma value_nonneg (x : number) : positive_number x = true -> (0 <= value x)%Q.
Proof.
  intros P. destruct (positive_number_cases x P) as [-> | (m & e & ->)];
    cbn [value cond_Zopp]; [lra | ].
  apply Qmult_le_0_compat; [apply inject_Z_nonneg; lia | ].
  apply Qlt_le_weak, pow2_gt0.
Qed.

Lemma rounded_positive (M E : Z) :
  0 <= M -> isFinite (rounded false M E) = true ->
  positive_number (rounded false M E) = true.
Proof.
  unfold rounded. intros HM. destruct M as [ | m | m]; try lia; [reflexivity | ].
  destruct (_ <? _); destruct (_ <=? _); try discriminate; reflexivity.
Qed.

Lemma mul_positive (x c : number) :
  wf x -> wf c -> positive_number x = true -> positive_number c = true ->
  isFinite (mul x c) = true -> positive_number (mul x c) = true.
Proof.
  intros Wx Wc Px Pc F.
  destruct (positive_number_cases x Px) as [-> | (mx & ex & ->)];
    destruct (positive_number_cases c Pc) as [-> | (mc & ec & ->)];
    try reflexivity.
  destruct (mul_rounded false false mx mc ex ec Wx Wc) as (Hm & HM & _).
  cbn [xorb] in Hm. rewrite Hm in *. apply rounded_positive; [lia | assumption].
Qed.

(** Multiplying a non-negative double by a positive one. *)
Theorem mul_positive_error (x c : number) :
  wf x -> wf c -> positive_number x = true -> positive_number c = true ->
  isFinite (mul x c) = true ->
  (Qabs (value (mul x c) - value x * value c)
   <= value x * value c * pow2 (- prec) + pow2 (emin - 1))%Q.
Proof.
  intros Wx Wc Px Pc F.
  pose proof (pow2_gt0 (emin - 1)) as Hh.
  destruct (positive_number_cases x Px) as [-> | (mx & ex & ->)];
    destruct (positive_number_cases c Pc) as [-> | (mc & ec & ->)];
    try (cbn [mul SFmul value xorb]; apply Qabs_le_of_bounds; split; lra).
  apply mul_error; assumption.
Qed.

(** Dividing a non-negative double by a positive normal double whose
    exponent is not tiny: the quotient is finite, non-negative, and off the
    exact quotient by at most half a unit in the last place. *)
Theorem div_positive_error (y : number) (mc : positive) (ec : Z) :
  let c := S754_finite false mc ec in
  wf y -> positive_number y = true ->
  Zdigits2 (Z.pos mc) = prec -> (-51 <= ec)%Z ->
  isFinite (div y c) = true /\
  (Qabs (value (div y c) - value y / value c)
   <= value y / value c * pow2 (- prec) + pow2 (emin - 1))%Q.
Proof.
  intros c Wy Py Hd Hec.
  pose proof (pow2_gt0 (emin - 1)) as Hh.
  destruct (positive_number_cases y Py) as [-> | (my & ey & ->)].
  - subst c. split; [reflexivity | ].
    change (div (S754_zero false) (S754_finite false mc ec)) with (S754_zero false).
    cbn [value]. apply Qabs_le_of_bounds. unfold Qdiv. split; lra.
  - assert (F : isFinite (div (S754_finite false my ey) c) = true).
    { apply div_finite; [assumption | assumption | ].
      apply wf_finite_bounds in Wy as (_ & Hb & _).
      rewrite emax_val, prec_val in *. lia. }
    split; [exact F | ]. apply div_error. exact F.
Qed.

(** ** The order of doubles and the order of their values *)

Lemma mantissa_bounds (s : bool) (m : positive) (e : Z) :
  wf (S754_finite s m e) ->
  Z.pos m < 2 ^ prec /\ (emin < e -> 2 ^ (prec - 1) <= Z.pos m).
Proof.
  intros H. apply wf_finite_bounds in H as (H1 & H2 & H3).
  pose proof (digits2_bounds m) as [B1 B2]. split.
  - assert (2 ^ Z.pos (digits2_pos m) <= 2 ^ prec) by (apply Z.pow_le_mono_r; lia). lia.
  - intros He. assert (Hd : Z.pos (digits2_pos m) = prec) by lia.
    rewrite Hd in B1. exact B1.
Qed.

(** With canonical mantissas, comparing exponents first and mantissas next
    is comparing the aligned integers. *)
Lemma compare_aligned (m1 m2 : positive) (e1 e2 : Z) :
  wf (S754_finite false m1 e1) -> wf (S754_finite false m2 e2) ->
  let ez := Z.min e1 e2 in
  match e1 ?= e2 with
  | Lt => Lt
  | Gt => Gt
  | Eq => (m1 ?= m2)%positive
  end = (Z.pos m1 * 2 ^ (e1 - ez) ?= Z.pos m2 * 2 ^ (e2 - ez)).
Proof.
  intros W1 W2 ez.
  pose proof (mantissa_bounds _ _ _ W1) as [U1 L1].
  pose proof (mantissa_bounds _ _ _ W2) as [U2 L2].
  apply wf_finite_bounds in W1 as (_ & (Hm1 & _) & _).
  apply wf_finite_bounds in W2 as (_ & (Hm2 & _) & _).
  assert (Hp : 2 ^ prec = 2 * 2 ^ (prec - 1)).
  { rewrite (pow2_split prec 1) by (rewrite prec_val; lia). rewrite Z.pow_1_r; lia. }
  destruct (Z.compare_spec e1 e2) as [E | E | E].
  - subst e2. replace (e1 - ez) with 0 by (unfold ez; lia).
    rewrite Z.pow_0_r, !Z.mul_1_r. reflexivity.
  - replace (e1 - ez) with 0 by (unfold ez; lia).
    replace (e2 - ez) with (e2 - e1) by (unfold ez; lia).
    rewrite Z.pow_0_r, Z.mul_1_r. symmetry. apply Z.compare_lt_iff.
    specialize (L2 ltac:(lia)).
    assert (2 ^ 1 <= 2 ^ (e2 - e1)) by (apply Z.pow_le_mono_r; lia).
    rewrite Z.pow_1_r in *. nia.
  - replace (e2 - ez) with 0 by (unfold ez; lia).
    replace (e1 - ez) with (e1 - e2) by (unfold ez; lia).
    rewrite Z.pow_0_r, Z.mul_1_r. symmetry. apply Z.compare_gt_iff.
    specialize (L1 ltac:(lia)).
    assert (2 ^ 1 <= 2 ^ (e1 - e2)) by (apply Z.pow_le_mono_r; lia).
    rewrite Z.pow_1_r in *. nia.
Qed.

Lemma Qcompare_scaled (a b : Z) (t : Q) :
  (0 < t)%Q -> (inject_Z a * t ?= inject_Z b * t)%Q = (a ?= b).
Proof.
  intros Ht.
  destruct (Z.compare_spec a b) as [E | E | E].
  - subst. apply Qeq_alt. reflexivity.
  - apply Qlt_alt. apply Qmult_lt_r; [assumption | ]. rewrite <- Zlt_Qlt. assumption.
  - apply Qgt_alt. apply Qmult_lt_r; [assumption | ]. rewrite <- Zlt_Qlt. assumption.
Qed.

(** Comparing two non-negative well-formed doubles is comparing their
    values. *)
Theorem compare_value (x y : number) :
  wf x -> wf y -> positive_number x = true -> positive_number y = true ->
  SFcompare x y = Some (value x ?= value y)%Q.
Proof.
  intros Wx Wy Px Py.
  destruct (positive_number_cases x Px) as [-> | (m1 & e1 & ->)];
    destruct (positive_number_cases y Py) as [-> | (m2 & e2 & ->)].
  - reflexivity.
  - cbn [SFcompare value cond_Zopp]. f_equal. symmetry. apply Qlt_alt.
    apply Qmult_lt_0_compat; [apply inject_Z_pos; lia | apply pow2_gt0].
  - cbn [SFcompare value cond_Zopp]. f_equal. symmetry. apply Qgt_alt.
    apply Qmult_lt_0_compat; [apply inject_Z_pos; lia | apply pow2_gt0].
  - change (SFcompare (S754_finite false m1 e1) (S754_finite false m2 e2))
      with (Some match e1 ?= e2 with
                 | Lt => Lt
                 | Gt => Gt
                 | Eq => (m1 ?= m2)%positive
                 end).
    rewrite (compare_aligned m1 m2 e1 e2 Wx Wy). cbv zeta. f_equal.
    set (ez := Z.min e1 e2).
    pose proof (value_aligned m1 e1 ez ltac:(unfold ez; lia)) as V1.
    pose proof (value_aligned m2 e2 ez ltac:(unfold ez; lia)) as V2.
    rewrite <- (Qcompare_scaled _ _ (pow2 ez) (pow2_gt0 ez)).
    rewrite V1, V2. reflexivity.
Qed.

(** Two non-negative well-formed doubles with the same value are the same
    double. *)
Lemma value_inj (x y : number) :
  wf x -> wf y -> positive_number x = true -> positive_number y = true ->
  (value x == value y)%Q -> x = y.
Proof.
  intros Wx Wy Px Py H.
  pose proof (compare_value x y Wx Wy Px Py) as C.
  rewrite (proj1 (Qeq_alt _ _) H) in C.
  destruct (positive_number_cases x Px) as [-> | (m1 & e1 & ->)];
    destruct (positive_number_cases y Py) as [-> | (m2 & e2 & ->)];
    try discriminate; [reflexivity | ].
  cbn [SFcompare] in C.
  destruct (Z.compare_spec e1 e2) as [E | E | E]; try discriminate.
  change (Pos.compare_cont Eq m1 m2) with (m1 ?= m2)%positive in C.
  destruct (Pos.compare_spec m1 m2) as [M | M | M]; try discriminate.
  subst. reflexivity.
Qed.

(** ** Exact results *)

Lemma exact_relation (N D e0 n : Z) :
  0 < D ->
  (inject_Z N / inject_Z D * pow2 e0 == inject_Z n)%Q ->
  N * 2 ^ Z.max e0 0 = n * D * 2 ^ Z.max (- e0) 0.
Proof.
  intros HD H.
  pose proof (inject_Z_pos D HD) as Hd.
  pose proof (pow2_gt0 (Z.max (- e0) 0)) as Hn.
  assert (Hs : (pow2 (Z.max e0 0) == pow2 e0 * pow2 (Z.max (- e0) 0))%Q).
  { rewrite <- pow2_add. replace (e0 + Z.max (- e0) 0) with (Z.max e0 0) by lia.
    reflexivity. }
  apply inject_Z_injective.
  rewrite !inject_Z_mult, <- !pow2_inject by lia.
  rewrite Hs, <- H. field. lra.
Qed.

(** When the exact value is an integer below [2^prec], rounding returns
    it. *)
Theorem round_exact (N D e0 n : Z) :
  0 < D -> 0 <= N -> 0 <= n < 2 ^ prec ->
  (inject_Z N / inject_Z D * pow2 e0 == inject_Z n)%Q ->
  let E := fexp (Zdigits2 (N / D) + e0) in
  e0 <= E ->
  let M := rne N (D * 2 ^ (E - e0)) in
  0 <= M /\ E <= 0 /\ (inject_Z M * pow2 E == inject_Z n)%Q.
Proof.
  intros HD HN Hn HV E HE M.
  pose proof (exact_relation N D e0 n HD HV) as R.
  pose proof (pow2_pos (E - e0) ltac:(lia)) as Hp.
  assert (HD' : 0 < D * 2 ^ (E - e0)) by nia.
  pose proof (Z.div_pos N D HN HD) as Hq0.
  pose proof (Z.mul_div_le N D HD) as Hfl.
  assert (HE0 : E <= 0).
  { unfold E in HE |- *. rewrite fexp_spec, emin_val in HE |- *.
    destruct (Z.eq_dec (N / D) 0) as [Z | Hnz].
    - rewrite Z in HE |- *. cbn [Zdigits2] in HE |- *. rewrite prec_val in *. lia.
    - pose proof (Zdigits2_bounds (N / D) ltac:(lia)) as [Bq _].
      pose proof (Zdigits2_pos (N / D) ltac:(lia)) as Pq.
      set (dq := Zdigits2 (N / D)) in *.
      assert (dq + e0 <= prec); [ | lia].
      destruct (Z_le_gt_dec 0 e0) as [He | He].
      + rewrite Z.max_l in R by lia. rewrite Z.max_r, Z.pow_0_r, Z.mul_1_r in R by lia.
        pose proof (pow2_pos e0 He) as Pe.
        assert (2 ^ (dq - 1) * 2 ^ e0 <= n).
        { assert (N / D * 2 ^ e0 * D <= n * D) by nia.
          assert (N / D * 2 ^ e0 <= n) by nia. nia. }
        rewrite <- Z.pow_add_r in H by lia.
        assert (dq - 1 + e0 < prec) by (apply pow2_lt_inv; [rewrite prec_val; lia | lia]).
        lia.
      + rewrite Z.max_r, Z.pow_0_r, Z.mul_1_r in R by lia.
        rewrite Z.max_l in R by lia.
        pose proof (pow2_pos (- e0) ltac:(lia)) as Pe.
        assert (N / D <= n * 2 ^ (- e0)) by nia.
        assert (n * 2 ^ (- e0) < 2 ^ prec * 2 ^ (- e0)) by nia.
        rewrite <- Z.pow_add_r in H0 by (rewrite ?prec_val; lia).
        assert (dq - 1 < prec + - e0)
          by (apply pow2_lt_inv; [rewrite prec_val; lia | lia]).
        lia. }
  assert (Hexact : N = n * 2 ^ (- E) * (D * 2 ^ (E - e0))).
  { destruct (Z_le_gt_dec 0 e0) as [He | He].
    - assert (E = 0) by lia. assert (e0 = 0) by lia.
      rewrite H, H0 in *. cbn in R |- *. lia.
    - rewrite Z.max_r, Z.pow_0_r, Z.mul_1_r in R by lia.
      rewrite Z.max_l in R by lia. rewrite R.
      replace (- e0) with (- E + (E - e0)) at 1 by lia.
      rewrite Z.pow_add_r by lia. ring. }
  pose proof (pow2_pos (- E) ltac:(lia)) as PE.
  assert (HM : M = n * 2 ^ (- E)).
  { unfold M. rewrite rne_exact; [ | assumption | ].
    - rewrite Hexact at 1. apply Z.div_mul. lia.
    - rewrite Hexact at 1. apply Z.mod_mul. lia. }
  split; [nia | split; [exact HE0 | ]].
  rewrite HM, inject_Z_mult.
  rewrite <- (pow2_inject (- E)) by lia.
  rewrite <- Qmult_assoc, <- pow2_add. replace (- E + E) with 0 by lia.
  change (pow2 0) with 1%Q. ring.
Qed.

Lemma rounded_exact_facts (M E : Z) :
  0 <= M <= 2 ^ prec -> E <= 0 ->
  isFinite (rounded false M E) = true /\
  positive_number (rounded false M E) = true /\
  (value (rounded false M E) == inject_Z M * pow2 E)%Q.
Proof.
  intros HM HE.
  assert (F : isFinite (rounded false M E) = true).
  { apply rounded_finite; [lia | right]. rewrite emax_val, prec_val. lia. }
  split; [exact F | split].
  - apply rounded_positive; [lia | exact F].
  - rewrite (value_rounded false M E HM F). reflexivity.
Qed.

(** The double of an integer below [2^prec] is that integer. *)
Lemma of_Z_exact (n : Z) :
  0 <= n < 2 ^ prec ->
  positive_number (of_Z n) = true /\ (value (of_Z n) == inject_Z n)%Q.
Proof.
  intros Hn. unfold of_Z. destruct n as [ | p | p]; [split; reflexivity | | lia].
  cbn [binary_normalize].
  destruct (binary_round_rounded false p 0) as (-> & HM & _).
  set (E := fexp (Z.pos (digits2_pos p) + 0)) in *.
  set (z := Z.min 0 E) in *.
  assert (Hz : 0 <= 0 - z) by (unfold z; lia).
  pose proof (pow2_pos _ Hz) as Hp.
  pose proof (round_exact (Z.pos p * 2 ^ (0 - z)) 1 z (Z.pos p)
                ltac:(lia) ltac:(nia) Hn) as R.
  cbv zeta in R. rewrite Z.div_1_r, Z.mul_1_l in R.
  rewrite Zdigits2_mul_pow2 in R by lia. cbn [Zdigits2] in R.
  replace (Z.pos (digits2_pos p) + (0 - z) + z) with (Z.pos (digits2_pos p) + 0) in R by lia.
  fold E in R.
  assert (HV : (inject_Z (Z.pos p * 2 ^ (0 - z)) / inject_Z 1 * pow2 z
                == inject_Z (Z.pos p))%Q).
  { rewrite inject_Z_mult, <- pow2_inject by lia. change (inject_Z 1) with 1%Q.
    assert (Hs : (pow2 (0 - z) * pow2 z == 1)%Q).
    { rewrite <- pow2_add. replace (0 - z + z) with 0 by lia. reflexivity. }
    transitivity (inject_Z (Z.pos p) * (pow2 (0 - z) * pow2 z))%Q; [field | ].
    rewrite Hs. ring. }
  destruct (R HV ltac:(unfold z; lia)) as (M0 & E0 & V).
  destruct (rounded_exact_facts _ E HM E0) as (_ & P & Vr).
  split; [exact P | ]. rewrite Vr. exact V.
Qed.

Lemma exact_is_of_Z (x : number) (n : Z) :
  wf x -> positive_number x = true -> 0 <= n < 2 ^ prec ->
  (value x == inject_Z n)%Q -> x = of_Z n.
Proof.
  intros Wx Px Hn V. destruct (of_Z_exact n Hn) as [Pn Vn].
  apply value_inj; try assumption; [apply of_Z_wf | ].
  rewrite V, Vn. reflexivity.
Qed.

Lemma binary_round_exact (p : positive) (e n : Z) :
  0 <= n < 2 ^ prec -> (inject_Z (Z.pos p) * pow2 e == inject_Z n)%Q ->
  binary_round prec emax false p e = of_Z n.
Proof.
  intros Hn V.
  pose proof (binary_normalize_wf (Z.pos p) e false) as W. cbn [binary_normalize] in W.
  destruct (binary_round_rounded false p e) as (Hr & HM & _).
  rewrite Hr in W |- *.
  set (E := fexp (Z.pos (digits2_pos p) + e)) in *.
  set (z := Z.min e E) in *.
  assert (Hz : 0 <= e - z) by (unfold z; lia).
  pose proof (pow2_pos _ Hz) as Hp.
  pose proof (round_exact (Z.pos p * 2 ^ (e - z)) 1 z n ltac:(lia) ltac:(nia) Hn) as R.
  cbv zeta in R. rewrite Z.div_1_r, Z.mul_1_l in R.
  rewrite Zdigits2_mul_pow2 in R by lia. cbn [Zdigits2] in R.
  replace (Z.pos (digits2_pos p) + (e - z) + z) with (Z.pos (digits2_pos p) + e) in R by lia.
  fold E in R.
  assert (HV : (inject_Z (Z.pos p * 2 ^ (e - z)) / inject_Z 1 * pow2 z
                == inject_Z n)%Q).
  { rewrite inject_Z_mult, <- pow2_inject by lia. change (inject_Z 1) with 1%Q.
    assert (Hs : (pow2 (e - z) * pow2 z == pow2 e)%Q).
    { rewrite <- pow2_add. replace (e - z + z) with e by lia. reflexivity. }
    transitivity (inject_Z (Z.pos p) * (pow2 (e - z) * pow2 z))%Q; [field | ].
    rewrite Hs. exact V. }
  destruct (R HV ltac:(unfold z; lia)) as (M0 & E0 & Vm).
  destruct (rounded_exact_facts _ E HM E0) as (_ & P & Vr).
  apply exact_is_of_Z; try assumption. rewrite Vr. exact Vm.
Qed.

(** Sums, differences, products and quotients of non-negative doubles whose
    exact value is an integer below [2^prec] are computed exactly. *)
Theorem add_exact (x y : number) (n : Z) :
  wf x -> wf y -> positive_number x = true -> positive_number y = true ->
  0 <= n < 2 ^ prec -> (value x + value y == inject_Z n)%Q ->
  add x y = of_Z n.
Proof.
  intros Wx Wy Px Py Hn V.
  destruct (positive_number_cases x Px) as [-> | (mx & ex & ->)];
    destruct (positive_number_cases y Py) as [-> | (my & ey & ->)].
  - apply exact_is_of_Z; try assumption;
      unfold add; cbn [SFadd]; rewrite <- V; cbn [value]; ring.
  - apply exact_is_of_Z; try assumption;
      unfold add; cbn [SFadd]; rewrite <- V; cbn [value]; ring.
  - apply exact_is_of_Z; try assumption;
      unfold add; cbn [SFadd]; rewrite <- V; cbn [value]; ring.
  - unfold add. cbn [SFadd cond_Zopp].
    set (ez := Z.min ex ey) in *.
    pose proof (shl_align_spec mx ex ez) as [_ HA].
    pose proof (shl_align_spec my ey ez) as [_ HB].
    replace (Z.min ex ez) with ez in HA by (unfold ez; lia).
    replace (Z.min ey ez) with ez in HB by (unfold ez; lia).
    pose proof (value_aligned mx ex ez ltac:(unfold ez; lia)) as Vx.
    pose proof (value_aligned my ey ez ltac:(unfold ez; lia)) as Vy.
    rewrite <- HA in Vx. rewrite <- HB in Vy.
    pose proof (Pos2Z.is_pos (fst (shl_align mx ex ez))) as PA.
    pose proof (Pos2Z.is_pos (fst (shl_align my ey ez))) as PB.
    set (A := Z.pos (fst (shl_align mx ex ez))) in *.
    set (B := Z.pos (fst (shl_align my ey ez))) in *.
    assert (Vs : (inject_Z (A + B) * pow2 ez == inject_Z n)%Q).
    { rewrite inject_Z_plus, <- V, Vx, Vy. ring. }
    destruct (A + B) as [ | p | p] eqn:Hp; [lia | | lia].
    cbn [binary_normalize]. apply binary_round_exact; assumption.
Qed.

Lemma rounded_is_of_Z (M E n : Z) :
  wf (rounded false M E) -> 0 <= M <= 2 ^ prec -> E <= 0 ->
  0 <= n < 2 ^ prec -> (inject_Z M * pow2 E == inject_Z n)%Q ->
  rounded false M E = of_Z n.
Proof.
  intros W HM HE Hn V.
  destruct (rounded_exact_facts M E HM HE) as (_ & P & Vr).
  apply exact_is_of_Z; try assumption. rewrite Vr. exact V.
Qed.

Theorem mul_exact (x k : number) (n : Z) :
  wf x -> wf k -> positive_number x = true -> positive_number k = true ->
  0 <= n < 2 ^ prec -> (value x * value k == inject_Z n)%Q ->
  mul x k = of_Z n.
Proof.
  intros Wx Wk Px Pk Hn V.
  destruct (positive_number_cases x Px) as [-> | (mx & ex & ->)];
    destruct (positive_number_cases k Pk) as [-> | (mk & ek & ->)];
    try (apply exact_is_of_Z; try assumption; try reflexivity;
         unfold mul; cbn [SFmul xorb]; rewrite <- V; cbn [value]; ring).
  pose proof (mul_wf _ _ Wx Wk) as W.
  destruct (mul_rounded false false mx mk ex ek Wx Wk) as (Hm & HM & _).
  cbn [xorb] in Hm. rewrite Hm in W |- *.
  pose proof (round_exact (Z.pos (mx * mk)) 1 (ex + ek) n ltac:(lia) ltac:(lia) Hn) as R.
  cbv zeta in R. rewrite Z.div_1_r, Z.mul_1_l in R.
  assert (HV : (inject_Z (Z.pos (mx * mk)) / inject_Z 1 * pow2 (ex + ek)
                == inject_Z n)%Q).
  { rewrite <- V. cbn [value cond_Zopp].
    rewrite Pos2Z.inj_mul, inject_Z_mult, pow2_add.
    change (inject_Z 1) with 1%Q. field. }
  destruct (R HV (mul_exponent_ok false false mx mk ex ek Wx Wk)) as (_ & E0 & Vm).
  apply rounded_is_of_Z; assumption.
Qed.

Theorem div_exact (x : number) (mk : positive) (ek n : Z) :
  wf x -> positive_number x = true ->
  0 <= n < 2 ^ prec ->
  (value x / value (S754_finite false mk ek) == inject_Z n)%Q ->
  div x (S754_finite false mk ek) = of_Z n.
Proof.
  intros Wx Px Hn V.
  destruct (positive_number_cases x Px) as [-> | (mx & ex & ->)].
  - apply exact_is_of_Z; try assumption; try reflexivity.
    rewrite <- V. change (div (S754_zero false) (S754_finite false mk ek))
      with (S754_zero false). cbn [value]. unfold Qdiv. ring.
  - assert (W : wf (div (S754_finite false mx ex) (S754_finite false mk ek))).
    { destruct (div_rounded false false mx mk ex ek) as (Hr & HMr & Hcr & _).
      rewrite Hr. apply rounded_wf; auto using fexp_ge_emin. }
    destruct (div_rounded false false mx mk ex ek) as (Hm & HM & _ & He').
    cbv zeta in Hm, HM, He'. cbn [xorb] in Hm. rewrite Hm in W |- *.
    set (e' := Z.min (fexp (Zdigits2 (Z.pos mx) + ex - (Zdigits2 (Z.pos mk) + ek)))
                     (ex - ek)) in *.
    set (m' := Z.pos mx * 2 ^ (ex - ek - e')) in *.
    assert (Hs : 0 <= ex - ek - e') by (unfold e'; lia).
    pose proof (pow2_pos _ Hs) as Hp.
    pose proof (round_exact m' (Z.pos mk) e' n ltac:(lia) ltac:(unfold m'; nia) Hn) as R.
    cbv zeta in R.
    assert (HV : (inject_Z m' / inject_Z (Z.pos mk) * pow2 e' == inject_Z n)%Q).
    { rewrite <- V. unfold m'. cbn [value cond_Zopp].
      rewrite inject_Z_mult, <- pow2_inject by assumption.
      assert (Hsplit : (pow2 ex == pow2 (ex - ek - e') * pow2 e' * pow2 ek)%Q).
      { rewrite <- !pow2_add. replace (ex - ek - e' + e' + ek) with ex by lia.
        reflexivity. }
      rewrite Hsplit.
      pose proof (pow2_gt0 ek). pose proof (inject_Z_pos (Z.pos mk) ltac:(lia)).
      field. split; lra. }
    destruct (R HV He') as (_ & E0 & Vm).
    apply rounded_is_of_Z; assumption.
Qed.

Lemma rounded_true_clamped (M E : Z) :
  isFinite (rounded true M E) = true ->
  toPositive (rounded true M E) = Return (of_Z 0).
Proof.
  unfold rounded. destruct M as [ | m | m]; try discriminate; [reflexivity | ].
  destruct (_ <? _); destruct (_ <=? _); try discriminate; reflexivity.
Qed.

(** Subtraction: zero or below when the minuend does not exceed the
    subtrahend, and a positive double otherwise. *)
Theorem sub_sign (x y : number) :
  wf x -> wf y -> positive_number x = true -> positive_number y = true ->
  (Num.le x y = true -> toPositive (sub x y) = Return (of_Z 0)) /\
  (Num.le x y = false ->
   exists m e, sub x y = S754_finite false m e).
Proof.
  intros Wx Wy Px Py.
  pose proof (sub_finite x y Wx Wy Px Py) as F.
  destruct (positive_number_cases x Px) as [-> | (mx & ex & ->)];
    destruct (positive_number_cases y Py) as [-> | (my & ey & ->)].
  - split; [reflexivity | discriminate].
  - split; [reflexivity | discriminate].
  - split; [discriminate | ]. intros _. cbn. eauto.
  - unfold Num.le, SFleb.
    change (SFcompare (S754_finite false mx ex) (S754_finite false my ey))
      with (Some match ex ?= ey with
                 | Lt => Lt
                 | Gt => Gt
                 | Eq => (mx ?= my)%positive
                 end).
    rewrite (compare_aligned mx my ex ey Wx Wy).
    cbv zeta. revert F. unfold sub. cbn [SFsub cond_Zopp].
    set (ez := Z.min ex ey).
    pose proof (shl_align_spec mx ex ez) as [_ HA].
    pose proof (shl_align_spec my ey ez) as [_ HB].
    replace (Z.min ex ez) with ez in HA by (unfold ez; lia).
    replace (Z.min ey ez) with ez in HB by (unfold ez; lia).
    rewrite HA, HB.
    set (A := Z.pos mx * 2 ^ (ex - ez)). set (B := Z.pos my * 2 ^ (ey - ez)).
    intros F.
    apply wf_finite_bounds in Wx as (_ & (Hex & _) & _).
    apply wf_finite_bounds in Wy as (_ & (Hey & _) & _).
    destruct (Z.compare_spec A B) as [C | C | C].
    + replace (A - B) with 0 by lia. split; [reflexivity | discriminate].
    + destruct (A - B) as [ | p | p] eqn:Hd; try lia.
      split; [intros _ | discriminate]. cbn [binary_normalize] in F |- *.
      destruct (binary_round_rounded true p ez) as (Hr & _). rewrite Hr in F |- *.
      apply rounded_true_clamped. exact F.
    + destruct (A - B) as [ | p | p] eqn:Hd; try lia.
      split; [discriminate | intros _]. cbn [binary_normalize] in F |- *.
      pose proof (binary_round_nonzero false false p ez ltac:(unfold ez; lia)) as N0.
      destruct (binary_round_rounded false p ez) as (Hr & HM & _).
      rewrite Hr in F, N0 |- *.
      pose proof (rounded_positive _ _ (proj1 HM) F) as P.
      destruct (positive_number_cases _ P) as [Z | (m & e & Hf)]; [congruence | eauto].
Qed.

Theorem sub_exact (x y : number) (n : Z) :
  wf x -> wf y -> positive_number x = true -> positive_number y = true ->
  0 <= n < 2 ^ prec -> (value x - value y == inject_Z n)%Q ->
  sub x y = of_Z n.
Proof.
  intros Wx Wy Px Py Hn V.
  destruct (positive_number_cases x Px) as [-> | (mx & ex & ->)];
    destruct (positive_number_cases y Py) as [-> | (my & ey & ->)].
  - apply exact_is_of_Z; try assumption;
      unfold sub; cbn [SFsub]; rewrite <- V; cbn [value]; ring.
  - exfalso. pose proof (value_nonneg _ Py) as Vy.
    assert (0 < value (S754_finite false my ey))%Q.
    { cbn [value cond_Zopp]. apply Qmult_lt_0_compat;
        [apply inject_Z_pos; lia | apply pow2_gt0]. }
    pose proof (inject_Z_nonneg n ltac:(lia)). cbn [value cond_Zopp] in *. lra.
  - apply exact_is_of_Z; try assumption;
      unfold sub; cbn [SFsub]; rewrite <- V; cbn [value]; ring.
  - unfold sub. cbn [SFsub cond_Zopp].
    set (ez := Z.min ex ey) in *.
    pose proof (shl_align_spec mx ex ez) as [_ HA].
    pose proof (shl_align_spec my ey ez) as [_ HB].
    replace (Z.min ex ez) with ez in HA by (unfold ez; lia).
    replace (Z.min ey ez) with ez in HB by (unfold ez; lia).
    pose proof (value_aligned mx ex ez ltac:(unfold ez; lia)) as Vx.
    pose proof (value_aligned my ey ez ltac:(unfold ez; lia)) as Vy.
    rewrite <- HA in Vx. rewrite <- HB in Vy.
    set (A := Z.pos (fst (shl_align mx ex ez))) in *.
    set (B := Z.pos (fst (shl_align my ey ez))) in *.
    assert (Vs : (inject_Z (A - B) * pow2 ez == inject_Z n)%Q).
    { unfold Z.sub. rewrite inject_Z_plus, inject_Z_opp, <- V, Vx, Vy. ring. }
    pose proof (pow2_gt0 ez) as Pz. pose proof (inject_Z_nonneg n ltac:(lia)) as Pn.
    destruct (A - B) as [ | p | p] eqn:Hp.
    + assert (n = 0).
      { apply inject_Z_injective. rewrite <- Vs. change (inject_Z 0) with 0%Q. ring. }
      subst n. reflexivity.
    + cbn [binary_normalize]. apply binary_round_exact; assumption.
    + exfalso.
      assert (inject_Z (Z.neg p) * pow2 ez < 0)%Q.
      { setoid_replace (inject_Z (Z.neg p)) with (- inject_Z (Z.pos p))%Q
          by (rewrite <- inject_Z_opp; reflexivity).
        pose proof (inject_Z_pos (Z.pos p) ltac:(lia)).
        assert (0 < inject_Z (Z.pos p) * pow2 ez)%Q by (apply Qmult_lt_0_compat; assumption).
        lra. }
      lra.
Qed.

(** ** Rounding is monotone against representable bounds *)

Lemma pow2_le (a b : Z) : a <= b -> (pow2 a <= pow2 b)%Q.
Proof.
  intros H. unfold pow2. apply Qpower_le_compat_l; [assumption | discriminate].
Qed.

Lemma pow2_lt_inv_Q (a b : Z) : (pow2 a < pow2 b)%Q -> a < b.
Proof. unfold pow2. intros H. apply (Qpower_lt_compat_l_inv 2); [assumption | reflexivity]. Qed.

(** The magnitude of a positive quotient, from the digits of its integer
    part. *)
Lemma quotient_magnitude (N D e0 : Z) :
  0 < D -> 0 < N / D ->
  let V := (inject_Z N / inject_Z D * pow2 e0)%Q in
  (pow2 (Zdigits2 (N / D) - 1 + e0) <= V /\ V < pow2 (Zdigits2 (N / D) + e0))%Q.
Proof.
  intros HD Hq V.
  assert (HN : 0 <= N).
  { destruct (Z_lt_le_dec N 0) as [Hneg | ]; [ | assumption].
    pose proof (Z.div_lt_upper_bound N D 0 HD ltac:(lia)). lia. }
  pose proof (Zdigits2_bounds (N / D) Hq) as [B1 B2].
  pose proof (Zdigits2_pos (N / D) Hq) as Pq.
  pose proof (inject_Z_pos D HD) as Hd. pose proof (pow2_gt0 e0) as Ht.
  rewrite !pow2_add.
  assert (L : (pow2 (Zdigits2 (N / D) - 1) <= inject_Z N / inject_Z D)%Q).
  { rewrite pow2_inject by lia. apply Qle_trans with (inject_Z (N / D)).
    - rewrite <- Zle_Qle. assumption.
    - apply Qdiv_floor; assumption. }
  assert (U : (inject_Z N / inject_Z D < pow2 (Zdigits2 (N / D)))%Q).
  { rewrite pow2_inject by lia. apply Qlt_shift_div_r; [assumption | ].
    rewrite <- inject_Z_mult, <- Zlt_Qlt.
    pose proof (Z.mod_pos_bound N D HD). pose proof (Z.div_mod N D ltac:(lia)). nia. }
  unfold V. split.
  - apply Qmult_le_compat_r; lra.
  - apply Qmult_lt_compat_r; assumption.
Qed.

Lemma representable_magnitude (mr : positive) (er : Z) :
  let R := (inject_Z (Z.pos mr) * pow2 er)%Q in
  (pow2 (Z.pos (digits2_pos mr) - 1 + er) <= R /\
   R < pow2 (Z.pos (digits2_pos mr) + er))%Q.
Proof.
  intros R. pose proof (digits2_bounds mr) as [B1 B2].
  pose proof (pow2_gt0 er) as Ht. rewrite !pow2_add.
  assert (L : (pow2 (Z.pos (digits2_pos mr) - 1) <= inject_Z (Z.pos mr))%Q).
  { rewrite pow2_inject by lia. rewrite <- Zle_Qle. assumption. }
  assert (U : (inject_Z (Z.pos mr) < pow2 (Z.pos (digits2_pos mr)))%Q).
  { rewrite pow2_inject by lia. rewrite <- Zlt_Qlt. assumption. }
  unfold R. split.
  - apply Qmult_le_compat_r; lra.
  - apply Qmult_lt_compat_r; assumption.
Qed.

Lemma scaled_to_Z (N D e0 E k : Z) :
  0 < D -> e0 <= E ->
  ((inject_Z N / inject_Z D * pow2 e0 <= inject_Z k * pow2 E)%Q
   <-> N <= k * (D * 2 ^ (E - e0))) /\
  ((inject_Z k * pow2 E <= inject_Z N / inject_Z D * pow2 e0)%Q
   <-> k * (D * 2 ^ (E - e0)) <= N).
Proof.
  intros HD HE.
  pose proof (inject_Z_pos D HD) as Hd. pose proof (pow2_gt0 e0) as Ht.
  assert (HEq : (pow2 E == pow2 (E - e0) * pow2 e0)%Q).
  { rewrite <- pow2_add. replace (E - e0 + e0) with E by lia. reflexivity. }
  assert (Hi : (inject_Z (k * (D * 2 ^ (E - e0)))
                == inject_Z k * inject_Z D * pow2 (E - e0))%Q).
  { rewrite !inject_Z_mult, <- pow2_inject by lia. ring. }
  assert (Hw : (inject_Z N == inject_Z N / inject_Z D * inject_Z D)%Q) by (field; lra).
  set (w := (inject_Z N / inject_Z D)%Q) in *.
  set (p := pow2 (E - e0)) in *. pose proof (pow2_gt0 (E - e0)) as Hp. fold p in Hp.
  assert (Hprod : (0 < inject_Z D * pow2 e0)%Q) by (apply Qmult_lt_0_compat; assumption).
  rewrite !Zle_Qle, Hi, Hw, HEq. split; split; intros H.
  - apply (Qmult_le_r _ _ (pow2 e0) Ht).
    setoid_replace (w * inject_Z D * pow2 e0)%Q with (w * pow2 e0 * inject_Z D)%Q by ring.
    setoid_replace (inject_Z k * inject_Z D * p * pow2 e0)%Q
      with (inject_Z k * (p * pow2 e0) * inject_Z D)%Q by ring.
    apply Qmult_le_compat_r; lra.
  - apply (Qmult_le_r _ _ (inject_Z D) Hd).
    apply (Qmult_le_r _ _ (pow2 e0) Ht) in H.
    setoid_replace (w * pow2 e0 * inject_Z D)%Q with (w * inject_Z D * pow2 e0)%Q by ring.
    setoid_replace (inject_Z k * (p * pow2 e0) * inject_Z D)%Q
      with (inject_Z k * inject_Z D * p * pow2 e0)%Q by ring.
    exact H.
  - apply (Qmult_le_r _ _ (pow2 e0) Ht).
    setoid_replace (w * inject_Z D * pow2 e0)%Q with (w * pow2 e0 * inject_Z D)%Q by ring.
    setoid_replace (inject_Z k * inject_Z D * p * pow2 e0)%Q
      with (inject_Z k * (p * pow2 e0) * inject_Z D)%Q by ring.
    apply Qmult_le_compat_r; lra.
  - apply (Qmult_le_r _ _ (inject_Z D) Hd).
    apply (Qmult_le_r _ _ (pow2 e0) Ht) in H.
    setoid_replace (w * pow2 e0 * inject_Z D)%Q with (w * inject_Z D * pow2 e0)%Q by ring.
    setoid_replace (inject_Z k * (p * pow2 e0) * inject_Z D)%Q
      with (inject_Z k * inject_Z D * p * pow2 e0)%Q by ring.
    exact H.
Qed.

Lemma rne_ge (N D k : Z) : 0 < D -> 0 <= N -> k * D <= N -> k <= rne N D.
Proof.
  intros HD HN H. pose proof (rne_bounds N D HD HN) as [[B _] _].
  assert (k <= N / D) by (apply Z.div_le_lower_bound; lia). lia.
Qed.

(** A value at most a representable double is rounded to at most that
    double. *)
Theorem round_le_representable (N D e0 : Z) (sr : bool) (mr : positive) (er : Z) :
  0 < D -> 0 <= N -> wf (S754_finite sr mr er) ->
  let E := fexp (Zdigits2 (N / D) + e0) in
  e0 <= E ->
  let M := rne N (D * 2 ^ (E - e0)) in
  M <= 2 ^ prec ->
  (inject_Z N / inject_Z D * pow2 e0 <= inject_Z (Z.pos mr) * pow2 er)%Q ->
  (inject_Z M * pow2 E <= inject_Z (Z.pos mr) * pow2 er)%Q.
Proof.
  intros HD HN Wr E HE M HM HV.
  pose proof (mantissa_bounds _ _ _ Wr) as [Umr Lmr].
  pose proof (wf_finite_inv _ _ _ Wr) as [Cr _].
  apply wf_finite_bounds in Wr as (_ & (Her & _) & _).
  pose proof (Z.div_pos N D HN HD) as Hq0.
  assert (HEr : E <= er).
  { destruct (Z.eq_dec (N / D) 0) as [Z | Hnz].
    - assert (HE0 : E = fexp (0 + e0)) by (unfold E; rewrite Z; reflexivity).
      pose proof (fexp_spec (0 + e0)) as F. pose proof prec_val. lia.
    - destruct (quotient_magnitude N D e0 HD ltac:(lia)) as [Q1 _].
      destruct (representable_magnitude mr er) as [_ R2].
      assert (Zdigits2 (N / D) - 1 + e0 < Z.pos (digits2_pos mr) + er).
      { apply pow2_lt_inv_Q. eapply Qle_lt_trans; [exact Q1 | ].
        eapply Qle_lt_trans; [exact HV | exact R2]. }
      rewrite <- Cr. apply fexp_mono. lia. }
  pose proof (pow2_pos (E - e0) ltac:(lia)) as Hp.
  assert (HM0 : 0 <= M).
  { pose proof (rne_bounds N (D * 2 ^ (E - e0)) ltac:(nia) HN) as [[B _] _].
    pose proof (Z.div_pos N (D * 2 ^ (E - e0)) HN ltac:(nia)). unfold M. lia. }
  destruct (Z.eq_dec E er) as [Heq | Hne].
  - rewrite <- Heq in HV |- *.
    apply (proj1 (proj1 (scaled_to_Z N D e0 E (Z.pos mr) HD HE))) in HV.
    assert (M <= Z.pos mr) by (apply rne_le; [nia | assumption | assumption]).
    apply Qmult_le_compat_r; [rewrite <- Zle_Qle; assumption | ].
    apply Qlt_le_weak, pow2_gt0.
  - specialize (Lmr ltac:(pose proof (fexp_ge_emin (Zdigits2 (N / D) + e0)); fold E in H; lia)).
    apply Qle_trans with (inject_Z (2 ^ prec) * pow2 E)%Q.
    { apply Qmult_le_compat_r; [rewrite <- Zle_Qle; assumption | ].
      apply Qlt_le_weak, pow2_gt0. }
    apply Qle_trans with (inject_Z (2 ^ (prec - 1)) * pow2 er)%Q.
    { rewrite <- !pow2_inject by (rewrite prec_val; lia). rewrite <- !pow2_add.
      apply pow2_le. lia. }
    apply Qmult_le_compat_r; [rewrite <- Zle_Qle; assumption | ].
    apply Qlt_le_weak, pow2_gt0.
Qed.

(** A value at least a representable double is rounded to at least that
    double. *)
Theorem round_ge_representable (N D e0 : Z) (sr : bool) (mr : positive) (er : Z) :
  0 < D -> 0 <= N -> wf (S754_finite sr mr er) ->
  let E := fexp (Zdigits2 (N / D) + e0) in
  e0 <= E ->
  let M := rne N (D * 2 ^ (E - e0)) in
  (inject_Z (Z.pos mr) * pow2 er <= inject_Z N / inject_Z D * pow2 e0)%Q ->
  (inject_Z (Z.pos mr) * pow2 er <= inject_Z M * pow2 E)%Q.
Proof.
  intros HD HN Wr E HE M HV.
  pose proof (mantissa_bounds _ _ _ Wr) as [Umr Lmr].
  pose proof (wf_finite_inv _ _ _ Wr) as [Cr _].
  apply wf_finite_bounds in Wr as (_ & (Her & _) & _).
  pose proof (Z.div_pos N D HN HD) as Hq0.
  pose proof (inject_Z_pos D HD) as Hd. pose proof (pow2_gt0 e0) as Ht.
  destruct (representable_magnitude mr er) as [R1 _].
  assert (Hq : 0 < N / D).
  { destruct (Z.eq_dec (N / D) 0) as [Z | Hnz]; [exfalso | lia].
    assert (He0 : e0 <= emin).
    { assert (HE0 : E = fexp (0 + e0)) by (unfold E; rewrite Z; reflexivity).
      pose proof (fexp_spec (0 + e0)) as F. pose proof prec_val. lia. }
    assert (HNlt : N < D).
    { pose proof (Z.div_mod N D ltac:(lia)). pose proof (Z.mod_pos_bound N D HD). nia. }
    assert (inject_Z N / inject_Z D < 1)%Q.
    { apply Qlt_shift_div_r; [assumption | ]. rewrite Qmult_1_l, <- Zlt_Qlt. assumption. }
    assert (inject_Z N / inject_Z D * pow2 e0 < pow2 e0)%Q.
    { setoid_replace (pow2 e0) with (1 * pow2 e0)%Q at 2 by ring.
      apply Qmult_lt_compat_r; assumption. }
    assert (pow2 e0 <= pow2 (Z.pos (digits2_pos mr) - 1 + er))%Q
      by (apply pow2_le; lia).
    lra. }
  destruct (quotient_magnitude N D e0 HD Hq) as [Q1 Q2].
  assert (HEr : er <= E).
  { assert (Z.pos (digits2_pos mr) - 1 + er < Zdigits2 (N / D) + e0).
    { apply pow2_lt_inv_Q. eapply Qle_lt_trans; [exact R1 | ].
      eapply Qle_lt_trans; [exact HV | exact Q2]. }
    rewrite <- Cr. apply fexp_mono. lia. }
  pose proof (pow2_pos (E - e0) ltac:(lia)) as Hp.
  destruct (Z.eq_dec E er) as [Heq | Hne].
  - rewrite <- Heq in HV |- *.
    apply (proj1 (proj2 (scaled_to_Z N D e0 E (Z.pos mr) HD HE))) in HV.
    assert (Z.pos mr <= M) by (apply rne_ge; [nia | assumption | assumption]).
    apply Qmult_le_compat_r; [rewrite <- Zle_Qle; assumption | ].
    apply Qlt_le_weak, pow2_gt0.
  - assert (HEn : E = Zdigits2 (N / D) + e0 - prec)
      by (unfold E in *; rewrite fexp_spec in *; lia).
    assert (HMl : 2 ^ (prec - 1) <= M).
    { apply rne_ge; [nia | assumption | ].
      apply (proj1 (proj2 (scaled_to_Z N D e0 E (2 ^ (prec - 1)) HD HE))).
      rewrite <- pow2_inject by (rewrite prec_val; lia). rewrite <- pow2_add.
      replace (prec - 1 + E) with (Zdigits2 (N / D) - 1 + e0) by lia. exact Q1. }
    apply Qle_trans with (inject_Z (2 ^ prec) * pow2 er)%Q.
    { apply Qmult_le_compat_r; [rewrite <- Zle_Qle; lia | ].
      apply Qlt_le_weak, pow2_gt0. }
    apply Qle_trans with (inject_Z (2 ^ (prec - 1)) * pow2 E)%Q.
    { rewrite <- !pow2_inject by (rewrite prec_val; lia). rewrite <- !pow2_add.
      apply pow2_le. lia. }
    apply Qmult_le_compat_r; [rewrite <- Zle_Qle; assumption | ].
    apply Qlt_le_weak, pow2_gt0.
Qed.

Lemma binary_round_value (p : positive) (e : Z) :
  let E := fexp (Z.pos (digits2_pos p) + e) in
  let z := Z.min e E in
  let N := Z.pos p * 2 ^ (e - z) in
  0 <= N /\ z <= E /\
  fexp (Zdigits2 (N / 1) + z) = E /\
  (inject_Z N / inject_Z 1 * pow2 z == inject_Z (Z.pos p) * pow2 e)%Q.
Proof.
  intros E z N.
  assert (Hz : 0 <= e - z) by (unfold z; lia).
  pose proof (pow2_pos _ Hz) as Hp.
  repeat split; [unfold N; nia | unfold z; lia | | ].
  - rewrite Z.div_1_r. unfold N. rewrite Zdigits2_mul_pow2 by lia. cbn [Zdigits2].
    unfold E. f_equal. lia.
  - unfold N. rewrite inject_Z_mult, <- pow2_inject by lia. change (inject_Z 1) with 1%Q.
    assert (Hs : (pow2 (e - z) * pow2 z == pow2 e)%Q).
    { rewrite <- pow2_add. replace (e - z + z) with e by lia. reflexivity. }
    transitivity (inject_Z (Z.pos p) * (pow2 (e - z) * pow2 z))%Q; [field | ].
    rewrite Hs. reflexivity.
Qed.

Lemma binary_round_ge (p mr : positive) (e er : Z) :
  wf (S754_finite false mr er) ->
  isFinite (binary_round prec emax false p e) = true ->
  (value (S754_finite false mr er) <= inject_Z (Z.pos p) * pow2 e)%Q ->
  (value (S754_finite false mr er) <= value (binary_round prec emax false p e))%Q.
Proof.
  intros Wr F V.
  destruct (binary_round_rounded false p e) as (Hr & HM & _). cbv zeta in Hr, HM.
  destruct (binary_round_value p e) as (HN & Hz & HE & HV). cbv zeta in HN, Hz, HE, HV.
  rewrite Hr in F |- *. rewrite (value_rounded false _ _ HM F).
  cbn [value cond_Zopp] in V |- *.
  pose proof (round_ge_representable _ 1 (Z.min e (fexp (Z.pos (digits2_pos p) + e))) false mr er
                ltac:(lia) HN Wr) as R.
  cbv zeta in R. rewrite HE, Z.mul_1_l in R. apply R; [exact Hz | ].
  rewrite HV. exact V.
Qed.

Lemma binary_round_le (p mr : positive) (e er : Z) :
  wf (S754_finite false mr er) ->
  isFinite (binary_round prec emax false p e) = true ->
  (inject_Z (Z.pos p) * pow2 e <= value (S754_finite false mr er))%Q ->
  (value (binary_round prec emax false p e) <= value (S754_finite false mr er))%Q.
Proof.
  intros Wr F V.
  destruct (binary_round_rounded false p e) as (Hr & HM & _). cbv zeta in Hr, HM.
  destruct (binary_round_value p e) as (HN & Hz & HE & HV). cbv zeta in HN, Hz, HE, HV.
  rewrite Hr in F |- *. rewrite (value_rounded false _ _ HM F).
  cbn [value cond_Zopp] in V |- *.
  pose proof (round_le_representable _ 1 (Z.min e (fexp (Z.pos (digits2_pos p) + e))) false mr er
                ltac:(lia) HN Wr) as R.
  cbv zeta in R. rewrite HE, Z.mul_1_l in R. apply R; [exact Hz | apply HM | ].
  rewrite HV. exact V.
Qed.

(** A sum of non-negative doubles is at least each of them, and a
    difference at most the minuend. *)
Theorem add_ge_operands (x y : number) :
  wf x -> wf y -> positive_number x = true -> positive_number y = true ->
  isFinite (add x y) = true ->
  (value x <= value (add x y) /\ value y <= value (add x y))%Q.
Proof.
  intros Wx Wy Px Py F.
  pose proof (value_nonneg _ Px) as Nx. pose proof (value_nonneg _ Py) as Ny.
  destruct (positive_number_cases x Px) as [-> | (mx & ex & ->)];
    destruct (positive_number_cases y Py) as [-> | (my & ey & ->)];
    try (unfold add; cbn [SFadd]; split; (lra || assumption)).
  revert F. unfold add. cbn [SFadd cond_Zopp].
  set (ez := Z.min ex ey) in *.
  pose proof (shl_align_spec mx ex ez) as [_ HA].
  pose proof (shl_align_spec my ey ez) as [_ HB].
  replace (Z.min ex ez) with ez in HA by (unfold ez; lia).
  replace (Z.min ey ez) with ez in HB by (unfold ez; lia).
  pose proof (value_aligned mx ex ez ltac:(unfold ez; lia)) as Vx.
  pose proof (value_aligned my ey ez ltac:(unfold ez; lia)) as Vy.
  rewrite <- HA in Vx. rewrite <- HB in Vy.
  pose proof (Pos2Z.is_pos (fst (shl_align mx ex ez))) as PA.
  pose proof (Pos2Z.is_pos (fst (shl_align my ey ez))) as PB.
  set (A := Z.pos (fst (shl_align mx ex ez))) in *.
  set (B := Z.pos (fst (shl_align my ey ez))) in *.
  assert (Vs : (inject_Z (A + B) * pow2 ez ==
                value (S754_finite false mx ex) + value (S754_finite false my ey))%Q).
  { rewrite inject_Z_plus, Vx, Vy. ring. }
  destruct (A + B) as [ | p | p] eqn:Hp; [lia | | lia].
  cbn [binary_normalize]. intros F.
  split; apply binary_round_ge; try assumption; rewrite Vs; lra.
Qed.

Theorem sub_le_minuend (x y : number) :
  wf x -> wf y -> positive_number x = true -> positive_number y = true ->
  positive_number (sub x y) = true ->
  (value (sub x y) <= value x)%Q.
Proof.
  intros Wx Wy Px Py P.
  pose proof (value_nonneg _ Px) as Nx. pose proof (value_nonneg _ Py) as Ny.
  destruct (positive_number_cases x Px) as [-> | (mx & ex & ->)];
    destruct (positive_number_cases y Py) as [-> | (my & ey & ->)];
    try (unfold sub; cbn [SFsub]; lra).
  - revert P. unfold sub. cbn [SFsub SFopp]. discriminate.
  - revert P. unfold sub. cbn [SFsub cond_Zopp].
    set (ez := Z.min ex ey) in *.
    pose proof (shl_align_spec mx ex ez) as [_ HA].
    pose proof (shl_align_spec my ey ez) as [_ HB].
    replace (Z.min ex ez) with ez in HA by (unfold ez; lia).
    replace (Z.min ey ez) with ez in HB by (unfold ez; lia).
    pose proof (value_aligned mx ex ez ltac:(unfold ez; lia)) as Vx.
    pose proof (value_aligned my ey ez ltac:(unfold ez; lia)) as Vy.
    rewrite <- HA in Vx. rewrite <- HB in Vy.
    set (A := Z.pos (fst (shl_align mx ex ez))) in *.
    set (B := Z.pos (fst (shl_align my ey ez))) in *.
    assert (Vs : (inject_Z (A - B) * pow2 ez ==
                  value (S754_finite false mx ex) - value (S754_finite false my ey))%Q).
    { unfold Z.sub. rewrite inject_Z_plus, inject_Z_opp, Vx, Vy. ring. }
    destruct (A - B) as [ | p | p] eqn:Hp; cbn [binary_normalize]; intros P.
    + cbn [value] in *. lra.
    + apply binary_round_le; try assumption; [ | rewrite Vs; lra].
      revert P. destruct (binary_round _ _ _ _ _) as [[ | ] | | | [ | ] m e];
        try discriminate; reflexivity.
    + exfalso. destruct (binary_round_rounded true p ez) as (Hr & HM & _).
      rewrite Hr in P. revert P. unfold rounded.
      destruct (rne _ _) as [ | m | m]; try discriminate.
      destruct (_ <? _); destruct (_ <=? _); discriminate.
Qed.

Lemma add_positive (x y : number) :
  positive_number x = true -> positive_number y = true ->
  isFinite (add x y) = true -> positive_number (add x y) = true.
Proof.
  intros Px Py.
  destruct (positive_number_cases x Px) as [-> | (mx & ex & ->)];
    destruct (positive_number_cases y Py) as [-> | (my & ey & ->)];
    try reflexivity.
  unfold add. cbn [SFadd cond_Zopp].
  set (ez := Z.min ex ey).
  pose proof (Pos2Z.is_pos (fst (shl_align mx ex ez))) as PA.
  pose proof (Pos2Z.is_pos (fst (shl_align my ey ez))) as PB.
  destruct (_ + _) as [ | p | p] eqn:Hp; [lia | | lia].
  cbn [binary_normalize].
  destruct (binary_round_rounded false p ez) as (Hr & HM & _). rewrite Hr.
  apply rounded_positive. apply HM.
Qed.

Lemma div_positive (y : number) (mc : positive) (ec : Z) :
  positive_number y = true ->
  isFinite (div y (S754_finite false mc ec)) = true ->
  positive_number (div y (S754_finite false mc ec)) = true.
Proof.
  intros Py. destruct (positive_number_cases y Py) as [-> | (my & ey & ->)];
    [reflexivity | ].
  destruct (div_rounded false false my mc ey ec) as (Hr & HM & _).
  cbn [xorb] in Hr. rewrite Hr. apply rounded_positive. apply HM.
Qed.

(** ** Values that need no rounding *)

Lemma exponent_le_representable (N D e0 : Z) (mr : positive) (er : Z) :
  0 < D -> 0 <= N -> emin <= er ->
  fexp (Z.pos (digits2_pos mr) + er) = er ->
  (inject_Z N / inject_Z D * pow2 e0 <= inject_Z (Z.pos mr) * pow2 er)%Q ->
  e0 <= fexp (Zdigits2 (N / D) + e0) ->
  fexp (Zdigits2 (N / D) + e0) <= er.
Proof.
  intros HD HN Her Cr HV HE.
  pose proof (Z.div_pos N D HN HD) as Hq0.
  destruct (Z.eq_dec (N / D) 0) as [Z | Hnz].
  - rewrite Z in *. pose proof (fexp_spec (0 + e0)) as F. pose proof prec_val.
    cbn [Zdigits2] in *. lia.
  - destruct (quotient_magnitude N D e0 HD ltac:(lia)) as [Q1 _].
    destruct (representable_magnitude mr er) as [_ R2].
    assert (Zdigits2 (N / D) - 1 + e0 < Z.pos (digits2_pos mr) + er).
    { apply pow2_lt_inv_Q. eapply Qle_lt_trans; [exact Q1 | ].
      eapply Qle_lt_trans; [exact HV | exact R2]. }
    rewrite <- Cr. apply fexp_mono. lia.
Qed.

(** Rounding a value that is a double gives that double. *)
Theorem rounded_representable (N D e0 : Z) (mr : positive) (er : Z) :
  0 < D -> 0 <= N -> wf (S754_finite false mr er) ->
  let E := fexp (Zdigits2 (N / D) + e0) in
  e0 <= E ->
  let M := rne N (D * 2 ^ (E - e0)) in
  0 <= M <= 2 ^ prec ->
  (0 < M < 2 ^ prec -> fexp (Zdigits2 M + E) = E) ->
  (inject_Z N / inject_Z D * pow2 e0 == inject_Z (Z.pos mr) * pow2 er)%Q ->
  rounded false M E = S754_finite false mr er.
Proof.
  intros HD HN Wr E HE M HM Hc HV.
  pose proof (round_le_representable N D e0 false mr er HD HN Wr HE (proj2 HM)) as L.
  pose proof (round_ge_representable N D e0 false mr er HD HN Wr HE) as G.
  cbv zeta in L, G. fold E in L, G. fold M in L, G.
  assert (VM : (inject_Z M * pow2 E == inject_Z (Z.pos mr) * pow2 er)%Q).
  { apply Qle_antisym; [apply L | apply G]; rewrite HV; apply Qle_refl. }
  pose proof (mantissa_bounds _ _ _ Wr) as [Umr _].
  pose proof (wf_finite_inv _ _ _ Wr) as [Cr Ur].
  pose proof (wf_finite_bounds _ _ _ Wr) as (_ & (Her & _) & _).
  assert (HEr : E <= er).
  { apply (exponent_le_representable N D e0 mr er); try assumption.
    rewrite HV. apply Qle_refl. }
  pose proof (pow2_gt0 E) as PE. pose proof (pow2_gt0 er) as Per.
  assert (F : isFinite (rounded false M E) = true).
  { apply rounded_finite; [lia | ].
    destruct (Z_lt_le_dec M (2 ^ prec)) as [Hlt | Hge]; [left; lia | right].
    assert (HMe : M = 2 ^ prec) by lia.
    destruct (Z.eq_dec E er) as [Heq | Hne]; [exfalso | lia].
    rewrite Heq, HMe in VM.
    assert (inject_Z (2 ^ prec) == inject_Z (Z.pos mr))%Q.
    { apply (Qmult_inj_r _ _ (pow2 er)); [lra | exact VM]. }
    assert (2 ^ prec = Z.pos mr) by (apply inject_Z_injective; assumption). lia. }
  apply value_inj.
  - apply rounded_wf; [apply fexp_ge_emin | assumption | assumption].
  - exact Wr.
  - apply rounded_positive; [lia | exact F].
  - reflexivity.
  - rewrite (value_rounded false M E HM F). cbn [value cond_Zopp]. exact VM.
Qed.

Lemma positive_value_zero (x : number) :
  positive_number x = true -> (value x == 0)%Q -> x = S754_zero false.
Proof.
  intros Px V. destruct (positive_number_cases x Px) as [-> | (m & e & ->)];
    [reflexivity | exfalso].
  cbn [value cond_Zopp] in V. pose proof (pow2_gt0 e).
  pose proof (inject_Z_pos (Z.pos m) ltac:(lia)).
  assert (0 < inject_Z (Z.pos m) * pow2 e)%Q by (apply Qmult_lt_0_compat; assumption).
  lra.
Qed.

Lemma finite_value_pos (m : positive) (e : Z) :
  (0 < value (S754_finite false m e))%Q.
Proof.
  cbn [value cond_Zopp]. apply Qmult_lt_0_compat;
    [apply inject_Z_pos; lia | apply pow2_gt0].
Qed.

(** A product or quotient of non-negative doubles whose exact value is a
    double is that double. *)
Theorem mul_representable (x k r : number) :
  wf x -> wf k -> wf r ->
  positive_number x = true -> positive_number k = true ->
  positive_number r = true ->
  (value x * value k == value r)%Q -> mul x k = r.
Proof.
  intros Wx Wk Wr Px Pk Pr V.
  destruct (positive_number_cases x Px) as [-> | (mx & ex & ->)];
    destruct (positive_number_cases k Pk) as [-> | (mk & ek & ->)];
    try (symmetry; apply positive_value_zero; [exact Pr | ];
         rewrite <- V; cbn [value]; ring).
  destruct (positive_number_cases r Pr) as [-> | (mr & er & ->)].
  - exfalso. pose proof (finite_value_pos mx ex). pose proof (finite_value_pos mk ek).
    assert (0 < value (S754_finite false mx ex) * value (S754_finite false mk ek))%Q
      by (apply Qmult_lt_0_compat; assumption).
    change (value (S754_zero false)) with 0%Q in V. lra.
  - destruct (mul_rounded false false mx mk ex ek Wx Wk) as (Hm & HM & Hc).
    cbv zeta in Hm, HM, Hc. cbn [xorb] in Hm. rewrite Hm.
    pose proof (rounded_representable (Z.pos (mx * mk)) 1 (ex + ek) mr er
                  ltac:(lia) ltac:(lia) Wr) as R.
    cbv zeta in R. rewrite Z.div_1_r, Z.mul_1_l in R.
    apply R; try assumption.
    + apply (mul_exponent_ok false false mx mk ex ek Wx Wk).
    + rewrite <- V. cbn [value cond_Zopp].
      rewrite Pos2Z.inj_mul, inject_Z_mult, pow2_add.
      change (inject_Z 1) with 1%Q. field.
Qed.

Theorem div_representable (x r : number) (mk : positive) (ek : Z) :
  wf x -> wf r -> positive_number x = true -> positive_number r = true ->
  (value x / value (S754_finite false mk ek) == value r)%Q ->
  div x (S754_finite false mk ek) = r.
Proof.
  intros Wx Wr Px Pr V. pose proof (finite_value_pos mk ek) as Pc.
  destruct (positive_number_cases x Px) as [-> | (mx & ex & ->)].
  - symmetry. apply positive_value_zero; [exact Pr | ].
    rewrite <- V. cbn [value]. unfold Qdiv. ring.
  - destruct (positive_number_cases r Pr) as [-> | (mr & er & ->)].
    + exfalso. pose proof (finite_value_pos mx ex) as Pxv.
      assert (0 < value (S754_finite false mx ex) / value (S754_finite false mk ek))%Q.
      { apply Qlt_shift_div_l; [exact Pc | ]. lra. }
      change (value (S754_zero false)) with 0%Q in V. lra.
    + destruct (div_rounded false false mx mk ex ek) as (Hm & HM & Hc & He').
      cbv zeta in Hm, HM, Hc, He'. cbn [xorb] in Hm. rewrite Hm.
      set (e' := Z.min (fexp (Zdigits2 (Z.pos mx) + ex - (Zdigits2 (Z.pos mk) + ek)))
                       (ex - ek)) in *.
      set (m' := Z.pos mx * 2 ^ (ex - ek - e')) in *.
      assert (Hs : 0 <= ex - ek - e') by (unfold e'; lia).
      pose proof (pow2_pos _ Hs) as Hp.
      pose proof (rounded_representable m' (Z.pos mk) e' mr er
                    ltac:(lia) ltac:(unfold m'; nia) Wr) as R.
      cbv zeta in R. apply R; try assumption.
      rewrite <- V. unfold m'. cbn [value cond_Zopp].
      rewrite inject_Z_mult, <- pow2_inject by assumption.
      assert (Hsplit : (pow2 ex == pow2 (ex - ek - e') * pow2 e' * pow2 ek)%Q).
      { rewrite <- !pow2_add. replace (ex - ek - e' + e' + ek) with ex by lia.
        reflexivity. }
      rewrite Hsplit.
      pose proof (pow2_gt0 ek). pose proof (inject_Z_pos (Z.pos mk) ltac:(lia)).
      field. split; lra.
Qed.

(** ** Whole quotients *)

Lemma binary_round_small (p : positive) (e : Z) :
  Z.pos p < 2 ^ prec -> emin <= e <= emax - prec ->
  let r := binary_round prec emax false p e in
  wf r /\ positive_number r = true /\
  (value r == inject_Z (Z.pos p) * pow2 e)%Q.
Proof.
  intros Hp He r.
  pose proof (binary_normalize_wf (Z.pos p) e false) as W. cbn [binary_normalize] in W.
  fold r in W. unfold r in *.
  destruct (binary_round_rounded false p e) as (Hr & HM & _). cbv zeta in Hr, HM.
  rewrite Hr in *.
  set (E := fexp (Z.pos (digits2_pos p) + e)) in *.
  assert (Hd : Zdigits2 (Z.pos p) <= prec)
    by (apply Zdigits2_le; [rewrite prec_val; lia | lia]).
  cbn [Zdigits2] in Hd.
  assert (HE : E <= e) by (unfold E; rewrite fexp_spec; lia).
  assert (HEm : emin <= E) by apply fexp_ge_emin.
  replace (Z.min e E) with E in * by lia.
  replace (E - E) with 0 in * by lia. change (2 ^ 0) with 1 in *.
  rewrite rne_one in *.
  pose proof (pow2_pos (e - E) ltac:(lia)) as P2.
  assert (Hlt : Z.pos p * 2 ^ (e - E) < 2 ^ prec).
  { pose proof (Zdigits2_bounds (Z.pos p * 2 ^ (e - E)) ltac:(nia)) as [_ B].
    rewrite Zdigits2_mul_pow2 in B by lia. cbn [Zdigits2] in B.
    assert (2 ^ (Z.pos (digits2_pos p) + (e - E)) <= 2 ^ prec).
    { apply Z.pow_le_mono_r; [lia | ]. unfold E. rewrite fexp_spec. lia. }
    lia. }
  assert (F : isFinite (rounded false (Z.pos p * 2 ^ (e - E)) E) = true)
    by (apply rounded_finite; [nia | left; lia]).
  split; [exact W | split].
  - apply rounded_positive; [nia | exact F].
  - rewrite (value_rounded false _ E HM F). cbn [cond_Zopp].
    rewrite inject_Z_mult, <- pow2_inject by lia.
    assert (Hs : (pow2 (e - E) * pow2 E == pow2 e)%Q).
    { rewrite <- pow2_add. replace (e - E + E) with e by lia. reflexivity. }
    rewrite <- Hs. ring.
Qed.

Lemma odd_divides (s q j : Z) :
  Z.odd s = true -> 0 <= j -> (s | q * 2 ^ j) -> (s | q).
Proof.
  intros Hs Hj H. apply (Z.gauss s (2 ^ j) q); [rewrite Z.mul_comm; exact H | ].
  apply Z.coprime_pow_r; [exact Hj | ]. apply Z.coprime_Bezout.
  apply Z.odd_spec in Hs as [c Hc]. exists 1, (- c). lia.
Qed.

(** A double that is [k] times an integer scale [s * 2^a], [s] odd: the
    whole quotient [k] is a double too. *)
Theorem whole_quotient_representable (mx : positive) (ex k s a : Z) :
  wf (S754_finite false mx ex) ->
  0 < k -> Z.odd s = true -> 0 < s -> 0 <= a ->
  (inject_Z (Z.pos mx) * pow2 ex == inject_Z k * inject_Z (s * 2 ^ a))%Q ->
  exists r, wf r /\ positive_number r = true /\ (value r == inject_Z k)%Q.
Proof.
  intros Wx Hk Hs Hs0 Ha V.
  destruct (Z_lt_le_dec k (2 ^ prec)) as [Hlt | Hge].
  { exists (of_Z k). split; [apply of_Z_wf | apply of_Z_exact; lia]. }
  pose proof (mantissa_bounds _ _ _ Wx) as [Umx _].
  pose proof (wf_finite_bounds _ _ _ Wx) as (_ & (Lex & Uex) & _).
  rewrite inject_Z_mult, <- pow2_inject in V by assumption.
  pose proof (pow2_gt0 a) as Pa. pose proof (pow2_gt0 ex) as Pex.
  pose proof (inject_Z_pos (Z.pos mx) ltac:(lia)) as Pm.
  assert (Qk : (inject_Z (Z.pos mx) < inject_Z k)%Q) by (rewrite <- Zlt_Qlt; lia).
  assert (Qs : (1 <= inject_Z s)%Q)
    by (change 1%Q with (inject_Z 1); rewrite <- Zle_Qle; lia).
  assert (Hex : a < ex).
  { apply pow2_lt_inv_Q.
    assert (inject_Z (Z.pos mx) * pow2 a < inject_Z (Z.pos mx) * pow2 ex)%Q.
    { rewrite V.
      apply Qlt_le_trans with (inject_Z k * pow2 a)%Q.
      - apply Qmult_lt_compat_r; assumption.
      - setoid_replace (inject_Z k * (inject_Z s * pow2 a))%Q
          with (inject_Z s * (inject_Z k * pow2 a))%Q by ring.
        assert (0 <= inject_Z k * pow2 a)%Q.
        { apply Qmult_le_0_compat; [apply inject_Z_nonneg; lia | lra]. }
        setoid_replace (inject_Z k * pow2 a)%Q with (1 * (inject_Z k * pow2 a))%Q at 1
          by ring.
        apply Qmult_le_compat_r; assumption. }
    apply (Qmult_lt_l _ _ (inject_Z (Z.pos mx))); assumption. }
  assert (HZ : Z.pos mx * 2 ^ (ex - a) = k * s).
  { apply inject_Z_injective. rewrite !inject_Z_mult, <- pow2_inject by lia.
    apply (Qmult_inj_r _ _ (pow2 a)); [lra | ].
    transitivity (inject_Z (Z.pos mx) * pow2 ex)%Q; [ | rewrite V; ring].
    assert (Hsp : (pow2 (ex - a) * pow2 a == pow2 ex)%Q).
    { rewrite <- pow2_add. replace (ex - a + a) with ex by lia. reflexivity. }
    rewrite <- Hsp. ring. }
  assert (Hdiv : (s | Z.pos mx)).
  { apply (odd_divides s (Z.pos mx) (ex - a) Hs ltac:(lia)).
    exists k. rewrite HZ. ring. }
  destruct Hdiv as [q Hq].
  assert (Hq0 : 0 < q) by nia.
  assert (Hkq : k = q * 2 ^ (ex - a)).
  { rewrite Hq in HZ. nia. }
  assert (Hqb : q < 2 ^ prec) by nia.
  destruct q as [ | qp | qp]; try lia.
  destruct (binary_round_small qp (ex - a) Hqb) as (W & P & Vr).
  { pose proof emin_val. lia. }
  exists (binary_round prec emax false qp (ex - a)).
  split; [exact W | split; [exact P | ]].
  rewrite Vr, Hkq, inject_Z_mult, <- pow2_inject by lia. reflexivity.
Qed.

Lemma isInteger_of_value (x : number) (k : Z) :
  isFinite x = true -> (value x == inject_Z k)%Q -> isInteger x = true.
Proof.
  destruct x as [sx | sx | | sx m e]; try discriminate; intros _ V; [reflexivity | ].
  cbn [isInteger]. destruct e as [ | p | p]; try reflexivity.
  apply Z.eqb_eq. cbn [value] in V.
  rewrite Z.pow_pos_fold.
  pose proof (pow2_gt0 (Z.neg p)) as Pn. pose proof (pow2_pos (Z.pos p) ltac:(lia)) as Pp.
  assert (Hinv : (pow2 (Z.neg p) * inject_Z (2 ^ Z.pos p) == 1)%Q).
  { rewrite <- pow2_inject by lia. rewrite <- pow2_add.
    replace (Z.neg p + Z.pos p) with 0 by lia. reflexivity. }
  assert (HZ : cond_Zopp sx (Z.pos m) = k * 2 ^ Z.pos p).
  { apply inject_Z_injective. rewrite inject_Z_mult, <- V.
    transitivity (inject_Z (cond_Zopp sx (Z.pos m))
                  * (pow2 (Z.neg p) * inject_Z (2 ^ Z.pos p)))%Q; [ | ring].
    rewrite Hinv. ring. }
  destruct sx; cbn [cond_Zopp] in HZ.
  - replace (Z.pos m) with ((- k) * 2 ^ Z.pos p) by lia. apply Z.mod_mul. lia.
  - rewrite HZ. apply Z.mod_mul. lia.
Qed.

(** ** Accuracy of sums and differences *)

Lemma binary_round_error (p : positive) (e : Z) :
  isFinite (binary_round prec emax false p e) = true ->
  (Qabs (value (binary_round prec emax false p e) - inject_Z (Z.pos p) * pow2 e)
   <= inject_Z (Z.pos p) * pow2 e * pow2 (- prec) + pow2 (emin - 1))%Q.
Proof.
  intros F.
  destruct (binary_round_rounded false p e) as (Hr & HM & _). cbv zeta in Hr, HM.
  destruct (binary_round_value p e) as (HN & Hz & HE & HV). cbv zeta in HN, Hz, HE, HV.
  rewrite Hr in F |- *. rewrite (value_rounded false _ _ HM F). cbn [cond_Zopp].
  pose proof (round_error _ 1 (Z.min e (fexp (Z.pos (digits2_pos p) + e)))
                ltac:(lia) HN) as R.
  cbv zeta in R. rewrite HE, Z.mul_1_l in R. specialize (R Hz).
  rewrite HV in R. exact R.
Qed.

Theorem add_error (x y : number) :
  positive_number x = true -> positive_number y = true ->
  isFinite (add x y) = true ->
  (Qabs (value (add x y) - (value x + value y))
   <= (value x + value y) * pow2 (- prec) + pow2 (emin - 1))%Q.
Proof.
  intros Px Py F.
  pose proof (value_nonneg _ Px) as Nx. pose proof (value_nonneg _ Py) as Ny.
  pose proof (pow2_gt0 (- prec)) as Hu. pose proof (pow2_gt0 (emin - 1)) as Hh.
  assert (Z0 : forall v : Q, (0 <= v -> Qabs (v - (0 + v)) <= (0 + v) * pow2 (- prec)
                                       + pow2 (emin - 1))%Q).
  { intros v Hv. apply Qabs_le_of_bounds. split; nra. }
  assert (Z1 : forall v : Q, (0 <= v -> Qabs (v - (v + 0)) <= (v + 0) * pow2 (- prec)
                                       + pow2 (emin - 1))%Q).
  { intros v Hv. apply Qabs_le_of_bounds. split; nra. }
  destruct (positive_number_cases x Px) as [-> | (mx & ex & ->)];
    destruct (positive_number_cases y Py) as [-> | (my & ey & ->)].
  - apply (Z0 0%Q). lra.
  - apply Z0. exact Ny.
  - apply Z1. exact Nx.
  - revert F. unfold add. cbn [SFadd cond_Zopp].
    set (ez := Z.min ex ey) in *.
    pose proof (shl_align_spec mx ex ez) as [_ HA].
    pose proof (shl_align_spec my ey ez) as [_ HB].
    replace (Z.min ex ez) with ez in HA by (unfold ez; lia).
    replace (Z.min ey ez) with ez in HB by (unfold ez; lia).
    pose proof (value_aligned mx ex ez ltac:(unfold ez; lia)) as Vx.
    pose proof (value_aligned my ey ez ltac:(unfold ez; lia)) as Vy.
    rewrite <- HA in Vx. rewrite <- HB in Vy.
    pose proof (Pos2Z.is_pos (fst (shl_align mx ex ez))) as PA.
    pose proof (Pos2Z.is_pos (fst (shl_align my ey ez))) as PB.
    set (A := Z.pos (fst (shl_align mx ex ez))) in *.
    set (B := Z.pos (fst (shl_align my ey ez))) in *.
    assert (Vs : (inject_Z (A + B) * pow2 ez ==
                  value (S754_finite false mx ex) + value (S754_finite false my ey))%Q).
    { rewrite inject_Z_plus, Vx, Vy. ring. }
    destruct (A + B) as [ | p | p] eqn:Hp; [lia | | lia].
    cbn [binary_normalize]. intros F. rewrite <- Vs.
    apply binary_round_error. exact F.
Qed.

Theorem sub_error (x y : number) :
  positive_number x = true -> positive_number y = true ->
  positive_number (sub x y) = true ->
  (Qabs (value (sub x y) - (value x - value y))
   <= (value x - value y) * pow2 (- prec) + pow2 (emin - 1))%Q.
Proof.
  intros Px Py P.
  pose proof (value_nonneg _ Px) as Nx. pose proof (value_nonneg _ Py) as Ny.
  pose proof (pow2_gt0 (- prec)) as Hu. pose proof (pow2_gt0 (emin - 1)) as Hh.
  destruct (positive_number_cases x Px) as [-> | (mx & ex & ->)];
    destruct (positive_number_cases y Py) as [-> | (my & ey & ->)].
  - change (value (sub (S754_zero false) (S754_zero false))) with 0%Q.
    change (value (S754_zero false)) with 0%Q. apply Qabs_le_of_bounds. split; lra.
  - revert P. unfold sub. cbn [SFsub SFopp]. discriminate.
  - change (sub (S754_finite false mx ex) (S754_zero false))
      with (S754_finite false mx ex).
    change (value (S754_zero false)) with 0%Q. apply Qabs_le_of_bounds. split; nra.
  - revert P. unfold sub. cbn [SFsub cond_Zopp].
    set (ez := Z.min ex ey) in *.
    pose proof (shl_align_spec mx ex ez) as [_ HA].
    pose proof (shl_align_spec my ey ez) as [_ HB].
    replace (Z.min ex ez) with ez in HA by (unfold ez; lia).
    replace (Z.min ey ez) with ez in HB by (unfold ez; lia).
    pose proof (value_aligned mx ex ez ltac:(unfold ez; lia)) as Vx.
    pose proof (value_aligned my ey ez ltac:(unfold ez; lia)) as Vy.
    rewrite <- HA in Vx. rewrite <- HB in Vy.
    set (A := Z.pos (fst (shl_align mx ex ez))) in *.
    set (B := Z.pos (fst (shl_align my ey ez))) in *.
    assert (Vs : (inject_Z (A - B) * pow2 ez ==
                  value (S754_finite false mx ex) - value (S754_finite false my ey))%Q).
    { unfold Z.sub. rewrite inject_Z_plus, inject_Z_opp, Vx, Vy. ring. }
    destruct (A - B) as [ | p | p] eqn:Hp; cbn [binary_normalize]; intros P.
    + rewrite <- Vs. cbn [value]. apply Qabs_le_of_bounds.
      change (inject_Z 0) with 0%Q. split; lra.
    + rewrite <- Vs. apply binary_round_error.
      revert P. destruct (binary_round _ _ _ _ _) as [[ | ] | | | [ | ] m e];
        try discriminate; reflexivity.
    + exfalso. destruct (binary_round_rounded true p ez) as (Hr & HM & _).
      rewrite Hr in P. revert P. unfold rounded.
      destruct (rne _ _) as [ | m | m]; try discriminate.
      destruct (_ <? _); destruct (_ <=? _); discriminate.
Qed.

(** ** Rounding is to nearest, and monotone *)

Lemma rne_nearest (N D K : Z) :
  0 < D -> 0 <= N ->
  (N <= K * D -> 2 * N <= K * D + rne N D * D) /\
  (K * D <= N -> rne N D * D + K * D <= 2 * N).
Proof.
  intros HD HN. pose proof (rne_bounds N D HD HN) as [[B1 B2] [B3 B4]].
  pose proof (Z.mod_pos_bound N D HD) as Hb.
  pose proof (Z.div_mod N D ltac:(lia)) as Hdm.
  set (f := N / D) in *. set (M := rne N D) in *.
  split; intros H.
  - destruct (Z.eq_dec (N mod D) 0) as [Hz | Hnz].
    + assert (M = f) by (unfold M, f; apply rne_exact; assumption). nia.
    + assert (f + 1 <= K) by nia.
      destruct (Z.eq_dec M f); nia.
  - assert (K <= f) by nia.
    destruct (Z.eq_dec M f); nia.
Qed.

Lemma grid_above (N D e0 : Z) (mr : positive) (er : Z) :
  0 < D -> 0 <= N -> wf (S754_finite false mr er) ->
  let E := fexp (Zdigits2 (N / D) + e0) in
  e0 <= E ->
  (inject_Z N / inject_Z D * pow2 e0 <= inject_Z (Z.pos mr) * pow2 er)%Q ->
  exists K : Z,
    (inject_Z (Z.pos mr) * pow2 er == inject_Z K * pow2 E)%Q /\
    N <= K * (D * 2 ^ (E - e0)).
Proof.
  intros HD HN Wr E HE HV.
  pose proof (wf_finite_inv _ _ _ Wr) as [Cr _].
  pose proof (wf_finite_bounds _ _ _ Wr) as (_ & (Her & _) & _).
  assert (HEr : E <= er)
    by (apply (exponent_le_representable N D e0 mr er); assumption).
  exists (Z.pos mr * 2 ^ (er - E)).
  assert (Q : (inject_Z (Z.pos mr) * pow2 er
               == inject_Z (Z.pos mr * 2 ^ (er - E)) * pow2 E)%Q).
  { rewrite inject_Z_mult, <- pow2_inject by lia.
    rewrite <- Qmult_assoc, <- pow2_add. replace (er - E + E) with er by lia.
    reflexivity. }
  split; [exact Q | ].
  apply (proj1 (proj1 (scaled_to_Z N D e0 E _ HD HE))). rewrite <- Q. exact HV.
Qed.

Lemma grid_below (N D e0 : Z) (mr : positive) (er : Z) :
  0 < D -> 0 <= N -> wf (S754_finite false mr er) ->
  let E := fexp (Zdigits2 (N / D) + e0) in
  e0 <= E ->
  (inject_Z (Z.pos mr) * pow2 er <= inject_Z N / inject_Z D * pow2 e0)%Q ->
  exists K : Z,
    (inject_Z (Z.pos mr) * pow2 er <= inject_Z K * pow2 E)%Q /\
    K * (D * 2 ^ (E - e0)) <= N.
Proof.
  intros HD HN Wr E HE HV.
  pose proof (mantissa_bounds _ _ _ Wr) as [Umr Lmr].
  pose proof (wf_finite_inv _ _ _ Wr) as [Cr _].
  pose proof (wf_finite_bounds _ _ _ Wr) as (_ & (Her & _) & _).
  pose proof (Z.div_pos N D HN HD) as Hq0.
  pose proof (inject_Z_pos D HD) as Hd. pose proof (pow2_gt0 e0) as Ht.
  destruct (representable_magnitude mr er) as [R1 _].
  assert (Hq : 0 < N / D).
  { destruct (Z.eq_dec (N / D) 0) as [Z | Hnz]; [exfalso | lia].
    assert (He0 : e0 <= emin).
    { assert (HE0 : E = fexp (0 + e0)) by (unfold E; rewrite Z; reflexivity).
      pose proof (fexp_spec (0 + e0)) as F. pose proof prec_val. lia. }
    assert (HNlt : N < D).
    { pose proof (Z.div_mod N D ltac:(lia)). pose proof (Z.mod_pos_bound N D HD). nia. }
    assert (inject_Z N / inject_Z D < 1)%Q.
    { apply Qlt_shift_div_r; [assumption | ]. rewrite Qmult_1_l, <- Zlt_Qlt. assumption. }
    assert (inject_Z N / inject_Z D * pow2 e0 < pow2 e0)%Q.
    { setoid_replace (pow2 e0) with (1 * pow2 e0)%Q at 2 by ring.
      apply Qmult_lt_compat_r; assumption. }
    assert (pow2 e0 <= pow2 (Z.pos (digits2_pos mr) - 1 + er))%Q
      by (apply pow2_le; lia).
    lra. }
  destruct (quotient_magnitude N D e0 HD Hq) as [Q1 Q2].
  assert (HEr : er <= E).
  { assert (Z.pos (digits2_pos mr) - 1 + er < Zdigits2 (N / D) + e0).
    { apply pow2_lt_inv_Q. eapply Qle_lt_trans; [exact R1 | ].
      eapply Qle_lt_trans; [exact HV | exact Q2]. }
    rewrite <- Cr. apply fexp_mono. lia. }
  destruct (Z.eq_dec E er) as [Heq | Hne].
  - exists (Z.pos mr). rewrite <- Heq in HV |- *. split; [apply Qle_refl | ].
    apply (proj1 (proj2 (scaled_to_Z N D e0 E (Z.pos mr) HD HE))). exact HV.
  - exists (2 ^ (prec - 1)).
    assert (HEn : E = Zdigits2 (N / D) + e0 - prec)
      by (unfold E in *; rewrite fexp_spec in *; lia).
    split.
    + apply Qle_trans with (inject_Z (2 ^ prec) * pow2 er)%Q.
      { apply Qmult_le_compat_r; [rewrite <- Zle_Qle; lia | ].
        apply Qlt_le_weak, pow2_gt0. }
      rewrite <- !pow2_inject by (rewrite prec_val; lia). rewrite <- !pow2_add.
      apply pow2_le. lia.
    + apply (proj1 (proj2 (scaled_to_Z N D e0 E (2 ^ (prec - 1)) HD HE))).
      rewrite <- pow2_inject by (rewrite prec_val; lia). rewrite <- pow2_add.
      replace (prec - 1 + E) with (Zdigits2 (N / D) - 1 + e0) by lia. exact Q1.
Qed.

Lemma doubled_to_Z (N D e0 E k : Z) :
  0 < D -> e0 <= E ->
  let V := (inject_Z N / inject_Z D * pow2 e0)%Q in
  (2 * N <= k * (D * 2 ^ (E - e0)) -> (2 * V <= inject_Z k * pow2 E)%Q) /\
  (k * (D * 2 ^ (E - e0)) <= 2 * N -> (inject_Z k * pow2 E <= 2 * V)%Q).
Proof.
  intros HD HE V.
  destruct (scaled_to_Z (2 * N) D e0 E k HD HE) as [S1 S2].
  pose proof (inject_Z_pos D HD) as Hd.
  assert (HV : (inject_Z (2 * N) / inject_Z D * pow2 e0 == 2 * V)%Q).
  { unfold V. rewrite inject_Z_mult. change (inject_Z 2) with 2%Q. field. lra. }
  rewrite HV in S1, S2. split; intros H; [apply S1 | apply S2]; exact H.
Qed.

(** The rounding of [v] is at least as near to [v] as any double on the
    same side, and lies between [v] and that double. *)
Theorem rounds_to_above (v : Q) (r s : number) :
  rounds_to v r -> wf s -> positive_number s = true ->
  (v <= value s)%Q ->
  (value r <= value s /\ 2 * v <= value s + value r)%Q.
Proof.
  intros (N & D & e0 & HD & HN & HE & HM & HV & Vr & Wr & Pr) Ws Ps H.
  cbv zeta in HE, HM, Vr.
  set (E := fexp (Zdigits2 (N / D) + e0)) in *.
  set (D' := D * 2 ^ (E - e0)) in *.
  pose proof (pow2_pos (E - e0) ltac:(lia)) as Hp.
  assert (HD' : 0 < D') by (unfold D'; nia).
  pose proof (pow2_gt0 E) as PE.
  rewrite <- HV in H |- *. rewrite Vr.
  destruct (positive_number_cases s Ps) as [-> | (ms & es & ->)].
  - change (value (S754_zero false)) with 0%Q in *.
    set (V := (inject_Z N / inject_Z D * pow2 e0)%Q) in *.
    assert (HN0 : N <= 0 * D').
    { apply (proj1 (proj1 (scaled_to_Z N D e0 E 0 HD HE))).
      change (inject_Z 0) with 0%Q. fold V. lra. }
    assert (HM0 : rne N D' = 0).
    { replace N with 0 by lia. rewrite rne_exact; [reflexivity | lia | reflexivity]. }
    rewrite HM0. change (inject_Z 0) with 0%Q. split; lra.
  - cbn [value cond_Zopp] in *.
    pose proof (round_le_representable N D e0 false ms es HD HN Ws HE HM H) as L.
    cbv zeta in L. fold E D' in L. split; [exact L | ].
    destruct (grid_above N D e0 ms es HD HN Ws HE H) as (K & QK & HK).
    fold E D' in QK, HK.
    destruct (rne_nearest N D' K HD' HN) as [Nr _]. specialize (Nr HK).
    destruct (doubled_to_Z N D e0 E (K + rne N D') HD HE) as [Dz _].
    cbv zeta in Dz. fold D' in Dz.
    rewrite QK, <- Qmult_plus_distr_l, <- inject_Z_plus. apply Dz. lia.
Qed.

Theorem rounds_to_below (v : Q) (r s : number) :
  rounds_to v r -> wf s -> positive_number s = true ->
  (value s <= v)%Q ->
  (value s <= value r /\ value r + value s <= 2 * v)%Q.
Proof.
  intros (N & D & e0 & HD & HN & HE & HM & HV & Vr & Wr & Pr) Ws Ps H.
  cbv zeta in HE, HM, Vr.
  set (E := fexp (Zdigits2 (N / D) + e0)) in *.
  set (D' := D * 2 ^ (E - e0)) in *.
  pose proof (pow2_pos (E - e0) ltac:(lia)) as Hp.
  assert (HD' : 0 < D') by (unfold D'; nia).
  pose proof (pow2_gt0 E) as PE.
  pose proof (rne_bounds N D' HD' HN) as [[B1 _] _].
  pose proof (Z.div_pos N D' HN HD') as Hq0.
  assert (HM0 : (0 <= inject_Z (rne N D') * pow2 E)%Q).
  { apply Qmult_le_0_compat; [apply inject_Z_nonneg; lia | lra]. }
  rewrite <- HV in H |- *. rewrite Vr.
  destruct (positive_number_cases s Ps) as [-> | (ms & es & ->)].
  - change (value (S754_zero false)) with 0%Q in *. split; [exact HM0 | ].
    destruct (rne_nearest N D' 0 HD' HN) as [_ Nr]. specialize (Nr ltac:(lia)).
    destruct (doubled_to_Z N D e0 E (rne N D') HD HE) as [_ Dz].
    cbv zeta in Dz. fold D' in Dz. specialize (Dz ltac:(lia)). lra.
  - cbn [value cond_Zopp] in *.
    pose proof (round_ge_representable N D e0 false ms es HD HN Ws HE H) as G.
    cbv zeta in G. fold E D' in G. split; [exact G | ].
    destruct (grid_below N D e0 ms es HD HN Ws HE H) as (K & QK & HK).
    fold E D' in QK, HK.
    destruct (rne_nearest N D' K HD' HN) as [_ Nr]. specialize (Nr HK).
    destruct (doubled_to_Z N D e0 E (rne N D' + K) HD HE) as [_ Dz].
    cbv zeta in Dz. fold D' in Dz. specialize (Dz ltac:(lia)).
    rewrite inject_Z_plus, Qmult_plus_distr_l in Dz. lra.
Qed.

(** Rounding is monotone: of two values, the larger does not round to a
    smaller double. *)
Theorem rounds_to_monotone (v1 v2 : Q) (r1 r2 : number) :
  rounds_to v1 r1 -> rounds_to v2 r2 ->
  (v1 <= v2)%Q -> (value r1 <= value r2)%Q \/ (v2 <= v1)%Q.
Proof.
  intros R1 R2 H.
  assert (W1 : wf r1 /\ positive_number r1 = true).
  { destruct R1 as (N & D & e0 & _ & _ & _ & _ & _ & _ & W & P). auto. }
  assert (W2 : wf r2 /\ positive_number r2 = true).
  { destruct R2 as (N & D & e0 & _ & _ & _ & _ & _ & _ & W & P). auto. }
  destruct W1 as [W1 P1]. destruct W2 as [W2 P2].
  destruct (Qlt_le_dec (value r2) v1) as [A | A].
  - destruct (Qlt_le_dec v2 (value r1)) as [B | B].
    + right.
      destruct (rounds_to_below v1 r1 r2 R1 W2 P2 (Qlt_le_weak _ _ A)) as [_ C1].
      destruct (rounds_to_above v2 r2 r1 R2 W1 P1 (Qlt_le_weak _ _ B)) as [_ C2].
      lra.
    + left. apply (rounds_to_below v2 r2 r1 R2 W1 P1 B).
  - left. apply (rounds_to_above v1 r1 r2 R1 W2 P2 A).
Qed.

(** *** The operations round their exact results *)

Lemma rounds_to_rounded (N D e0 : Z) (v : Q) :
  0 < D -> 0 <= N ->
  let E := fexp (Zdigits2 (N / D) + e0) in
  let M := rne N (D * 2 ^ (E - e0)) in
  e0 <= E -> 0 <= M <= 2 ^ prec ->
  (0 < M < 2 ^ prec -> fexp (Zdigits2 M + E) = E) ->
  (inject_Z N / inject_Z D * pow2 e0 == v)%Q ->
  isFinite (rounded false M E) = true ->
  rounds_to v (rounded false M E).
Proof.
  intros HD HN E M HE HM Hc HV F.
  exists N, D, e0. split; [exact HD | split; [exact HN | ]]. cbv zeta. fold E. fold M.
  split; [exact HE | split; [apply HM | split; [exact HV | ]]].
  split; [rewrite (value_rounded false M E HM F); reflexivity | ].
  split; [apply rounded_wf; [apply fexp_ge_emin | assumption | assumption] | ].
  apply rounded_positive; [apply HM | exact F].
Qed.

Lemma rounds_to_self (y : number) :
  wf y -> positive_number y = true -> rounds_to (value y) y.
Proof.
  intros Wy Py. destruct (positive_number_cases y Py) as [-> | (m & e & ->)].
  - exists 0, 1, emin. split; [lia | split; [lia | ]]. cbv zeta.
    assert (HE : fexp (Zdigits2 (0 / 1) + emin) = emin).
    { rewrite fexp_spec. cbn [Z.div Z.div_eucl fst Zdigits2]. pose proof prec_val. lia. }
    rewrite HE, Z.sub_diag.
    assert (HM : rne 0 (1 * 2 ^ 0) = 0) by reflexivity. rewrite HM.
    split; [lia | split; [rewrite prec_val; lia | ]].
    split; [cbn [value]; change (inject_Z 0) with 0%Q; unfold Qdiv; ring | ].
    split; [cbn [value]; change (inject_Z 0) with 0%Q; ring | ].
    split; reflexivity.
  - pose proof (wf_finite_inv _ _ _ Wy) as [Cy _].
    pose proof (mantissa_bounds _ _ _ Wy) as [Uy _].
    exists (Z.pos m), 1, e. split; [lia | split; [lia | ]]. cbv zeta.
    rewrite Z.div_1_r. cbn [Zdigits2]. rewrite Cy, Z.sub_diag.
    change (1 * 2 ^ 0) with 1. rewrite rne_one.
    split; [lia | split; [lia | ]].
    split; [cbn [value cond_Zopp]; change (inject_Z 1) with 1%Q; field | ].
    split; [reflexivity | split; [exact Wy | reflexivity]].
Qed.

Lemma rounds_to_value (v w : Q) (r : number) :
  (v == w)%Q -> rounds_to v r -> rounds_to w r.
Proof.
  intros H (N & D & e0 & HD & HN & HE & HM & HV & R).
  exists N, D, e0. split; [exact HD | split; [exact HN | ]].
  split; [exact HE | split; [exact HM | split; [ | exact R]]].
  rewrite HV. exact H.
Qed.

Theorem div_rounds_to (x : number) (mc : positive) (ec : Z) :
  wf x -> positive_number x = true ->
  isFinite (div x (S754_finite false mc ec)) = true ->
  rounds_to (value x / value (S754_finite false mc ec))
            (div x (S754_finite false mc ec)).
Proof.
  intros Wx Px F. pose proof (finite_value_pos mc ec) as Pc.
  destruct (positive_number_cases x Px) as [-> | (mx & ex & ->)].
  - apply (rounds_to_value (value (S754_zero false)));
      [cbn [value]; unfold Qdiv; ring | ].
    apply (rounds_to_self (S754_zero false)); reflexivity.
  - destruct (div_rounded false false mx mc ex ec) as (Hm & HM & Hc & He').
    cbv zeta in Hm, HM, Hc, He'. cbn [xorb] in Hm. rewrite Hm in F |- *.
    set (e' := Z.min (fexp (Zdigits2 (Z.pos mx) + ex - (Zdigits2 (Z.pos mc) + ec)))
                     (ex - ec)) in *.
    set (m' := Z.pos mx * 2 ^ (ex - ec - e')) in *.
    assert (Hs : 0 <= ex - ec - e') by (unfold e'; lia).
    pose proof (pow2_pos _ Hs) as Hp.
    apply (rounds_to_rounded m' (Z.pos mc) e'); try assumption;
      [lia | unfold m'; nia | ].
    unfold m'. cbn [value cond_Zopp].
    rewrite inject_Z_mult, <- pow2_inject by assumption.
    assert (Hsplit : (pow2 ex == pow2 (ex - ec - e') * pow2 e' * pow2 ec)%Q).
    { rewrite <- !pow2_add. replace (ex - ec - e' + e' + ec) with ex by lia.
      reflexivity. }
    rewrite Hsplit.
    pose proof (pow2_gt0 ec). pose proof (inject_Z_pos (Z.pos mc) ltac:(lia)).
    field. split; lra.
Qed.

Theorem mul_rounds_to (x k : number) :
  wf x -> wf k -> positive_number x = true -> positive_number k = true ->
  isFinite (mul x k) = true ->
  rounds_to (value x * value k) (mul x k).
Proof.
  intros Wx Wk Px Pk F.
  destruct (positive_number_cases x Px) as [-> | (mx & ex & ->)];
    destruct (positive_number_cases k Pk) as [-> | (mk & ek & ->)];
    try (apply (rounds_to_value (value (S754_zero false)));
         [cbn [value]; ring | apply (rounds_to_self (S754_zero false)); reflexivity]).
  destruct (mul_rounded false false mx mk ex ek Wx Wk) as (Hm & HM & Hc).
  cbv zeta in Hm, HM, Hc. cbn [xorb] in Hm. rewrite Hm in F |- *.
  pose proof (rounds_to_rounded (Z.pos (mx * mk)) 1 (ex + ek)
                (value (S754_finite false mx ex) * value (S754_finite false mk ek))
                ltac:(lia) ltac:(lia)) as R.
  cbv zeta in R. rewrite Z.div_1_r, Z.mul_1_l in R.
  apply R; try assumption.
  - apply (mul_exponent_ok false false mx mk ex ek Wx Wk).
  - cbn [value cond_Zopp]. rewrite Pos2Z.inj_mul, inject_Z_mult, pow2_add.
    change (inject_Z 1) with 1%Q. field.
Qed.

Lemma binary_round_rounds_to (p : positive) (e : Z) (v : Q) :
  (inject_Z (Z.pos p) * pow2 e == v)%Q ->
  isFinite (binary_round prec emax false p e) = true ->
  rounds_to v (binary_round prec emax false p e).
Proof.
  intros V F.
  destruct (binary_round_rounded false p e) as (Hr & HM & Hc). cbv zeta in Hr, HM, Hc.
  destruct (binary_round_value p e) as (HN & Hz & HE & HV). cbv zeta in HN, Hz, HE, HV.
  rewrite Hr in F |- *.
  pose proof (rounds_to_rounded _ 1 (Z.min e (fexp (Z.pos (digits2_pos p) + e))) v
                ltac:(lia) HN) as R.
  cbv zeta in R. rewrite HE, Z.mul_1_l in R.
  apply R; try assumption. rewrite HV. exact V.
Qed.

Theorem add_rounds_to (x y : number) :
  wf x -> wf y -> positive_number x = true -> positive_number y = true ->
  isFinite (add x y) = true ->
  rounds_to (value x + value y) (add x y).
Proof.
  intros Wx Wy Px Py F.
  destruct (positive_number_cases x Px) as [-> | (mx & ex & ->)];
    destruct (positive_number_cases y Py) as [-> | (my & ey & ->)].
  - apply (rounds_to_value (value (S754_zero false))); [cbn [value]; ring | ].
    apply (rounds_to_self (S754_zero false)); reflexivity.
  - apply (rounds_to_value (value (S754_finite false my ey)));
      [cbn [value]; ring | ].
    apply (rounds_to_self (S754_finite false my ey)); [exact Wy | reflexivity].
  - apply (rounds_to_value (value (S754_finite false mx ex)));
      [cbn [value]; ring | ].
    apply (rounds_to_self (S754_finite false mx ex)); [exact Wx | reflexivity].
  - revert F. unfold add. cbn [SFadd cond_Zopp].
    set (ez := Z.min ex ey) in *.
    pose proof (shl_align_spec mx ex ez) as [_ HA].
    pose proof (shl_align_spec my ey ez) as [_ HB].
    replace (Z.min ex ez) with ez in HA by (unfold ez; lia).
    replace (Z.min ey ez) with ez in HB by (unfold ez; lia).
    pose proof (value_aligned mx ex ez ltac:(unfold ez; lia)) as Vx.
    pose proof (value_aligned my ey ez ltac:(unfold ez; lia)) as Vy.
    rewrite <- HA in Vx. rewrite <- HB in Vy.
    pose proof (Pos2Z.is_pos (fst (shl_align mx ex ez))) as PA.
    pose proof (Pos2Z.is_pos (fst (shl_align my ey ez))) as PB.
    set (A := Z.pos (fst (shl_align mx ex ez))) in *.
    set (B := Z.pos (fst (shl_align my ey ez))) in *.
    assert (Vs : (inject_Z (A + B) * pow2 ez ==
                  value (S754_finite false mx ex) + value (S754_finite false my ey))%Q).
    { rewrite inject_Z_plus, Vx, Vy. ring. }
    destruct (A + B) as [ | p | p] eqn:Hp; [lia | | lia].
    cbn [binary_normalize]. intros F.
    apply binary_round_rounds_to; assumption.
Qed.

Theorem sub_rounds_to (x y : number) :
  wf x -> wf y -> positive_number x = true -> positive_number y = true ->
  positive_number (sub x y) = true ->
  rounds_to (value x - value y) (sub x y).
Proof.
  intros Wx Wy Px Py P.
  destruct (positive_number_cases x Px) as [-> | (mx & ex & ->)];
    destruct (positive_number_cases y Py) as [-> | (my & ey & ->)].
  - apply (rounds_to_value (value (S754_zero false))); [cbn [value]; ring | ].
    apply (rounds_to_self (S754_zero false)); reflexivity.
  - revert P. unfold sub. cbn [SFsub SFopp]. discriminate.
  - apply (rounds_to_value (value (S754_finite false mx ex)));
      [cbn [value]; ring | ].
    apply (rounds_to_self (S754_finite false mx ex)); [exact Wx | reflexivity].
  - revert P. unfold sub. cbn [SFsub cond_Zopp].
    set (ez := Z.min ex ey) in *.
    pose proof (shl_align_spec mx ex ez) as [_ HA].
    pose proof (shl_align_spec my ey ez) as [_ HB].
    replace (Z.min ex ez) with ez in HA by (unfold ez; lia).
    replace (Z.min ey ez) with ez in HB by (unfold ez; lia).
    pose proof (value_aligned mx ex ez ltac:(unfold ez; lia)) as Vx.
    pose proof (value_aligned my ey ez ltac:(unfold ez; lia)) as Vy.
    rewrite <- HA in Vx. rewrite <- HB in Vy.
    set (A := Z.pos (fst (shl_align mx ex ez))) in *.
    set (B := Z.pos (fst (shl_align my ey ez))) in *.
    assert (Vs : (inject_Z (A - B) * pow2 ez ==
                  value (S754_finite false mx ex) - value (S754_finite false my ey))%Q).
    { unfold Z.sub. rewrite inject_Z_plus, inject_Z_opp, Vx, Vy. ring. }
    destruct (A - B) as [ | p | p] eqn:Hp; cbn [binary_normalize]; intros P.
    + apply (rounds_to_value (value (S754_zero false)));
        [rewrite <- Vs; cbn [value]; change (inject_Z 0) with 0%Q; ring | ].
      apply (rounds_to_self (S754_zero false)); reflexivity.
    + apply binary_round_rounds_to; [exact Vs | ].
      revert P. destruct (binary_round _ _ _ _ _) as [[ | ] | | | [ | ] m e];
        try discriminate; reflexivity.
    + exfalso. destruct (binary_round_rounded true p ez) as (Hr & HM & _).
      rewrite Hr in P. revert P. unfold rounded.
      destruct (rne _ _) as [ | m | m]; try discriminate.
      destruct (_ <? _); destruct (_ <=? _); discriminate.
Qed.

(** *** Monotone operations *)

Lemma monotone_or_equal (v1 v2 : Q) (r1 r2 : number) :
  rounds_to v1 r1 -> rounds_to v2 r2 -> (v1 <= v2)%Q ->
  ((v2 <= v1)%Q -> r1 = r2) -> (value r1 <= value r2)%Q.
Proof.
  intros R1 R2 H Heq.
  destruct (rounds_to_monotone v1 v2 r1 r2 R1 R2 H) as [L | L]; [exact L | ].
  rewrite (Heq L). apply Qle_refl.
Qed.

Lemma same_value (x x' : number) :
  wf x -> wf x' -> positive_number x = true -> positive_number x' = true ->
  (value x <= value x')%Q -> (value x' <= value x)%Q -> x = x'.
Proof.
  intros Wx Wx' Px Px' H1 H2. apply value_inj; try assumption.
  apply Qle_antisym; assumption.
Qed.

Theorem add_monotone (x x' y : number) :
  wf x -> wf x' -> wf y ->
  positive_number x = true -> positive_number x' = true ->
  positive_number y = true ->
  (value x <= value x')%Q ->
  isFinite (add x y) = true -> isFinite (add x' y) = true ->
  (value (add x y) <= value (add x' y))%Q.
Proof.
  intros Wx Wx' Wy Px Px' Py H F F'.
  apply (monotone_or_equal (value x + value y) (value x' + value y)).
  - apply add_rounds_to; assumption.
  - apply add_rounds_to; assumption.
  - lra.
  - intros L. rewrite (same_value x x' Wx Wx' Px Px' H ltac:(lra)). reflexivity.
Qed.

Theorem mul_monotone (x x' k : number) :
  wf x -> wf x' -> wf k ->
  positive_number x = true -> positive_number x' = true ->
  positive_number k = true ->
  (value x <= value x')%Q ->
  isFinite (mul x k) = true -> isFinite (mul x' k) = true ->
  (value (mul x k) <= value (mul x' k))%Q.
Proof.
  intros Wx Wx' Wk Px Px' Pk H F F'.
  pose proof (value_nonneg _ Pk) as Nk.
  apply (monotone_or_equal (value x * value k) (value x' * value k)).
  - apply mul_rounds_to; assumption.
  - apply mul_rounds_to; assumption.
  - nra.
  - intros L. destruct (positive_number_cases k Pk) as [-> | (mk & ek & ->)].
    + destruct (positive_number_cases x Px) as [-> | (m & e & ->)];
        destruct (positive_number_cases x' Px') as [-> | (m' & e' & ->)];
        reflexivity.
    + pose proof (finite_value_pos mk ek) as Pv.
      rewrite (same_value x x' Wx Wx' Px Px' H ltac:(nra)). reflexivity.
Qed.

Theorem div_monotone (x x' : number) (mk : positive) (ek : Z) :
  wf x -> wf x' ->
  positive_number x = true -> positive_number x' = true ->
  (value x <= value x')%Q ->
  let k := S754_finite false mk ek in
  isFinite (div x k) = true -> isFinite (div x' k) = true ->
  (value (div x k) <= value (div x' k))%Q.
Proof.
  intros Wx Wx' Px Px' H k F F'.
  pose proof (finite_value_pos mk ek) as Pv. fold k in Pv.
  assert (Hi : (0 < / value k)%Q) by (apply Qinv_lt_0_compat; exact Pv).
  apply (monotone_or_equal (value x / value k) (value x' / value k)).
  - apply div_rounds_to; assumption.
  - apply div_rounds_to; assumption.
  - unfold Qdiv. nra.
  - intros L. unfold Qdiv in L.
    rewrite (same_value x x' Wx Wx' Px Px' H ltac:(nra)). reflexivity.
Qed.

Theorem sub_monotone_l (x x' y : number) :
  wf x -> wf x' -> wf y ->
  positive_number x = true -> positive_number x' = true ->
  positive_number y = true ->
  (value x <= value x')%Q ->
  positive_number (sub x y) = true -> positive_number (sub x' y) = true ->
  (value (sub x y) <= value (sub x' y))%Q.
Proof.
  intros Wx Wx' Wy Px Px' Py H P P'.
  apply (monotone_or_equal (value x - value y) (value x' - value y)).
  - apply sub_rounds_to; assumption.
  - apply sub_rounds_to; assumption.
  - lra.
  - intros L. rewrite (same_value x x' Wx Wx' Px Px' H ltac:(lra)). reflexivity.
Qed.

Theorem sub_monotone_r (x y y' : number) :
  wf x -> wf y -> wf y' ->
  positive_number x = true -> positive_number y = true ->
  positive_number y' = true ->
  (value y <= value y')%Q ->
  positive_number (sub x y) = true -> positive_number (sub x y') = true ->
  (value (sub x y') <= value (sub x y))%Q.
Proof.
  intros Wx Wy Wy' Px Py Py' H P P'.
  apply (monotone_or_equal (value x - value y') (value x - value y)).
  - apply sub_rounds_to; assumption.
  - apply sub_rounds_to; assumption.
  - lra.
  - intros L. rewrite (same_value y y' Wy Wy' Py Py' H ltac:(lra)). reflexivity.
Qed.

(** *** Rounding is to a nearest double *)

Lemma rounds_to_nonneg (v : Q) (r : number) : rounds_to v r -> (0 <= v)%Q.
Proof.
  intros (N & D & e0 & HD & HN & _ & _ & HV & _). rewrite <- HV.
  pose proof (inject_Z_pos D HD). pose proof (inject_Z_nonneg N HN).
  pose proof (pow2_gt0 e0).
  apply Qmult_le_0_compat; [ | lra].
  apply Qle_shift_div_l; [assumption | lra].
Qed.

Lemma rounds_to_nearest_nonneg (v : Q) (r s : number) :
  rounds_to v r -> wf s -> positive_number s = true ->
  (Qabs (value r - v) <= Qabs (value s - v))%Q.
Proof.
  intros R Ws Ps. destruct (Qlt_le_dec (value s) v) as [L | L].
  - destruct (rounds_to_below v r s R Ws Ps (Qlt_le_weak _ _ L)) as [B1 B2].
    rewrite (Qabs_neg (value s - v)) by lra.
    apply Qabs_Qle_condition. split; lra.
  - destruct (rounds_to_above v r s R Ws Ps L) as [B1 B2].
    rewrite (Qabs_pos (value s - v)) by lra.
    apply Qabs_Qle_condition. split; lra.
Qed.

(** No finite double is nearer to [v] than the rounding of [v]. *)
Theorem rounds_to_nearest (v : Q) (r s : number) :
  rounds_to v r -> wf s -> isFinite s = true ->
  (Qabs (value r - v) <= Qabs (value s - v))%Q.
Proof.
  intros R Ws Fs. destruct (positive_number s) eqn:Ps.
  - apply rounds_to_nearest_nonneg; assumption.
  - pose proof (rounds_to_nonneg v r R) as Hv.
    pose proof (rounds_to_nearest_nonneg v r (S754_zero false) R eq_refl eq_refl) as Z.
    change (value (S754_zero false)) with 0%Q in Z.
    rewrite (Qabs_neg (0 - v)) in Z by lra.
    assert (Hs : (value s <= 0)%Q).
    { destruct s as [[ | ] | [ | ] | | [ | ] m e]; try discriminate;
        cbn [value]; try lra.
      cbn [cond_Zopp]. pose proof (pow2_gt0 e).
      pose proof (inject_Z_pos (Z.pos m) ltac:(lia)).
      rewrite inject_Z_opp.
      assert (0 < inject_Z (Z.pos m) * pow2 e)%Q by (apply Qmult_lt_0_compat; assumption).
      lra. }
    rewrite (Qabs_neg (value s - v)) by lra. lra.
Qed.

End FloatFacts.

(** * Facts about the Duration type *)

Import FloatFacts.

Local Open Scope Z_scope.

Lemma positive_number_finite (x : number) :
  positive_number x = true ->
  isFinite x = true /\ Num.ge x (of_Z 0) = true /\ Num.lt x (of_Z 0) = false.
Proof.
  destruct x as [[ | ] | | | [ | ] m e]; try discriminate; intros _; repeat split.
Qed.

Lemma toPositive_returns (x y : number) :
  toPositive x = Return y -> positive_number y = true.
Proof.
  unfold toPositive.
  destruct x as [[ | ] | [ | ] | | [ | ] m e]; cbn; intros H;
    inversion H; reflexivity.
Qed.

Lemma toPositive_wf (x y : number) : wf x -> toPositive x = Return y -> wf y.
Proof.
  unfold toPositive.
  destruct x as [[ | ] | [ | ] | | [ | ] m e]; cbn; intros Hx H;
    inversion H; subst; try reflexivity; assumption.
Qed.

Lemma toPositive_throws (x : number) :
  isFinite x = false -> toPositive x = Throw not_finite_error.
Proof. unfold toPositive. intros ->. reflexivity. Qed.

(** Every operation of the interface has the shape
    [new Duration(toPositive(raw))]. *)
Lemma construct_inv (raw : number) (d : Duration) :
  (n <- toPositive raw ;; Return (new_Duration n)) = Return d ->
  toPositive raw = Return (nanoseconds d).
Proof.
  destruct (toPositive raw) as [n | e]; cbn; intros H; inversion H; reflexivity.
Qed.

Lemma scale_wf (u : time_unit) : wf (scale u).
Proof. destruct u; vm_compute; reflexivity. Qed.

Lemma Math_max_cases (x y : number) :
  positive_number x = true -> positive_number y = true ->
  Math_max x y = (if Num.lt x y then y else x).
Proof.
  intros Px Py.
  destruct (positive_number_cases x Px) as [-> | (mx & ex & ->)];
    destruct (positive_number_cases y Py) as [-> | (my & ey & ->)];
    reflexivity.
Qed.

Lemma Math_min_cases (x y : number) :
  positive_number x = true -> positive_number y = true ->
  Math_min x y = (if Num.lt y x then y else x).
Proof.
  intros Px Py.
  destruct (positive_number_cases x Px) as [-> | (mx & ex & ->)];
    destruct (positive_number_cases y Py) as [-> | (my & ey & ->)];
    reflexivity.
Qed.

(** What [clamp] hands to the validator. *)
Lemma clamp_raw (x lo hi : number) :
  positive_number x = true -> positive_number lo = true ->
  positive_number hi = true ->
  Math_min (Math_max x lo) hi =
  (if Num.lt x lo then (if Num.lt hi lo then hi else lo)
   else if Num.lt hi x then hi else x).
Proof.
  intros Px Pl Ph. rewrite (Math_max_cases x lo Px Pl).
  destruct (Num.lt x lo); apply Math_min_cases; assumption.
Qed.

Lemma toPositive_positive (x : number) :
  positive_number x = true -> toPositive x = Return x.
Proof.
  intros Px. destruct (positive_number_cases x Px) as [-> | (mx & ex & ->)];
    reflexivity.
Qed.

(** A count that went through the validator is a [PositiveNumber], and
    well formed when the raw value is. *)
Ltac validated H :=
  apply construct_inv in H;
  split; [eauto using toPositive_returns | eapply toPositive_wf; [ | exact H]].

(** The invariant of the type, with well-formedness of the double. *)
Theorem reachable_inv (d : Duration) :
  reachable d -> positive_number (nanoseconds d) = true /\ wf (nanoseconds d).
Proof.
  induction 1 as
    [ | x d Hx H | x d Hx H | x d Hx H | x d Hx H | x d Hx H | x d Hx H
      | a b d Ha [Pa Wa] Hb [Pb Wb] H | a b d Ha [Pa Wa] Hb [Pb Wb] H
      | a k d Ha [Pa Wa] Hk H | a k d Ha [Pa Wa] Hk H
      | a lo hi d Ha [Pa Wa] Hlo [Pl Wl] Hhi [Ph Wh] H ].
  - split; reflexivity.
  - validated H. assumption.
  - validated H. apply mul_wf; [assumption | apply (scale_wf Micro)].
  - validated H. apply mul_wf; [assumption | apply (scale_wf Milli)].
  - validated H. apply mul_wf; [assumption | apply (scale_wf Second)].
  - validated H. apply mul_wf; [assumption | apply (scale_wf Minute)].
  - validated H. apply mul_wf; [assumption | apply (scale_wf Hour)].
  - validated H. apply add_wf; assumption.
  - validated H. apply sub_wf; assumption.
  - validated H. apply mul_wf; assumption.
  - unfold Duration.div in H. destruct (strict_eq k (of_Z 0)); [discriminate | ].
    validated H. apply div_wf; assumption.
  - unfold Duration.clamp in H. destruct (Duration.gt lo hi); [discriminate | ].
    validated H. rewrite clamp_raw by assumption.
    destruct (Num.lt _ _); destruct (Num.lt _ _); assumption.
Qed.

(** * Properties of the specification *)

(** C1. Every Duration reachable through the public interface (the six unit
    constructors, [ZERO], [add], [sub], [mul], [div] and [clamp]) has a
    nanosecond count, as [asNanos] returns it, that is finite and not below
    zero: each operation returns such a count or throws. *)
Theorem C1_count_finite_nonnegative (d : Duration) :
  reachable d ->
  isFinite (Duration.asNanos d) = true /\
  Num.ge (Duration.asNanos d) (of_Z 0) = true.
Proof.
  intros H. destruct (reachable_inv d H) as [P _].
  destruct (positive_number_finite _ P) as (F & G & _). split; assumption.
Qed.

Lemma C1_witness :
  let d := new_Duration (of_Z 2500000000) in
  reachable d /\
  isFinite (Duration.asNanos d) = true /\
  Num.ge (Duration.asNanos d) (of_Z 0) = true.
Proof.
  intros d.
  assert (R : reachable d).
  { apply (reach_add (new_Duration (of_Z 2000000000))
                     (new_Duration (of_Z 500000000))).
    - apply (reach_fromSecs (of_Z 2)); vm_compute; reflexivity.
    - apply (reach_fromMillis (of_Z 500)); vm_compute; reflexivity.
    - vm_compute; reflexivity. }
  split; [exact R | exact (C1_count_finite_nonnegative d R)].
Defined.

(** ** Comparisons of non-negative doubles *)

Lemma compare_finite (m1 m2 : positive) (e1 e2 : Z) :
  SFcompare (S754_finite false m1 e1) (S754_finite false m2 e2) =
  Some match e1 ?= e2 with
       | Lt => Lt
       | Gt => Gt
       | Eq => (m1 ?= m2)%positive
       end.
Proof. reflexivity. Qed.

Lemma lt_false_le (x y : number) :
  positive_number x = true -> positive_number y = true ->
  Num.lt y x = false -> Num.le x y = true.
Proof.
  intros Px Py.
  destruct (positive_number_cases x Px) as [-> | (mx & ex & ->)];
    destruct (positive_number_cases y Py) as [-> | (my & ey & ->)];
    try (cbn; congruence).
  unfold Num.lt, Num.le, SFltb, SFleb. rewrite !compare_finite.
  rewrite (Z.compare_antisym ex ey), (Pos.compare_antisym mx my).
  destruct (ex ?= ey); cbn; try congruence.
  destruct (mx ?= my)%positive; cbn; congruence.
Qed.

Lemma le_refl (x : number) : positive_number x = true -> Num.le x x = true.
Proof.
  intros Px. destruct (positive_number_cases x Px) as [-> | (mx & ex & ->)];
    [reflexivity | ].
  unfold Num.le, SFleb. rewrite compare_finite, Z.compare_refl, Pos.compare_refl.
  reflexivity.
Qed.

Lemma strict_eq_refl (x : number) : isFinite x = true -> strict_eq x x = true.
Proof.
  destruct x as [sx | sx | | sx mx ex]; try discriminate; intros _; [reflexivity | ].
  unfold strict_eq, SFeqb. cbn [SFcompare].
  destruct sx; rewrite Z.compare_refl;
    change (Pos.compare_cont Eq mx mx) with (mx ?= mx)%positive;
    rewrite Pos.compare_refl; reflexivity.
Qed.


(** C2. The validator, and [fromNanos] whose scale factor is 1: a non-finite
    input (NaN, +Infinity, -Infinity) throws the "Value must be finite"
    error and yields no value; a finite negative input yields the count 0
    without error; a finite non-negative input yields a count equal to the
    input (the very same double, except that [-0] is stored as [+0], which
    [===] does not tell apart). *)
Theorem C2_validator (x : number) :
  (isFinite x = false ->
   toPositive x = Throw not_finite_error /\
   Duration.fromNanos x = Throw not_finite_error) /\
  (isFinite x = true -> Num.lt x (of_Z 0) = true ->
   toPositive x = Return (of_Z 0) /\
   Duration.fromNanos x = Return (new_Duration (of_Z 0))) /\
  (isFinite x = true -> Num.ge x (of_Z 0) = true ->
   exists d, Duration.fromNanos x = Return d /\
             strict_eq (Duration.asNanos d) x = true /\
             (x <> neg_zero -> Duration.asNanos d = x)).
Proof.
  repeat split.
  - apply toPositive_throws; assumption.
  - unfold Duration.fromNanos. rewrite toPositive_throws by assumption. reflexivity.
  - destruct x as [[ | ] | [ | ] | | [ | ] m e]; try discriminate; reflexivity.
  - destruct x as [[ | ] | [ | ] | | [ | ] m e]; try discriminate; reflexivity.
  - intros F G.
    destruct x as [[ | ] | [ | ] | | [ | ] m e]; try discriminate.
    + exists (new_Duration pos_zero). repeat split. intros N; contradiction N; reflexivity.
    + exists (new_Duration pos_zero). repeat split.
    + exists (new_Duration (S754_finite false m e)). repeat split.
      apply (strict_eq_refl (S754_finite false m e)). reflexivity.
Qed.

Lemma C2_witness :
  (toPositive NaN = Throw not_finite_error /\
   Duration.fromNanos NaN = Throw not_finite_error) /\
  (toPositive Infinity = Throw not_finite_error /\
   Duration.fromNanos Infinity = Throw not_finite_error) /\
  (toPositive (of_Z (-5)) = Return (of_Z 0) /\
   Duration.fromNanos (of_Z (-5)) = Return (new_Duration (of_Z 0))) /\
  (exists d, Duration.fromNanos (of_Z 5) = Return d /\
             strict_eq (Duration.asNanos d) (of_Z 5) = true /\
             (of_Z 5 <> neg_zero -> Duration.asNanos d = of_Z 5)).
Proof.
  split; [ | split; [ | split]].
  - apply (proj1 (C2_validator NaN)). reflexivity.
  - apply (proj1 (C2_validator Infinity)). reflexivity.
  - apply (proj1 (proj2 (C2_validator (of_Z (-5))))); reflexivity.
  - apply (proj2 (proj2 (C2_validator (of_Z 5)))); reflexivity.
Defined.

(** C3. For all Durations [a] and [b], [a.sub(b)] never throws: it returns a
    Duration whose count is the difference of the counts when that
    difference is not below zero, and exactly 0 otherwise; in particular
    [Duration.fromSecs(1).sub(Duration.fromSecs(5)).isZero()] is true. *)
Theorem C3_sub_saturates :
  (forall a b : Duration,
     reachable a -> reachable b ->
     exists d,
       Duration.sub a b = Return d /\
       let diff := Num.sub (nanoseconds a) (nanoseconds b) in
       (Num.ge diff (of_Z 0) = true ->
        strict_eq (Duration.asNanos d) diff = true) /\
       (Num.ge diff (of_Z 0) = false ->
        Duration.asNanos d = of_Z 0)) /\
  (exists a b d,
     Duration.fromSecs (of_Z 1) = Return a /\
     Duration.fromSecs (of_Z 5) = Return b /\
     Duration.sub a b = Return d /\
     Duration.isZero d = true).
Proof.
  split.
  - intros a b Ha Hb.
    destruct (reachable_inv a Ha) as [Pa Wa]. destruct (reachable_inv b Hb) as [Pb Wb].
    pose proof (sub_finite _ _ Wa Wb Pa Pb) as F.
    unfold Duration.sub, toPositive. rewrite F. cbn [negb bind].
    eexists. split; [reflexivity | ]. cbn [Duration.asNanos nanoseconds].
    destruct (Num.sub (nanoseconds a) (nanoseconds b)) as [[ | ] | [ | ] | | [ | ] m e];
      try discriminate; cbn; split; try congruence; try reflexivity.
    intros _. apply (strict_eq_refl (S754_finite false m e)). reflexivity.
  - exists (new_Duration (of_Z 1000000000)), (new_Duration (of_Z 5000000000)),
      Duration.ZERO.
    repeat split.
Qed.

Lemma C3_witness :
  let a := new_Duration (of_Z 1000000000) in
  let b := new_Duration (of_Z 5000000000) in
  reachable a /\ reachable b /\
  exists d,
    Duration.sub a b = Return d /\
    let diff := Num.sub (nanoseconds a) (nanoseconds b) in
    (Num.ge diff (of_Z 0) = true ->
     strict_eq (Duration.asNanos d) diff = true) /\
    (Num.ge diff (of_Z 0) = false -> Duration.asNanos d = of_Z 0).
Proof.
  intros a b.
  assert (Ra : reachable a)
    by (apply (reach_fromSecs (of_Z 1)); vm_compute; reflexivity).
  assert (Rb : reachable b)
    by (apply (reach_fromSecs (of_Z 5)); vm_compute; reflexivity).
  split; [exact Ra | split; [exact Rb | ]].
  exact (proj1 C3_sub_saturates a b Ra Rb).
Defined.

(** ** Division *)

Lemma rounded_negative (M E : Z) :
  toPositive (rounded true M E) =
  if isFinite (rounded true M E) then Return (of_Z 0) else Throw not_finite_error.
Proof.
  unfold rounded. destruct M as [ | m | m]; try reflexivity.
  destruct (_ <? _); destruct (_ <=? _); reflexivity.
Qed.

Lemma div_negative (x k : number) :
  positive_number x = true -> isFinite k = true -> Num.lt k (of_Z 0) = true ->
  toPositive (Num.div x k) =
  if isFinite (Num.div x k) then Return (of_Z 0) else Throw not_finite_error.
Proof.
  intros Px Fk Nk.
  destruct k as [[ | ] | [ | ] | | [ | ] mk ek]; try discriminate.
  destruct (positive_number_cases x Px) as [-> | (mx & ex & ->)]; [reflexivity | ].
  destruct (div_rounded false true mx mk ex ek) as (-> & _).
  apply rounded_negative.
Qed.

(** C5, as the code has it.  [d.div(k)] throws the "Division by zero" error
    exactly when [k] is zero ([+0] or [-0]), whatever the Duration, hence
    before any quotient is computed.  For a finite negative divisor the
    result is the zero Duration when the quotient is finite, and the
    "Value must be finite" error when the quotient overflows.  For every
    other divisor the count is the validated quotient. *)
Theorem C5_div (d : Duration) (k : number) :
  reachable d ->
  (strict_eq k (of_Z 0) = true <->
   Duration.div d k = Throw division_by_zero_error) /\
  (strict_eq k (of_Z 0) = true ->
   forall d' : Duration, Duration.div d' k = Throw division_by_zero_error) /\
  (isFinite k = true -> Num.lt k (of_Z 0) = true ->
   Duration.div d k =
   if isFinite (Num.div (nanoseconds d) k)
   then Return Duration.ZERO else Throw not_finite_error) /\
  (strict_eq k (of_Z 0) = false ->
   Duration.div d k =
   (n <- toPositive (Num.div (nanoseconds d) k) ;; Return (new_Duration n))).
Proof.
  intros Hd. destruct (reachable_inv d Hd) as [Pd Wd].
  split; [ | split; [ | split]].
  - unfold Duration.div. destruct (strict_eq k (of_Z 0)); split; try reflexivity.
    + discriminate.
    + unfold toPositive.
      destruct (negb (isFinite (Num.div (nanoseconds d) k))); discriminate.
  - intros Hk d'. unfold Duration.div. rewrite Hk. reflexivity.
  - intros Fk Nk. unfold Duration.div.
    assert (Hz : strict_eq k (of_Z 0) = false)
      by (destruct k as [[ | ] | [ | ] | | [ | ] mk ek]; try discriminate; reflexivity).
    rewrite Hz, (div_negative _ k Pd Fk Nk).
    destruct (isFinite (Num.div (nanoseconds d) k)); reflexivity.
  - intros Hz. unfold Duration.div. rewrite Hz. reflexivity.
Qed.

Lemma C5_witness :
  let d := new_Duration (of_Z 1000000000) in
  reachable d /\
  Duration.div d (of_Z 0) = Throw division_by_zero_error /\
  Duration.div d (of_Z (-1)) = Return Duration.ZERO /\
  Duration.div d (of_Z 4) = Return (new_Duration (of_Z 250000000)).
Proof.
  intros d.
  assert (R : reachable d)
    by (apply (reach_fromSecs (of_Z 1)); vm_compute; reflexivity).
  split; [exact R | split; [ | split]].
  - apply (proj1 (C5_div d (of_Z 0) R)). reflexivity.
  - rewrite (proj1 (proj2 (proj2 (C5_div d (of_Z (-1)) R)))); reflexivity.
  - rewrite (proj2 (proj2 (proj2 (C5_div d (of_Z 4) R)))); reflexivity.
Defined.

(** C5 as stated fails: with the count 1e308 and the finite negative divisor
    -0.1 the quotient overflows, and [div] throws instead of returning the
    zero Duration. *)
Lemma C5_counterexample :
  let d := new_Duration (of_decimal 1 308) in
  let k := of_decimal (-1) (-1) in
  Duration.fromNanos (of_decimal 1 308) = Return d /\
  isFinite k = true /\ Num.lt k (of_Z 0) = true /\
  Duration.div d k = Throw not_finite_error /\
  Duration.div d k <> Return Duration.ZERO.
Proof.
  repeat split; try (vm_compute; reflexivity).
  vm_compute. discriminate.
Qed.

(** ** Clamp *)

Lemma clamp_result (d lo hi : Duration) :
  reachable d -> reachable lo -> reachable hi ->
  Duration.gt lo hi = false ->
  Duration.clamp d lo hi =
  Return (new_Duration
            (if Duration.lt d lo then nanoseconds lo
             else if Duration.gt d hi then nanoseconds hi
             else nanoseconds d)).
Proof.
  intros Hd Hlo Hhi G.
  destruct (reachable_inv d Hd) as [Pd _].
  destruct (reachable_inv lo Hlo) as [Pl _].
  destruct (reachable_inv hi Hhi) as [Ph _].
  unfold Duration.clamp. rewrite G. rewrite (clamp_raw _ _ _ Pd Pl Ph).
  unfold Duration.gt, Num.gt in G. fold (Num.lt (nanoseconds hi) (nanoseconds lo)) in G.
  rewrite G. unfold Duration.lt, Duration.gt, Num.gt.
  fold (Num.lt (nanoseconds hi) (nanoseconds d)).
  destruct (Num.lt (nanoseconds d) (nanoseconds lo)).
  - rewrite (toPositive_positive _ Pl). reflexivity.
  - destruct (Num.lt (nanoseconds hi) (nanoseconds d)).
    + rewrite (toPositive_positive _ Ph). reflexivity.
    + rewrite (toPositive_positive _ Pd). reflexivity.
Qed.

(** C7. [d.clamp(min, max)] throws the "min must be <= max" error exactly
    when [min.gt(max)]; otherwise it returns a Duration whose count is the
    count of [d] clamped into the inclusive interval from [min] to [max];
    in particular
    [Duration.fromSecs(5).clamp(Duration.fromSecs(1), Duration.fromSecs(3)).asSecs()]
    is 3. *)
Theorem C7_clamp :
  (forall d lo hi : Duration,
     reachable d -> reachable lo -> reachable hi ->
     (Duration.gt lo hi = true ->
      Duration.clamp d lo hi = Throw min_max_error) /\
     (Duration.gt lo hi = false ->
      exists r,
        Duration.clamp d lo hi = Return r /\
        Duration.le lo r = true /\ Duration.le r hi = true /\
        Duration.asNanos r =
        (if Duration.lt d lo then Duration.asNanos lo
         else if Duration.gt d hi then Duration.asNanos hi
         else Duration.asNanos d))) /\
  (exists d lo hi r,
     Duration.fromSecs (of_Z 5) = Return d /\
     Duration.fromSecs (of_Z 1) = Return lo /\
     Duration.fromSecs (of_Z 3) = Return hi /\
     Duration.clamp d lo hi = Return r /\
     Duration.asSecs r = of_Z 3).
Proof.
  split.
  - intros d lo hi Hd Hlo Hhi.
    destruct (reachable_inv d Hd) as [Pd _].
    destruct (reachable_inv lo Hlo) as [Pl _].
    destruct (reachable_inv hi Hhi) as [Ph _].
    split; intros G.
    + unfold Duration.clamp. rewrite G. reflexivity.
    + rewrite (clamp_result d lo hi Hd Hlo Hhi G).
      eexists. split; [reflexivity | ].
      unfold Duration.gt, Num.gt in G.
      fold (Num.lt (nanoseconds hi) (nanoseconds lo)) in G.
      unfold Duration.le, Duration.lt, Duration.gt, Duration.asNanos, Num.gt.
      fold (Num.lt (nanoseconds hi) (nanoseconds d)). cbn [nanoseconds].
      destruct (Num.lt (nanoseconds d) (nanoseconds lo)) eqn:L1;
        [ | destruct (Num.lt (nanoseconds hi) (nanoseconds d)) eqn:L2];
        repeat split; auto using le_refl, lt_false_le.
  - exists (new_Duration (of_Z 5000000000)), (new_Duration (of_Z 1000000000)),
      (new_Duration (of_Z 3000000000)), (new_Duration (of_Z 3000000000)).
    repeat split.
Qed.

Lemma C7_witness :
  let d := new_Duration (of_Z 5000000000) in
  let lo := new_Duration (of_Z 1000000000) in
  let hi := new_Duration (of_Z 3000000000) in
  reachable d /\ reachable lo /\ reachable hi /\
  Duration.gt lo hi = false /\ Duration.gt hi lo = true /\
  Duration.clamp d hi lo = Throw min_max_error /\
  exists r,
    Duration.clamp d lo hi = Return r /\
    Duration.le lo r = true /\ Duration.le r hi = true /\
    Duration.asNanos r =
    (if Duration.lt d lo then Duration.asNanos lo
     else if Duration.gt d hi then Duration.asNanos hi
     else Duration.asNanos d).
Proof.
  intros d lo hi.
  assert (Rd : reachable d)
    by (apply (reach_fromSecs (of_Z 5)); vm_compute; reflexivity).
  assert (Rl : reachable lo)
    by (apply (reach_fromSecs (of_Z 1)); vm_compute; reflexivity).
  assert (Rh : reachable hi)
    by (apply (reach_fromSecs (of_Z 3)); vm_compute; reflexivity).
  split; [exact Rd | split; [exact Rl | split; [exact Rh | ]]].
  split; [reflexivity | split; [reflexivity | split]].
  - apply (proj1 (proj1 C7_clamp d hi lo Rd Rh Rl)). reflexivity.
  - apply (proj2 (proj1 C7_clamp d lo hi Rd Rl Rh)). reflexivity.
Defined.

(** ** Display *)

(** C9, as the code has it: [fromMillis(1500).toString()] is ["1500ms"].
    1500 milliseconds are not a whole number of seconds, so the largest unit
    that divides evenly is the millisecond. *)
Theorem C9_toString_1500_millis :
  exists d,
    Duration.fromMillis (of_Z 1500) = Return d /\
    divides_evenly d Second = false /\
    divides_evenly d Milli = true /\
    Duration.toString d = "1500ms".
Proof.
  exists (new_Duration (of_Z 1500000000)). repeat split.
Qed.

(** C9 as stated fails: the string is not ["1.5s"]. *)
Lemma C9_counterexample :
  exists d,
    Duration.fromMillis (of_Z 1500) = Return d /\
    Duration.toString d <> "1.5s".
Proof.
  exists (new_Duration (of_Z 1500000000)). split; [reflexivity | ].
  vm_compute. discriminate.
Qed.

(** C10. Every Duration whose count is zero, [Duration.ZERO] and
    [fromMillis(0)] among them, prints as ["0h"]: zero leaves no remainder
    for the hour, which is tested first. *)
Theorem C10_zero_prints_0h :
  (forall d : Duration,
     Duration.isZero d = true ->
     divides_evenly d Hour = true /\ Duration.toString d = "0h") /\
  Duration.ZERO_init = Return Duration.ZERO /\
  Duration.toString Duration.ZERO = "0h" /\
  (exists d, Duration.fromMillis (of_Z 0) = Return d /\
             Duration.toString d = "0h").
Proof.
  split; [ | split; [reflexivity | split; [reflexivity | ]]].
  - intros [x] H. unfold Duration.isZero in H. cbn [nanoseconds] in H.
    apply strict_eq_zero in H as [s ->]. destruct s; split; reflexivity.
  - exists Duration.ZERO. split; reflexivity.
Qed.

Lemma C10_witness :
  Duration.isZero Duration.ZERO = true /\
  divides_evenly Duration.ZERO Hour = true /\
  Duration.toString Duration.ZERO = "0h".
Proof.
  split; [reflexivity | ].
  apply (proj1 C10_zero_prints_0h Duration.ZERO). reflexivity.
Defined.

(** ** The "Value must be finite" error *)

Lemma construct_throws (raw : number) :
  (n <- toPositive raw ;; Return (new_Duration n)) = Throw not_finite_error
  <-> isFinite raw = false.
Proof.
  unfold toPositive. destruct (isFinite raw); cbn; split; congruence.
Qed.

Lemma scaled_not_finite (x : number) (u : time_unit) :
  isFinite x = false -> isFinite (Num.mul x (scale u)) = false.
Proof.
  destruct x as [sx | sx | | sx mx ex]; try discriminate; intros _;
    destruct u; reflexivity.
Qed.

(** C4, as the code has it.  An operation throws the "Value must be finite"
    error exactly when the magnitude it hands to the validator is not
    finite: a constructor whose scaled input is not finite (every
    non-finite input is such), a sum in [add] that overflows to infinity, a
    product in [mul] that is not finite (every non-finite factor gives
    one, and a finite factor only by overflow to an infinity), or a quotient
    in [div] by a non-zero divisor that is not finite (a NaN divisor gives
    one).  An infinite divisor does not throw: the quotient is zero.  [sub]
    and [clamp] never throw this error. *)
Theorem C4_not_finite_error :
  (forall x : number,
     Duration.fromNanos x = Throw not_finite_error <-> isFinite x = false) /\
  (forall (u : time_unit) (x : number),
     (from_unit u x = Throw not_finite_error
      <-> isFinite (Num.mul x (scale u)) = false) /\
     (isFinite x = false -> from_unit u x = Throw not_finite_error)) /\
  (forall a b : Duration,
     reachable a -> reachable b ->
     (Duration.add a b = Throw not_finite_error
      <-> Num.add (nanoseconds a) (nanoseconds b) = Infinity) /\
     Duration.sub a b <> Throw not_finite_error) /\
  (forall (a : Duration) (k : number),
     reachable a -> wf k ->
     (Duration.mul a k = Throw not_finite_error
      <-> isFinite (Num.mul (nanoseconds a) k) = false) /\
     (isFinite k = false -> Duration.mul a k = Throw not_finite_error) /\
     (isFinite k = true ->
      Duration.mul a k = Throw not_finite_error ->
      Num.mul (nanoseconds a) k = Infinity \/
      Num.mul (nanoseconds a) k = neg_Infinity) /\
     (Duration.div a k = Throw not_finite_error
      <-> strict_eq k (of_Z 0) = false /\
          isFinite (Num.div (nanoseconds a) k) = false) /\
     (k = NaN -> Duration.div a k = Throw not_finite_error) /\
     (k = Infinity \/ k = neg_Infinity ->
      Duration.div a k = Return Duration.ZERO)) /\
  (forall d lo hi : Duration,
     reachable d -> reachable lo -> reachable hi ->
     Duration.clamp d lo hi <> Throw not_finite_error).
Proof.
  split; [ | split; [ | split; [ | split]]].
  - intros x. apply construct_throws.
  - intros u x. split.
    + destruct u; apply construct_throws.
    + intros F. pose proof (scaled_not_finite x u F) as S.
      destruct u; apply construct_throws; exact S.
  - intros a b Ha Hb.
    destruct (reachable_inv a Ha) as [Pa Wa]. destruct (reachable_inv b Hb) as [Pb Wb].
    split.
    + unfold Duration.add. rewrite construct_throws. split.
      * apply add_overflow; assumption.
      * intros ->. reflexivity.
    + unfold Duration.sub. rewrite construct_throws.
      rewrite (sub_finite _ _ Wa Wb Pa Pb). discriminate.
  - intros a k Ha Wk. destruct (reachable_inv a Ha) as [Pa Wa].
    destruct (positive_number_finite _ Pa) as (Fa & _ & _).
    destruct a as [xa]. cbn [nanoseconds] in *.
    split; [apply construct_throws | ].
    split.
    { intros Fk. apply construct_throws.
      destruct (positive_number_cases _ Pa) as [-> | (m & e & ->)];
        destruct k as [sk | sk | | sk mk ek]; try discriminate; reflexivity. }
    split.
    { intros Fk H. apply construct_throws in H.
      apply mul_overflow; assumption. }
    split.
    { unfold Duration.div. destruct (strict_eq k (of_Z 0)).
      - split; [discriminate | intros [? _]; discriminate].
      - rewrite construct_throws. split; [intros ?; split; auto | intros [_ ?]; assumption]. }
    split.
    { intros ->. unfold Duration.div. cbn [strict_eq SFeqb SFcompare of_Z].
      destruct (positive_number_cases _ Pa) as [-> | (m & e & ->)]; reflexivity. }
    { intros [-> | ->];
        destruct (positive_number_cases _ Pa) as [-> | (m & e & ->)]; reflexivity. }
  - intros d lo hi Hd Hlo Hhi.
    destruct (Duration.gt lo hi) eqn:G.
    + unfold Duration.clamp. rewrite G. discriminate.
    + rewrite (clamp_result d lo hi Hd Hlo Hhi G). discriminate.
Qed.

Lemma C4_witness :
  let big := new_Duration (of_decimal 1 308) in
  reachable big /\
  Duration.fromNanos NaN = Throw not_finite_error /\
  from_unit Hour (of_decimal 1 300) = Throw not_finite_error /\
  Duration.add big big = Throw not_finite_error /\
  Duration.sub big big <> Throw not_finite_error /\
  Duration.mul big (of_Z 10) = Throw not_finite_error /\
  Duration.mul big Infinity = Throw not_finite_error /\
  Duration.div big NaN = Throw not_finite_error /\
  Duration.div big (of_decimal 1 (-1)) = Throw not_finite_error /\
  Duration.div big neg_Infinity = Return Duration.ZERO /\
  Duration.clamp big big big <> Throw not_finite_error.
Proof.
  intros big.
  assert (R : reachable big)
    by (apply (reach_fromNanos (of_decimal 1 308)); vm_compute; reflexivity).
  destruct C4_not_finite_error as (N & U & A & M & C).
  assert (W10 : wf (of_Z 10)) by (vm_compute; reflexivity).
  assert (Winf : wf Infinity) by reflexivity.
  assert (Wninf : wf neg_Infinity) by reflexivity.
  assert (Wnan : wf NaN) by reflexivity.
  assert (Wtenth : wf (of_decimal 1 (-1))) by (vm_compute; reflexivity).
  split; [exact R | ].
  split; [apply N; reflexivity | ].
  split; [apply (proj1 (U Hour (of_decimal 1 300))); vm_compute; reflexivity | ].
  split; [apply (proj1 (A big big R R)); vm_compute; reflexivity | ].
  split; [exact (proj2 (A big big R R)) | ].
  split.
  { apply (proj1 (M big (of_Z 10) R W10)). vm_compute. reflexivity. }
  split.
  { apply (proj1 (proj2 (M big Infinity R Winf))). reflexivity. }
  split.
  { apply (proj1 (proj2 (proj2 (proj2 (proj2 (M big NaN R Wnan)))))).
    reflexivity. }
  split.
  { apply (proj1 (proj2 (proj2 (proj2 (M big (of_decimal 1 (-1)) R Wtenth))))).
    split; vm_compute; reflexivity. }
  split.
  { apply (proj2 (proj2 (proj2 (proj2 (proj2 (M big neg_Infinity R Wninf)))))).
    right. reflexivity. }
  exact (C big big big R R R).
Defined.

(** C4 as stated fails: [Infinity] is a non-finite divisor, and dividing
    one second by it returns the zero Duration without any error. *)
Lemma C4_counterexample :
  let d := new_Duration (of_Z 1000000000) in
  Duration.fromSecs (of_Z 1) = Return d /\
  isFinite Infinity = false /\
  Duration.div d Infinity = Return Duration.ZERO /\
  Duration.div d Infinity <> Throw not_finite_error.
Proof.
  repeat split; try (vm_compute; reflexivity). vm_compute. discriminate.
Qed.

(** ** Round trips *)

Lemma nonneg_cases (x : number) :
  isFinite x = true -> Num.ge x (of_Z 0) = true ->
  (exists s, x = S754_zero s) \/ (exists m e, x = S754_finite false m e).
Proof.
  destruct x as [sx | sx | | [ | ] mx ex]; try discriminate; eauto.
Qed.

Lemma pow2_consts :
  (4 * pow2 (- prec) == pow2 (-51))%Q /\
  (2 * pow2 (emin - 1) == pow2 (-1074))%Q /\
  (4 * pow2 (emin - 1) == pow2 (-1073))%Q /\
  (0 <= pow2 (- prec))%Q /\ (pow2 (- prec) <= 1 # 2)%Q /\
  (0 <= pow2 (emin - 1))%Q.
Proof.
  repeat split; try (vm_compute; reflexivity); vm_compute; discriminate.
Qed.

(** A count [x * c1] read back through the divisor [c2]: the result is
    finite and within [2^-51] of [x * c1 / c2], relatively, up to an
    absolute error of [2^-1074]. *)
Lemma scaled_round_trip (x c1 c2 : number) (m2 : positive) (e2 : Z) :
  wf x -> positive_number x = true ->
  wf c1 -> positive_number c1 = true ->
  c2 = S754_finite false m2 e2 -> Zdigits2 (Z.pos m2) = prec -> -51 <= e2 ->
  (2 <= value c2)%Q ->
  isFinite (Num.mul x c1) = true ->
  let y := Num.mul x c1 in
  toPositive y = Return y /\
  isFinite (Num.div y c2) = true /\
  (Qabs (value (Num.div y c2) - value x * value c1 / value c2)
   <= value x * value c1 / value c2 * pow2 (-51) + pow2 (-1074))%Q /\
  (Qabs (value y / value c2 - value x * value c1 / value c2)
   <= value x * value c1 / value c2 * pow2 (- prec)
      + pow2 (emin - 1) * (1 # 2))%Q /\
  (Qabs (value (Num.div y c2) - value y / value c2)
   <= value y / value c2 * pow2 (- prec) + pow2 (emin - 1))%Q.
Proof.
  intros Wx Px W1 P1 Hc2 Hd He Hv F y.
  destruct pow2_consts as (K1 & K2 & _ & U0 & U1 & H0).
  pose proof (mul_positive x c1 Wx W1 Px P1 F) as Py. fold y in Py.
  pose proof (mul_wf x c1 Wx W1) as Wy. fold y in Wy.
  pose proof (mul_positive_error x c1 Wx W1 Px P1 F) as Em. fold y in Em.
  pose proof (div_positive_error y m2 e2 Wy Py Hd He) as [Fd Ed].
  rewrite <- Hc2 in Fd, Ed.
  pose proof (value_nonneg x Px) as Vx. pose proof (value_nonneg c1 P1) as V1.
  assert (Hic : (0 < / value c2)%Q) by (apply Qinv_lt_0_compat; lra).
  assert (Hic2 : (/ value c2 <= 1 # 2)%Q).
  { apply Qle_shift_inv_r; lra. }
  assert (Hb : (0 <= value x * value c1)%Q) by (apply Qmult_le_0_compat; assumption).
  assert (Ha : (0 <= value x * value c1 / value c2)%Q)
    by (apply Qmult_le_0_compat; lra).
  pose proof (scaled_back (value x * value c1 / value c2) (value x * value c1)
                (value y) (value y / value c2) (/ value c2)
                (pow2 (- prec)) (pow2 (emin - 1))
                Hic Hic2 H0 ltac:(reflexivity) ltac:(reflexivity) Em) as Eq.
  pose proof (round_trip_chain _ _ _ _ _ Ha U0 U1 H0 Eq Ed) as R.
  split; [apply toPositive_positive; exact Py | ].
  split; [exact Fd | ].
  split; [ | split; assumption].
  eapply Qle_trans; [exact R | ]. rewrite <- K1, <- K2. lra.
Qed.

Lemma scale_shape (u : time_unit) :
  exists m e,
    scale u = S754_finite false m e /\ Zdigits2 (Z.pos m) = prec /\ -51 <= e /\
    (value (scale u) == inject_Z (scale_Z u))%Q.
Proof.
  destruct u; do 2 eexists;
    (split; [vm_compute; reflexivity | ]);
    (split; [reflexivity | ]); (split; [vm_compute; discriminate | ]);
    vm_compute; reflexivity.
Qed.

Lemma thousand_shape :
  exists m e,
    of_Z 1000 = S754_finite false m e /\ Zdigits2 (Z.pos m) = prec /\ -51 <= e /\
    (value (of_Z 1000) == 1000)%Q.
Proof.
  do 2 eexists. split; [vm_compute; reflexivity | ].
  split; [reflexivity | ]. split; [vm_compute; discriminate | ].
  vm_compute; reflexivity.
Qed.

(** C6, as the code has it.  For every finite [x >= 0] whose scaled value
    does not overflow, [fromSecs(x)] succeeds and [asSecs()] returns a finite
    number within floating-point precision of [x]: off by at most
    [2^-51 * x + 2^-1074]; [fromMillis(x)] succeeds and [asSecs()] is within
    [2^-51 * (x / 1000) + 2^-1073] of the double [x / 1000].  When the
    scaled value overflows the constructor throws. *)
Theorem C6_round_trip (x : number) :
  wf x -> isFinite x = true -> Num.ge x (of_Z 0) = true ->
  (isFinite (Num.mul x Duration.NS_PER_SECOND) = true ->
   exists d,
     Duration.fromSecs x = Return d /\
     isFinite (Duration.asSecs d) = true /\
     (Qabs (value (Duration.asSecs d) - value x)
      <= value x * pow2 (-51) + pow2 (-1074))%Q) /\
  (isFinite (Num.mul x Duration.NS_PER_MILLI) = true ->
   exists d,
     Duration.fromMillis x = Return d /\
     isFinite (Duration.asSecs d) = true /\
     isFinite (Num.div x (of_Z 1000)) = true /\
     (Qabs (value (Duration.asSecs d) - value (Num.div x (of_Z 1000)))
      <= value x / 1000 * pow2 (-51) + pow2 (-1073))%Q) /\
  (isFinite (Num.mul x Duration.NS_PER_SECOND) = false ->
   Duration.fromSecs x = Throw not_finite_error) /\
  (isFinite (Num.mul x Duration.NS_PER_MILLI) = false ->
   Duration.fromMillis x = Throw not_finite_error).
Proof.
  intros Wx Fx Gx.
  destruct pow2_consts as (K1 & K2 & K3 & U0 & U1 & H0).
  assert (P74 : (0 <= pow2 (-1074))%Q) by (apply Qlt_le_weak, pow2_gt0).
  assert (P73 : (0 <= pow2 (-1073))%Q) by (apply Qlt_le_weak, pow2_gt0).
  split; [ | split; [ | split]].
  - intros F. destruct (nonneg_cases x Fx Gx) as [[s ->] | (m & e & ->)].
    + exists Duration.ZERO. split; [destruct s; reflexivity | ].
      split; [reflexivity | ].
      change (value (Duration.asSecs Duration.ZERO)) with 0%Q. cbn [value].
      apply Qabs_le_of_bounds. split; lra.
    + destruct (scale_shape Second) as (m2 & e2 & Hs & Hd & He & Hv).
      cbn [scale scale_Z] in Hs, Hv.
      assert (Hv2 : (2 <= value Duration.NS_PER_SECOND)%Q)
        by (rewrite Hv; vm_compute; discriminate).
      destruct (scaled_round_trip _ Duration.NS_PER_SECOND Duration.NS_PER_SECOND
                  m2 e2 Wx eq_refl (scale_wf Second) eq_refl Hs Hd He Hv2 F)
        as (T & Fd & E & _).
      eexists. split; [unfold Duration.fromSecs; rewrite T; reflexivity | ].
      split; [exact Fd | ].
      unfold Duration.asSecs. cbn [nanoseconds].
      set (vx := value (S754_finite false m e)) in *.
      assert (Hx : (vx * value Duration.NS_PER_SECOND / value Duration.NS_PER_SECOND
                    == vx)%Q) by (field; lra).
      rewrite Hx in E. exact E.
  - intros F. destruct (nonneg_cases x Fx Gx) as [[s ->] | (m & e & ->)].
    + exists Duration.ZERO. split; [destruct s; reflexivity | ].
      split; [reflexivity | ]. split; [destruct s; reflexivity | ].
      change (value (Duration.asSecs Duration.ZERO)) with 0%Q.
      replace (value (Num.div (S754_zero s) (of_Z 1000))) with 0%Q
        by (destruct s; reflexivity).
      cbn [value]. apply Qabs_le_of_bounds. unfold Qdiv. split; lra.
    + destruct (scale_shape Second) as (m2 & e2 & Hs & Hd & He & Hv).
      destruct (scale_shape Milli) as (m1 & e1 & _ & _ & _ & Hv1).
      destruct thousand_shape as (mk & ek & Hk & Hdk & Hek & Hvk).
      cbn [scale scale_Z] in Hs, Hv, Hv1.
      assert (Hv2 : (2 <= value Duration.NS_PER_SECOND)%Q)
        by (rewrite Hv; vm_compute; discriminate).
      destruct (scaled_round_trip _ Duration.NS_PER_MILLI Duration.NS_PER_SECOND
                  m2 e2 Wx eq_refl (scale_wf Milli) eq_refl Hs Hd He Hv2 F)
        as (T & Fd & _ & Eq & Ed).
      pose proof (div_positive_error (S754_finite false m e) mk ek Wx eq_refl Hdk Hek)
        as [Fw Ew]. rewrite <- Hk in Fw, Ew.
      eexists. split; [unfold Duration.fromMillis; rewrite T; reflexivity | ].
      split; [exact Fd | ]. split; [exact Fw | ].
      unfold Duration.asSecs. cbn [nanoseconds].
      set (vx := value (S754_finite false m e)) in *.
      assert (Vx : (0 <= vx)%Q) by (apply (value_nonneg (S754_finite false m e)); reflexivity).
      assert (Hx : (vx * value Duration.NS_PER_MILLI / value Duration.NS_PER_SECOND
                    == vx / 1000)%Q).
      { rewrite Hv, Hv1.
        change (inject_Z 1000000) with 1000000%Q.
        change (inject_Z 1000000000) with 1000000000%Q. field. }
      assert (Hw : (vx / value (of_Z 1000) == vx / 1000)%Q) by (rewrite Hvk; reflexivity).
      rewrite Hx in Eq. rewrite Hw in Ew.
      assert (Ha : (0 <= vx / 1000)%Q) by (apply Qle_shift_div_l; lra).
      pose proof (three_way_chain _ _ _ _ _ _ Ha U0 U1 H0 Eq Ed Ew) as R.
      eapply Qle_trans; [exact R | ]. rewrite <- K1, <- K3. lra.
  - intros F. unfold Duration.fromSecs. apply construct_throws. exact F.
  - intros F. unfold Duration.fromMillis. apply construct_throws. exact F.
Qed.

Lemma C6_witness :
  let x := of_decimal 21 (-1) in
  wf x /\ isFinite x = true /\ Num.ge x (of_Z 0) = true /\
  isFinite (Num.mul x Duration.NS_PER_SECOND) = true /\
  isFinite (Num.mul x Duration.NS_PER_MILLI) = true /\
  (exists d,
     Duration.fromSecs x = Return d /\
     isFinite (Duration.asSecs d) = true /\
     (Qabs (value (Duration.asSecs d) - value x)
      <= value x * pow2 (-51) + pow2 (-1074))%Q) /\
  (exists d,
     Duration.fromMillis x = Return d /\
     isFinite (Duration.asSecs d) = true /\
     isFinite (Num.div x (of_Z 1000)) = true /\
     (Qabs (value (Duration.asSecs d) - value (Num.div x (of_Z 1000)))
      <= value x / 1000 * pow2 (-51) + pow2 (-1073))%Q).
Proof.
  intros x.
  assert (W : wf x) by (vm_compute; reflexivity).
  assert (F : isFinite x = true) by (vm_compute; reflexivity).
  assert (G : Num.ge x (of_Z 0) = true) by (vm_compute; reflexivity).
  assert (F1 : isFinite (Num.mul x Duration.NS_PER_SECOND) = true)
    by (vm_compute; reflexivity).
  assert (F2 : isFinite (Num.mul x Duration.NS_PER_MILLI) = true)
    by (vm_compute; reflexivity).
  destruct (C6_round_trip x W F G) as (S & M & _).
  repeat (split; [assumption | ]).
  split; [exact (S F1) | exact (M F2)].
Defined.

(** C6 as stated fails.  The finite, non-negative input 1e300 has no round
    trip at all, since [fromSecs] throws on the overflowing product (as
    [fromMillis] does on 1e305); and for
    2.1 the value [fromMillis(2.1).asSecs()] is a double other than
    [2.1 / 1000]. *)
Lemma C6_counterexample :
  let big := of_decimal 1 300 in
  let x := of_decimal 21 (-1) in
  isFinite big = true /\ Num.ge big (of_Z 0) = true /\
  Duration.fromSecs big = Throw not_finite_error /\
  Duration.fromMillis (of_decimal 1 305) = Throw not_finite_error /\
  isFinite x = true /\ Num.ge x (of_Z 0) = true /\
  exists d,
    Duration.fromMillis x = Return d /\
    strict_eq (Duration.asSecs d) (Num.div x (of_Z 1000)) = false.
Proof.
  repeat (split; [vm_compute; reflexivity | ]).
  exists (new_Duration (of_Z 2100000)). split; vm_compute; reflexivity.
Qed.

(** * Further properties of the code *)

(** ** Comparisons *)

Lemma comparison_of (a b : Duration) :
  reachable a -> reachable b ->
  SFcompare (nanoseconds a) (nanoseconds b)
  = Some (value (nanoseconds a) ?= value (nanoseconds b))%Q.
Proof.
  intros Ha Hb.
  destruct (reachable_inv a Ha) as [Pa Wa]. destruct (reachable_inv b Hb) as [Pb Wb].
  apply compare_value; assumption.
Qed.

Lemma comparisons_value (a b : Duration) :
  reachable a -> reachable b ->
  let va := value (nanoseconds a) in
  let vb := value (nanoseconds b) in
  (Duration.lt a b = true <-> (va < vb)%Q) /\
  (Duration.le a b = true <-> (va <= vb)%Q) /\
  (Duration.gt a b = true <-> (vb < va)%Q) /\
  (Duration.ge a b = true <-> (vb <= va)%Q) /\
  (Duration.eq a b = true <-> (va == vb)%Q).
Proof.
  intros Ha Hb va vb.
  pose proof (comparison_of a b Ha Hb) as Cab. pose proof (comparison_of b a Hb Ha) as Cba.
  fold va vb in Cab, Cba.
  unfold Duration.lt, Duration.le, Duration.gt, Duration.ge, Duration.eq,
    Num.lt, Num.le, Num.gt, Num.ge, strict_eq, SFltb, SFleb, SFeqb.
  rewrite Cab, Cba.
  repeat split.
  - destruct (Qcompare_spec va vb); try discriminate. intros _. assumption.
  - intros H. rewrite (proj1 (Qlt_alt _ _) H). reflexivity.
  - destruct (Qcompare_spec va vb) as [E | E | E]; try discriminate; intros _.
    + rewrite E. apply Qle_refl.
    + apply Qlt_le_weak. assumption.
  - intros H. destruct (Qcompare_spec va vb) as [E | E | E]; try reflexivity.
    exfalso. apply (Qlt_not_le _ _ E). assumption.
  - destruct (Qcompare_spec vb va); try discriminate. intros _. assumption.
  - intros H. rewrite (proj1 (Qlt_alt _ _) H). reflexivity.
  - destruct (Qcompare_spec vb va) as [E | E | E]; try discriminate; intros _.
    + rewrite E. apply Qle_refl.
    + apply Qlt_le_weak. assumption.
  - intros H. destruct (Qcompare_spec vb va) as [E | E | E]; try reflexivity.
    exfalso. apply (Qlt_not_le _ _ E). assumption.
  - destruct (Qcompare_spec va vb); try discriminate. intros _. assumption.
  - intros H. rewrite (proj1 (Qeq_alt _ _) H). reflexivity.
Qed.

(** X1. The five comparisons decide the order of the exact counts:
    [a.lt(b)] holds exactly when the count of [a] is below the count of [b]
    as a rational number, and likewise for [le], [gt], [ge] and [eq]. *)
Theorem X1_comparisons_follow_counts (a b : Duration) :
  reachable a -> reachable b ->
  let va := value (nanoseconds a) in
  let vb := value (nanoseconds b) in
  (Duration.lt a b = true <-> (va < vb)%Q) /\
  (Duration.le a b = true <-> (va <= vb)%Q) /\
  (Duration.gt a b = true <-> (vb < va)%Q) /\
  (Duration.ge a b = true <-> (vb <= va)%Q) /\
  (Duration.eq a b = true <-> (va == vb)%Q).
Proof. exact (comparisons_value a b). Qed.

Lemma X1_witness :
  let a := new_Duration (of_Z 1000000000) in
  let b := new_Duration (of_Z 2500000000) in
  reachable a /\ reachable b /\
  Duration.lt a b = true /\ (value (nanoseconds a) < value (nanoseconds b))%Q.
Proof.
  intros a b.
  assert (Ra : reachable a)
    by (apply (reach_fromSecs (of_Z 1)); vm_compute; reflexivity).
  assert (Rb : reachable b)
    by (apply (reach_fromMillis (of_Z 2500)); vm_compute; reflexivity).
  split; [exact Ra | split; [exact Rb | ]].
  assert (L : Duration.lt a b = true) by reflexivity.
  split; [exact L | ].
  exact (proj1 (proj1 (X1_comparisons_follow_counts a b Ra Rb)) L).
Defined.

(** X2. Trichotomy: for two Durations exactly one of [a.lt(b)], [a.eq(b)]
    and [a.gt(b)] is true. *)
Theorem X2_trichotomy (a b : Duration) :
  reachable a -> reachable b ->
  (Duration.lt a b = true /\ Duration.eq a b = false /\ Duration.gt a b = false) \/
  (Duration.lt a b = false /\ Duration.eq a b = true /\ Duration.gt a b = false) \/
  (Duration.lt a b = false /\ Duration.eq a b = false /\ Duration.gt a b = true).
Proof.
  intros Ha Hb.
  pose proof (comparison_of a b Ha Hb) as Cab. pose proof (comparison_of b a Hb Ha) as Cba.
  unfold Duration.lt, Duration.gt, Duration.eq, Num.lt, Num.gt, strict_eq,
    SFltb, SFeqb.
  rewrite Cab, Cba.
  rewrite <- (Qcompare_antisym (value (nanoseconds a)) (value (nanoseconds b))).
  destruct (value (nanoseconds a) ?= value (nanoseconds b))%Q; cbn; auto.
Qed.

Lemma X2_witness :
  let a := new_Duration (of_Z 1000000000) in
  let b := new_Duration (of_Z 2500000000) in
  reachable a /\ reachable b /\
  ((Duration.lt a b = true /\ Duration.eq a b = false /\ Duration.gt a b = false) \/
   (Duration.lt a b = false /\ Duration.eq a b = true /\ Duration.gt a b = false) \/
   (Duration.lt a b = false /\ Duration.eq a b = false /\ Duration.gt a b = true)).
Proof.
  intros a b.
  assert (Ra : reachable a)
    by (apply (reach_fromSecs (of_Z 1)); vm_compute; reflexivity).
  assert (Rb : reachable b)
    by (apply (reach_fromMillis (of_Z 2500)); vm_compute; reflexivity).
  split; [exact Ra | split; [exact Rb | ]].
  exact (X2_trichotomy a b Ra Rb).
Defined.

Lemma strict_eq_same (x y : number) :
  positive_number x = true -> positive_number y = true ->
  strict_eq x y = true -> x = y.
Proof.
  intros Px Py.
  destruct (positive_number_cases x Px) as [-> | (m1 & e1 & ->)];
    destruct (positive_number_cases y Py) as [-> | (m2 & e2 & ->)];
    try discriminate; [reflexivity | ].
  unfold strict_eq, SFeqb. rewrite compare_finite.
  destruct (Z.compare_spec e1 e2) as [E | E | E]; try discriminate.
  destruct (Pos.compare_spec m1 m2) as [M | M | M]; try discriminate.
  intros _. subst. reflexivity.
Qed.

Lemma eq_identity (a b : Duration) :
  reachable a -> reachable b ->
  (Duration.eq a b = true <-> a = b).
Proof.
  intros Ha Hb.
  destruct (reachable_inv a Ha) as [Pa _]. destruct (reachable_inv b Hb) as [Pb _].
  split.
  - intros H. destruct a as [x], b as [y]. cbn [nanoseconds] in *.
    f_equal. apply strict_eq_same; assumption.
  - intros <-. apply strict_eq_refl. apply positive_number_finite. assumption.
Qed.

(** X3. Two Durations that [eq] declares equal are the same value: equal
    counts leave nothing to tell them apart (and every Duration equals
    itself). *)
Theorem X3_eq_is_identity (a b : Duration) :
  reachable a -> reachable b ->
  (Duration.eq a b = true <-> a = b).
Proof. exact (eq_identity a b). Qed.

Lemma X3_witness :
  let a := new_Duration (of_Z 2500000000) in
  reachable a /\ (Duration.eq a a = true <-> a = a).
Proof.
  intros a.
  assert (Ra : reachable a)
    by (apply (reach_fromMillis (of_Z 2500)); vm_compute; reflexivity).
  split; [exact Ra | exact (X3_eq_is_identity a a Ra Ra)].
Defined.

(** X4. [le] is a total order on Durations: reflexive, transitive,
    antisymmetric (two Durations below each other are the same value) and
    total; [lt] is its strict part and [ge], [gt] are the converses. *)
Theorem X4_le_total_order (a b c : Duration) :
  reachable a -> reachable b -> reachable c ->
  Duration.le a a = true /\
  (Duration.le a b = true -> Duration.le b c = true -> Duration.le a c = true) /\
  (Duration.le a b = true -> Duration.le b a = true -> a = b) /\
  (Duration.le a b = true \/ Duration.le b a = true) /\
  (Duration.lt a b = true <-> Duration.le a b = true /\ Duration.eq a b = false) /\
  Duration.ge a b = Duration.le b a /\
  Duration.gt a b = Duration.lt b a.
Proof.
  intros Ha Hb Hc.
  pose proof (comparisons_value a b Ha Hb) as (Lab & LEab & _ & _ & EQab).
  pose proof (comparisons_value b a Hb Ha) as (_ & LEba & _).
  pose proof (comparisons_value b c Hb Hc) as (_ & LEbc & _).
  pose proof (comparisons_value a c Ha Hc) as (_ & LEac & _).
  pose proof (comparisons_value a a Ha Ha) as (_ & LEaa & _).
  cbv zeta in *.
  split; [apply LEaa, Qle_refl | ].
  split.
  { intros H1 H2. apply LEac. eapply Qle_trans; [apply LEab | apply LEbc]; assumption. }
  split.
  { intros H1 H2. apply (eq_identity a b Ha Hb). apply EQab.
    apply Qle_antisym; [apply LEab | apply LEba]; assumption. }
  split.
  { destruct (Qlt_le_dec (value (nanoseconds b)) (value (nanoseconds a))) as [L | L].
    - right. apply LEba. apply Qlt_le_weak. assumption.
    - left. apply LEab. assumption. }
  split.
  { split.
    - intros H. apply Lab in H. split; [apply LEab, Qlt_le_weak; assumption | ].
      apply not_true_is_false. intros E.
      apply EQab in E. rewrite E in H. apply (Qlt_irrefl _ H).
    - intros [H1 H2]. apply Lab. apply LEab in H1.
      apply Qle_lteq in H1 as [H1 | H1]; [assumption | ].
      apply EQab in H1. congruence. }
  split; reflexivity.
Qed.

Lemma X4_witness :
  let a := new_Duration (of_Z 1000000000) in
  let b := new_Duration (of_Z 2500000000) in
  let c := new_Duration (of_Z 3600000000000) in
  reachable a /\ reachable b /\ reachable c /\
  Duration.le a b = true /\ Duration.le b c = true /\ Duration.le a c = true.
Proof.
  intros a b c.
  assert (Ra : reachable a)
    by (apply (reach_fromSecs (of_Z 1)); vm_compute; reflexivity).
  assert (Rb : reachable b)
    by (apply (reach_fromMillis (of_Z 2500)); vm_compute; reflexivity).
  assert (Rc : reachable c)
    by (apply (reach_fromHours (of_Z 1)); vm_compute; reflexivity).
  split; [exact Ra | split; [exact Rb | split; [exact Rc | ]]].
  assert (L1 : Duration.le a b = true) by reflexivity.
  assert (L2 : Duration.le b c = true) by reflexivity.
  split; [exact L1 | split; [exact L2 | ]].
  exact (proj1 (proj2 (X4_le_total_order a b c Ra Rb Rc)) L1 L2).
Defined.

(** ** Addition and subtraction *)

Lemma add_comm (x y : number) : Num.add x y = Num.add y x.
Proof.
  unfold Num.add.
  destruct x as [[ | ] | [ | ] | | sx mx ex], y as [[ | ] | [ | ] | | sy my ey];
    try reflexivity.
  cbn [SFadd]. rewrite (Z.min_comm ey ex). f_equal. apply Z.add_comm.
Qed.

Lemma add_zero_r (x : number) :
  positive_number x = true -> Num.add x pos_zero = x.
Proof.
  intros Px. destruct (positive_number_cases x Px) as [-> | (m & e & ->)]; reflexivity.
Qed.

Lemma construct_positive (x : number) :
  positive_number x = true ->
  (n <- toPositive x ;; Return (new_Duration n)) = Return (new_Duration x).
Proof. intros Px. rewrite (toPositive_positive x Px). reflexivity. Qed.

Lemma le_of_value (a b : Duration) :
  reachable a -> reachable b ->
  (value (nanoseconds a) <= value (nanoseconds b))%Q -> Duration.le a b = true.
Proof.
  intros Ha Hb H.
  destruct (comparisons_value a b Ha Hb) as (_ & LE & _). apply LE. exact H.
Qed.

(** X5. [add] is commutative, failures included, and [ZERO] is its
    identity on both sides. *)
Theorem X5_add_commutative_zero (a b : Duration) :
  reachable a ->
  Duration.add a b = Duration.add b a /\
  Duration.add a Duration.ZERO = Return a /\
  Duration.add Duration.ZERO a = Return a.
Proof.
  intros Ha. destruct (reachable_inv a Ha) as [Pa _].
  split; [unfold Duration.add; rewrite add_comm; reflexivity | ].
  assert (R : Duration.add a Duration.ZERO = Return a).
  { unfold Duration.add. cbn [nanoseconds Duration.ZERO].
    rewrite (add_zero_r _ Pa), (construct_positive _ Pa). destruct a; reflexivity. }
  split; [exact R | ].
  unfold Duration.add in *. rewrite add_comm. exact R.
Qed.

Lemma X5_witness :
  let a := new_Duration (of_Z 2500000000) in
  let b := new_Duration (of_Z 1000000000) in
  reachable a /\ Duration.add a b = Duration.add b a /\
  Duration.add a Duration.ZERO = Return a.
Proof.
  intros a b.
  assert (Ra : reachable a)
    by (apply (reach_fromMillis (of_Z 2500)); vm_compute; reflexivity).
  split; [exact Ra | ].
  pose proof (X5_add_commutative_zero a b Ra) as (H1 & H2 & _).
  split; [exact H1 | exact H2].
Defined.

(** X6. A sum is never below either operand: when [a.add(b)] returns [d],
    both [a.le(d)] and [b.le(d)] hold, rounding of the sum included. *)
Theorem X6_add_not_below_operands (a b d : Duration) :
  reachable a -> reachable b ->
  Duration.add a b = Return d ->
  Duration.le a d = true /\ Duration.le b d = true.
Proof.
  intros Ha Hb H.
  pose proof (reach_add a b d Ha Hb H) as Hd.
  destruct (reachable_inv a Ha) as [Pa Wa]. destruct (reachable_inv b Hb) as [Pb Wb].
  destruct (reachable_inv d Hd) as [Pd Wd].
  unfold Duration.add in H. apply construct_inv in H.
  assert (F : isFinite (Num.add (nanoseconds a) (nanoseconds b)) = true).
  { unfold toPositive in H. destruct (isFinite _); [reflexivity | discriminate]. }
  destruct (add_ge_operands _ _ Wa Wb Pa Pb F) as [Ga Gb].
  pose proof (value_nonneg _ Pa) as Na. pose proof (value_nonneg _ Pb) as Nb.
  assert (E : nanoseconds d = Num.add (nanoseconds a) (nanoseconds b)).
  { rewrite (toPositive_positive _ (add_positive _ _ Pa Pb F)) in H.
    inversion H. reflexivity. }
  split; apply le_of_value; try assumption; rewrite E; assumption.
Qed.

Lemma X6_witness :
  let a := new_Duration (of_Z 2500000000) in
  let b := new_Duration (of_Z 1000000000) in
  let d := new_Duration (of_Z 3500000000) in
  reachable a /\ reachable b /\ Duration.add a b = Return d /\
  Duration.le a d = true /\ Duration.le b d = true.
Proof.
  intros a b d.
  assert (Ra : reachable a)
    by (apply (reach_fromMillis (of_Z 2500)); vm_compute; reflexivity).
  assert (Rb : reachable b)
    by (apply (reach_fromSecs (of_Z 1)); vm_compute; reflexivity).
  assert (H : Duration.add a b = Return d) by (vm_compute; reflexivity).
  split; [exact Ra | split; [exact Rb | split; [exact H | ]]].
  exact (X6_add_not_below_operands a b d Ra Rb H).
Defined.

(** X7. [sub] always returns; the difference never exceeds the minuend,
    and it is zero exactly when [a.le(b)]. *)
Theorem X7_sub_bounded (a b : Duration) :
  reachable a -> reachable b ->
  exists d,
    Duration.sub a b = Return d /\
    Duration.le d a = true /\
    Duration.isZero d = Duration.le a b.
Proof.
  intros Ha Hb.
  destruct (reachable_inv a Ha) as [Pa Wa]. destruct (reachable_inv b Hb) as [Pb Wb].
  destruct (sub_sign _ _ Wa Wb Pa Pb) as [S1 S2].
  destruct (Duration.le a b) eqn:L; unfold Duration.le in L.
  - exists (new_Duration (of_Z 0)).
    split; [unfold Duration.sub; rewrite (S1 L); reflexivity | ].
    split; [ | reflexivity].
    apply (le_of_value (new_Duration (of_Z 0)) a reach_ZERO Ha).
    cbn [nanoseconds]. apply (value_nonneg _ Pa).
  - destruct (S2 L) as (m & e & Hs).
    assert (R : Duration.sub a b = Return (new_Duration (S754_finite false m e))).
    { unfold Duration.sub. rewrite Hs. reflexivity. }
    pose proof (reach_sub a b _ Ha Hb R) as Hd.
    exists (new_Duration (S754_finite false m e)).
    split; [exact R | ]. split; [ | reflexivity].
    apply le_of_value; try assumption. cbn [nanoseconds]. rewrite <- Hs.
    apply sub_le_minuend; try assumption. rewrite Hs. reflexivity.
Qed.

Lemma X7_witness :
  let a := new_Duration (of_Z 1000000000) in
  let b := new_Duration (of_Z 2500000000) in
  reachable a /\ reachable b /\
  exists d, Duration.sub a b = Return d /\ Duration.le d a = true /\
            Duration.isZero d = Duration.le a b.
Proof.
  intros a b.
  assert (Ra : reachable a)
    by (apply (reach_fromSecs (of_Z 1)); vm_compute; reflexivity).
  assert (Rb : reachable b)
    by (apply (reach_fromMillis (of_Z 2500)); vm_compute; reflexivity).
  split; [exact Ra | split; [exact Rb | ]].
  exact (X7_sub_bounded a b Ra Rb).
Defined.

(** ** Zero *)

(** X8. [isZero] holds of [ZERO] only; [ZERO] is below every Duration and
    no Duration is below it. *)
Theorem X8_zero_is_least (d : Duration) :
  reachable d ->
  (Duration.isZero d = true <-> d = Duration.ZERO) /\
  Duration.le Duration.ZERO d = true /\
  Duration.lt d Duration.ZERO = false.
Proof.
  intros Hd. destruct (reachable_inv d Hd) as [Pd _].
  destruct d as [x]. cbn [nanoseconds] in Pd.
  unfold Duration.isZero, Duration.le, Duration.lt, Duration.ZERO. cbn [nanoseconds].
  destruct (positive_number_cases x Pd) as [-> | (m & e & ->)].
  - repeat split.
  - repeat split; discriminate.
Qed.

Lemma X8_witness :
  let d := new_Duration (of_Z 2500000000) in
  reachable d /\ Duration.le Duration.ZERO d = true /\ Duration.isZero d = false.
Proof.
  intros d.
  assert (Rd : reachable d)
    by (apply (reach_fromMillis (of_Z 2500)); vm_compute; reflexivity).
  split; [exact Rd | ].
  split; [exact (proj1 (proj2 (X8_zero_is_least d Rd))) | reflexivity].
Defined.

(** ** Whole numbers of nanoseconds *)

Lemma whole_facts (n : Z) :
  0 <= n < 2 ^ 53 ->
  wf (of_Z n) /\ positive_number (of_Z n) = true /\
  (value (of_Z n) == inject_Z n)%Q.
Proof.
  intros Hn. split; [apply of_Z_wf | ]. apply of_Z_exact. rewrite prec_val. exact Hn.
Qed.

Lemma whole_reachable (n : Z) :
  0 <= n < 2 ^ 53 -> reachable (new_Duration (of_Z n)).
Proof.
  intros Hn. destruct (whole_facts n Hn) as (W & P & _).
  apply (reach_fromNanos (of_Z n)); [exact W | ].
  unfold Duration.fromNanos. apply construct_positive. exact P.
Qed.

Lemma whole_positive_shape (k : Z) :
  0 < k < 2 ^ 53 -> exists m e, of_Z k = S754_finite false m e.
Proof.
  intros Hk. destruct (whole_facts k ltac:(lia)) as (_ & P & V).
  destruct (positive_number_cases _ P) as [Z | (m & e & F)]; [exfalso | eauto].
  rewrite Z in V. cbn [value] in V.
  assert (k = 0) by (apply inject_Z_injective; rewrite <- V; reflexivity). lia.
Qed.

Lemma whole_add (m n : Z) :
  0 <= m -> 0 <= n -> m + n < 2 ^ 53 ->
  Duration.add (new_Duration (of_Z m)) (new_Duration (of_Z n))
  = Return (new_Duration (of_Z (m + n))).
Proof.
  intros Hm Hn Hs.
  destruct (whole_facts m ltac:(lia)) as (Wm & Pm & Vm).
  destruct (whole_facts n ltac:(lia)) as (Wn & Pn & Vn).
  unfold Duration.add. cbn [nanoseconds].
  rewrite (add_exact (of_Z m) (of_Z n) (m + n)); try assumption.
  - apply construct_positive. apply (whole_facts (m + n)). lia.
  - rewrite prec_val. lia.
  - rewrite Vm, Vn, inject_Z_plus. reflexivity.
Qed.

Lemma whole_sub (m n : Z) :
  0 <= m < 2 ^ 53 -> 0 <= n < 2 ^ 53 ->
  Duration.sub (new_Duration (of_Z m)) (new_Duration (of_Z n))
  = Return (new_Duration (of_Z (Z.max 0 (m - n)))).
Proof.
  intros Hm Hn.
  destruct (whole_facts m Hm) as (Wm & Pm & Vm).
  destruct (whole_facts n Hn) as (Wn & Pn & Vn).
  unfold Duration.sub. cbn [nanoseconds].
  destruct (Z_le_gt_dec n m) as [L | G].
  - replace (Z.max 0 (m - n)) with (m - n) by lia.
    rewrite (sub_exact (of_Z m) (of_Z n) (m - n)); try assumption.
    + apply construct_positive. apply (whole_facts (m - n)). lia.
    + rewrite prec_val. lia.
    + rewrite Vm, Vn. unfold Z.sub. rewrite inject_Z_plus, inject_Z_opp. ring.
  - replace (Z.max 0 (m - n)) with 0 by lia.
    destruct (sub_sign _ _ Wm Wn Pm Pn) as [S1 _]. rewrite S1; [reflexivity | ].
    pose proof (whole_reachable m Hm) as Ra.
    pose proof (whole_reachable n Hn) as Rb.
    apply (le_of_value _ _ Ra Rb). cbn [nanoseconds]. rewrite Vm, Vn.
    rewrite <- Zle_Qle. lia.
Qed.

(** X9. Whole numbers of nanoseconds add and subtract exactly: when the
    sum of two whole counts stays below [2^53], [add] returns their sum
    and [sub] their difference, or zero when the difference would be
    negative, with no rounding. *)
Theorem X9_whole_nanoseconds_exact (m n : Z) :
  0 <= m -> 0 <= n -> m + n < 2 ^ 53 ->
  let a := new_Duration (of_Z m) in
  let b := new_Duration (of_Z n) in
  Duration.add a b = Return (new_Duration (of_Z (m + n))) /\
  Duration.sub a b = Return (new_Duration (of_Z (Z.max 0 (m - n)))).
Proof.
  intros Hm Hn Hs a b. split; [apply whole_add | apply whole_sub]; lia.
Qed.

Lemma X9_witness :
  let a := new_Duration (of_Z 1500) in
  let b := new_Duration (of_Z 4000) in
  Duration.add a b = Return (new_Duration (of_Z 5500)) /\
  Duration.sub a b = Return (new_Duration (of_Z 0)).
Proof.
  exact (X9_whole_nanoseconds_exact 1500 4000 ltac:(lia) ltac:(lia) ltac:(lia)).
Defined.

(** X10. Whole factors and divisors: a whole count times a whole positive
    factor, both and their product below [2^53], is computed exactly by
    [mul], and [div] by that factor gives the count back. *)
Theorem X10_whole_factor_exact (n k : Z) :
  0 <= n -> 0 < k < 2 ^ 53 -> n * k < 2 ^ 53 ->
  Duration.mul (new_Duration (of_Z n)) (of_Z k)
  = Return (new_Duration (of_Z (n * k))) /\
  Duration.div (new_Duration (of_Z (n * k))) (of_Z k)
  = Return (new_Duration (of_Z n)).
Proof.
  intros Hn Hk' Hp.
  assert (Hk : 0 < k) by lia.
  assert (Hn' : 0 <= n < 2 ^ 53) by nia.
  destruct (whole_facts n Hn') as (Wn & Pn & Vn).
  destruct (whole_facts k ltac:(lia)) as (Wk & Pk & Vk).
  destruct (whole_facts (n * k) ltac:(nia)) as (Wp & Pp & Vp).
  split.
  - unfold Duration.mul. cbn [nanoseconds].
    rewrite (mul_exact (of_Z n) (of_Z k) (n * k)); try assumption.
    + apply construct_positive. exact Pp.
    + rewrite prec_val. nia.
    + rewrite Vn, Vk, inject_Z_mult. reflexivity.
  - destruct (whole_positive_shape k Hk') as (mk & ek & Fk).
    unfold Duration.div. cbn [nanoseconds]. rewrite Fk in *.
    change (strict_eq (S754_finite false mk ek) (of_Z 0)) with false. cbv iota.
    rewrite (div_exact (of_Z (n * k)) mk ek n); try assumption.
    + apply construct_positive. exact Pn.
    + rewrite Vp, Vk, inject_Z_mult.
      pose proof (inject_Z_pos k Hk). field. lra.
Qed.

Lemma X10_witness :
  Duration.mul (new_Duration (of_Z 1500)) (of_Z 3)
  = Return (new_Duration (of_Z 4500)) /\
  Duration.div (new_Duration (of_Z 4500)) (of_Z 3)
  = Return (new_Duration (of_Z 1500)).
Proof.
  exact (X10_whole_factor_exact 1500 3 ltac:(lia) ltac:(lia) ltac:(lia)).
Defined.

(** ** Unit constructors and observers *)

Lemma from_unit_unfold (u : time_unit) (x : number) :
  from_unit u x =
  (n <- toPositive (Num.mul x (scale u)) ;; Return (new_Duration n)).
Proof. destruct u; reflexivity. Qed.

Lemma scale_Z_bounds (u : time_unit) : 1000 <= scale_Z u <= 3600000000000.
Proof. destruct u; cbn; lia. Qed.

Lemma scale_facts (u : time_unit) :
  positive_number (scale u) = true /\
  (value (scale u) == inject_Z (scale_Z u))%Q.
Proof.
  destruct (scale_shape u) as (m & e & F & _ & _ & V). rewrite F in *.
  split; [reflexivity | exact V].
Qed.

(** X11. Whole numbers of a unit round-trip exactly: for a whole [n] with
    [n] times the unit's scale below [2^53], the unit constructor
    ([fromMicros], [fromMillis], [fromSecs], [fromMinutes], [fromHours])
    stores exactly [n * scale] nanoseconds, and the matching observer
    ([asMicros], ..., [asHours]) returns exactly [n]. *)
Theorem X11_whole_units_round_trip (u : time_unit) (n : Z) :
  0 <= n -> n * scale_Z u < 2 ^ 53 ->
  from_unit u (of_Z n) = Return (new_Duration (of_Z (n * scale_Z u))) /\
  magnitude u (new_Duration (of_Z (n * scale_Z u))) = of_Z n /\
  Duration.asNanos (new_Duration (of_Z (n * scale_Z u))) = of_Z (n * scale_Z u).
Proof.
  intros Hn Hp. pose proof (scale_Z_bounds u) as Hs.
  assert (Bn : 0 <= n < 2 ^ prec) by (rewrite prec_val; nia).
  assert (Bp : 0 <= n * scale_Z u < 2 ^ prec) by (rewrite prec_val; nia).
  destruct (whole_facts n ltac:(nia)) as (Wn & Pn & Vn).
  destruct (whole_facts (n * scale_Z u) ltac:(nia)) as (Wp & Pp & Vp).
  destruct (scale_facts u) as [Ps Vs]. pose proof (scale_wf u) as Ws.
  split; [ | split; [ | reflexivity]].
  - rewrite from_unit_unfold.
    rewrite (mul_exact (of_Z n) (scale u) (n * scale_Z u)); try assumption.
    + apply construct_positive. exact Pp.
    + rewrite Vn, Vs, inject_Z_mult. reflexivity.
  - unfold magnitude. cbn [nanoseconds].
    destruct (scale_shape u) as (m & e & F & _ & _ & _). rewrite F in *.
    apply div_exact; try assumption.
    rewrite Vp, Vs, inject_Z_mult.
    pose proof (inject_Z_pos (scale_Z u) ltac:(lia)). field. lra.
Qed.

Lemma X11_witness :
  from_unit Minute (of_Z 90) = Return (new_Duration (of_Z 5400000000000)) /\
  magnitude Minute (new_Duration (of_Z 5400000000000)) = of_Z 90 /\
  Duration.asNanos (new_Duration (of_Z 5400000000000)) = of_Z 5400000000000.
Proof.
  exact (X11_whole_units_round_trip Minute 90 ltac:(lia) ltac:(cbn; lia)).
Defined.

(** X12. Every observer of a Duration ([asMicros], [asMillis], [asSecs],
    [asMinutes], [asHours]) returns a finite, non-negative number that is
    a double nearest to the exact quotient of the count by the unit's
    scale: no finite double is closer.  In particular the error is at
    most the quotient times [2^-53], plus [2^-1075]. *)
Theorem X12_observers_accurate (d : Duration) (u : time_unit) :
  reachable d ->
  let q := magnitude u d in
  let exact := (value (nanoseconds d) / inject_Z (scale_Z u))%Q in
  isFinite q = true /\
  Num.ge q (of_Z 0) = true /\
  (forall s : number,
     wf s -> isFinite s = true ->
     (Qabs (value q - exact) <= Qabs (value s - exact))%Q) /\
  (Qabs (value q - exact) <= exact * pow2 (-53) + pow2 (-1075))%Q.
Proof.
  intros Hd q exact. destruct (reachable_inv d Hd) as [Pd Wd].
  destruct (scale_shape u) as (m & e & F & Dg & He & V).
  pose proof (div_positive_error (nanoseconds d) m e Wd Pd Dg He) as [Fq B].
  cbv zeta in Fq, B.
  pose proof (div_rounds_to (nanoseconds d) m e Wd Pd Fq) as R.
  rewrite <- F in Fq, B, R. fold (magnitude u d) in Fq, B, R. fold q in Fq, B, R.
  split; [exact Fq | split; [ | split]].
  - apply positive_number_finite. unfold q, magnitude. rewrite F.
    apply div_positive; [exact Pd | ]. rewrite <- F. exact Fq.
  - intros s Ws Fs. apply (rounds_to_nearest exact q s); [ | exact Ws | exact Fs].
    apply (rounds_to_value (value (nanoseconds d) / value (scale u))); [ | exact R].
    unfold exact. rewrite V. reflexivity.
  - rewrite V in B. exact B.
Qed.

Lemma X12_witness :
  let d := new_Duration (of_Z 2500000000) in
  reachable d /\
  isFinite (Duration.asMinutes d) = true /\
  (Qabs (value (Duration.asMinutes d) - 2500000000 / 60000000000)
   <= Qabs (value (of_decimal 4166666666666667 (-17))
            - 2500000000 / 60000000000))%Q /\
  (Qabs (value (Duration.asMinutes d) - 2500000000 / 60000000000)
   <= 2500000000 / 60000000000 * pow2 (-53) + pow2 (-1075))%Q.
Proof.
  intros d.
  assert (Rd : reachable d)
    by (apply (reach_fromMillis (of_Z 2500)); vm_compute; reflexivity).
  split; [exact Rd | ].
  pose proof (X12_observers_accurate d Minute Rd) as (H1 & _ & H3 & H4).
  split; [exact H1 | split; [ | exact H4]].
  exact (H3 (of_decimal 4166666666666667 (-17)) ltac:(vm_compute; reflexivity)
            ltac:(reflexivity)).
Defined.

(** X13. The unit round trip is exact whenever scaling needs no
    rounding: if the exact product of a non-negative [x] and the unit's
    scale is a double [r], the constructor stores exactly [r] and the
    matching observer gives [x] back. *)
Theorem X13_exact_scaling_round_trip (u : time_unit) (x r : number) :
  wf x -> wf r -> positive_number x = true -> positive_number r = true ->
  (value x * inject_Z (scale_Z u) == value r)%Q ->
  from_unit u x = Return (new_Duration r) /\
  magnitude u (new_Duration r) = x.
Proof.
  intros Wx Wr Px Pr V.
  destruct (scale_shape u) as (m & e & F & _ & _ & Vs).
  pose proof (scale_wf u) as Ws.
  pose proof (inject_Z_pos (scale_Z u) ltac:(pose proof (scale_Z_bounds u); lia)) as Pz.
  split.
  - rewrite from_unit_unfold.
    rewrite (mul_representable x (scale u) r); try assumption.
    + apply construct_positive. exact Pr.
    + rewrite F. reflexivity.
    + rewrite Vs. exact V.
  - unfold magnitude. cbn [nanoseconds]. rewrite F in *.
    apply div_representable; try assumption.
    rewrite <- V, Vs. field. lra.
Qed.

Lemma X13_witness :
  from_unit Second (of_decimal 15 (-1)) = Return (new_Duration (of_Z 1500000000)) /\
  magnitude Second (new_Duration (of_Z 1500000000)) = of_decimal 15 (-1).
Proof.
  apply (X13_exact_scaling_round_trip Second (of_decimal 15 (-1)) (of_Z 1500000000));
    vm_compute; reflexivity.
Defined.

(** ** Multiplication and division by a number *)

Lemma one_shape : exists m e, of_Z 1 = S754_finite false m e.
Proof. apply whole_positive_shape. lia. Qed.

(** X14. Factors one and zero: [d.mul(1)] and [d.div(1)] return [d]
    itself, and [d.mul(0)] returns [ZERO]. *)
Theorem X14_unit_and_zero_factors (d : Duration) :
  reachable d ->
  Duration.mul d (of_Z 1) = Return d /\
  Duration.div d (of_Z 1) = Return d /\
  Duration.mul d (of_Z 0) = Return Duration.ZERO.
Proof.
  intros Hd. destruct (reachable_inv d Hd) as [Pd Wd].
  destruct (whole_facts 1 ltac:(lia)) as (W1 & P1 & V1).
  destruct d as [x]. cbn [nanoseconds] in *.
  split; [ | split].
  - unfold Duration.mul. cbn [nanoseconds].
    rewrite (mul_representable x (of_Z 1) x); try assumption.
    + apply construct_positive. exact Pd.
    + rewrite V1. change (inject_Z 1) with 1%Q. ring.
  - destruct one_shape as (m & e & F1).
    unfold Duration.div. cbn [nanoseconds]. rewrite F1 in *.
    change (strict_eq (S754_finite false m e) (of_Z 0)) with false. cbv iota.
    rewrite (div_representable x x m e); try assumption.
    + apply construct_positive. exact Pd.
    + rewrite V1. change (inject_Z 1) with 1%Q. field.
  - unfold Duration.mul. cbn [nanoseconds].
    destruct (positive_number_cases x Pd) as [-> | (m & e & ->)]; reflexivity.
Qed.

Lemma X14_witness :
  let d := new_Duration (of_Z 2500000000) in
  reachable d /\ Duration.mul d (of_Z 1) = Return d /\
  Duration.div d (of_Z 1) = Return d.
Proof.
  intros d.
  assert (Rd : reachable d)
    by (apply (reach_fromMillis (of_Z 2500)); vm_compute; reflexivity).
  split; [exact Rd | ].
  pose proof (X14_unit_and_zero_factors d Rd) as (H1 & H2 & _).
  split; [exact H1 | exact H2].
Defined.

(** ** Display *)

Lemma scale_Z_odd_part (u : time_unit) :
  exists s a, Z.odd s = true /\ 0 < s /\ 0 <= a /\ scale_Z u = s * 2 ^ a.
Proof.
  destruct u;
    [exists 439453125, 13 | exists 29296875, 11 | exists 1953125, 9
     | exists 15625, 6 | exists 125, 3];
    repeat split; try reflexivity; lia.
Qed.

Lemma toString_scan (d : Duration) :
  Duration.toString d =
  match find (divides_evenly d) scan_order with
  | Some u => Str.Number_toString (Duration.round (magnitude u d)) ++ short_code u
  | None => Str.Number_toString (nanoseconds d) ++ "ns"
  end.
Proof.
  unfold Duration.toString, scan_order.
  cbn [find]. unfold divides_evenly. cbn [scale].
  repeat (destruct (strict_eq _ _); [reflexivity | ]). reflexivity.
Qed.

(** The magnitude in a unit that divides the count evenly is the whole
    quotient, computed exactly. *)
Lemma whole_magnitude (d : Duration) (u : time_unit) :
  reachable d -> divides_evenly d u = true ->
  exists k : Z,
    0 <= k /\
    (value (nanoseconds d) == inject_Z k * inject_Z (scale_Z u))%Q /\
    (value (magnitude u d) == inject_Z k)%Q /\
    isInteger (magnitude u d) = true.
Proof.
  intros Hd Hdiv. destruct (reachable_inv d Hd) as [Pd Wd].
  destruct (scale_shape u) as (mc & ec & F & _ & _ & Vs).
  pose proof (scale_wf u) as Wc.
  pose proof (inject_Z_pos (scale_Z u) ltac:(pose proof (scale_Z_bounds u); lia)) as Pz.
  unfold divides_evenly, magnitude in *. destruct d as [x]. cbn [nanoseconds] in *.
  rewrite F in *.
  destruct (positive_number_cases x Pd) as [-> | (m & e & ->)].
  - exists 0. split; [lia | ]. split; [cbn [value]; ring | ].
    split; reflexivity.
  - apply (rem_zero_value m mc e ec Wd Wc) in Hdiv as [k Hk]. rewrite Vs in Hk.
    pose proof (finite_value_pos m e) as Px.
    assert (Hk0 : 0 < k).
    { destruct (Z_lt_le_dec 0 k) as [ | Hle]; [assumption | exfalso].
      assert (inject_Z k <= 0)%Q
        by (change 0%Q with (inject_Z 0); rewrite <- Zle_Qle; assumption).
      assert (inject_Z k * inject_Z (scale_Z u) <= 0)%Q by nra.
      rewrite Hk in Px. lra. }
    destruct (scale_Z_odd_part u) as (s & a & Hs & Hs0 & Ha & Hsa).
    destruct (whole_quotient_representable m e k s a Wd Hk0 Hs Hs0 Ha) as (r & Wr & Pr & Vr).
    { rewrite <- Hsa. exact Hk. }
    assert (E : Num.div (S754_finite false m e) (S754_finite false mc ec) = r).
    { apply div_representable; try assumption.
      rewrite Vr, Hk, Vs. field. lra. }
    exists k. split; [lia | ]. split; [exact Hk | ]. rewrite E.
    split; [exact Vr | ].
    apply (isInteger_of_value r k); [ | exact Vr].
    apply positive_number_finite. exact Pr.
Qed.

(** X15. [toString] never rounds: when a unit divides the count evenly,
    the magnitude in that unit is the whole quotient, computed exactly, so
    the local [round] leaves it as it is and the six-decimal branch is
    never taken.  The output is the magnitude in the first such unit, or
    the raw count, as JavaScript prints the number, followed by the
    unit's short code. *)
Theorem X15_toString_never_rounds (d : Duration) :
  reachable d ->
  (forall u : time_unit,
     divides_evenly d u = true ->
     isInteger (magnitude u d) = true /\
     Duration.round (magnitude u d) = magnitude u d /\
     (value (magnitude u d) * inject_Z (scale_Z u) == value (nanoseconds d))%Q) /\
  Duration.toString d =
  match find (divides_evenly d) scan_order with
  | Some u => Str.Number_toString (magnitude u d) ++ short_code u
  | None => Str.Number_toString (nanoseconds d) ++ "ns"
  end.
Proof.
  intros Hd.
  assert (A : forall u : time_unit,
             divides_evenly d u = true ->
             isInteger (magnitude u d) = true /\
             Duration.round (magnitude u d) = magnitude u d /\
             (value (magnitude u d) * inject_Z (scale_Z u)
              == value (nanoseconds d))%Q).
  { intros u Hu. destruct (whole_magnitude d u Hd Hu) as (k & _ & Vd & Vm & I).
    split; [exact I | split].
    - unfold Duration.round. rewrite I. reflexivity.
    - rewrite Vm, Vd. reflexivity. }
  split; [exact A | ].
  rewrite toString_scan.
  destruct (find (divides_evenly d) scan_order) as [u | ] eqn:Hf; [ | reflexivity].
  apply find_some in Hf as [_ Hu].
  destruct (A u Hu) as (_ & -> & _). reflexivity.
Qed.

Lemma X15_witness :
  let d := new_Duration (of_Z 1500000000) in
  reachable d /\
  isInteger (magnitude Milli d) = true /\
  Duration.toString d = "1500ms".
Proof.
  intros d.
  assert (Rd : reachable d)
    by (apply (reach_fromMillis (of_Z 1500)); vm_compute; reflexivity).
  split; [exact Rd | ].
  pose proof (X15_toString_never_rounds d Rd) as [A T].
  split; [exact (proj1 (A Milli ltac:(vm_compute; reflexivity))) | ].
  rewrite T. vm_compute. reflexivity.
Defined.

(** ** Negative inputs *)

Lemma mul_negative (x k : number) :
  wf x -> wf k -> positive_number k = true ->
  isFinite x = true -> Num.lt x (of_Z 0) = true ->
  toPositive (Num.mul x k) =
  (if isFinite (Num.mul x k) then Return (of_Z 0) else Throw not_finite_error) /\
  toPositive (Num.mul k x) =
  (if isFinite (Num.mul k x) then Return (of_Z 0) else Throw not_finite_error).
Proof.
  intros Wx Wk Pk Fx Nx.
  destruct x as [[ | ] | [ | ] | | [ | ] mx ex]; try discriminate.
  destruct (positive_number_cases k Pk) as [-> | (mk & ek & ->)];
    [split; reflexivity | ].
  destruct (mul_rounded true false mx mk ex ek Wx Wk) as (-> & _).
  destruct (mul_rounded false true mk mx ek ex Wk Wx) as (-> & _).
  split; apply rounded_negative.
Qed.

(** X16. A finite negative input is clamped to [ZERO] only when scaling it
    stays finite: a unit constructor given a finite negative number, and
    [mul] given a finite negative factor, return [ZERO] when the product
    is finite and throw the "Value must be finite" error when it
    overflows. *)
Theorem X16_negative_inputs (x : number) :
  wf x -> isFinite x = true -> Num.lt x (of_Z 0) = true ->
  (forall u : time_unit,
     from_unit u x =
     if isFinite (Num.mul x (scale u)) then Return Duration.ZERO
     else Throw not_finite_error) /\
  (forall d : Duration,
     reachable d ->
     Duration.mul d x =
     if isFinite (Num.mul (nanoseconds d) x) then Return Duration.ZERO
     else Throw not_finite_error).
Proof.
  intros Wx Fx Nx. split.
  - intros u. rewrite from_unit_unfold.
    destruct (scale_facts u) as [Ps _].
    destruct (mul_negative x (scale u) Wx (scale_wf u) Ps Fx Nx) as [-> _].
    destruct (isFinite (Num.mul x (scale u))); reflexivity.
  - intros d Hd. destruct (reachable_inv d Hd) as [Pd Wd].
    unfold Duration.mul.
    destruct (mul_negative x (nanoseconds d) Wx Wd Pd Fx Nx) as [_ ->].
    destruct (isFinite (Num.mul (nanoseconds d) x)); reflexivity.
Qed.

Lemma X16_witness :
  from_unit Second (of_Z (-5)) = Return Duration.ZERO /\
  from_unit Hour (of_decimal (-1) 308) = Throw not_finite_error.
Proof.
  split.
  - exact (proj1 (X16_negative_inputs (of_Z (-5)) ltac:(vm_compute; reflexivity)
                   ltac:(reflexivity) ltac:(reflexivity)) Second).
  - exact (proj1 (X16_negative_inputs (of_decimal (-1) 308)
                   ltac:(vm_compute; reflexivity)
                   ltac:(vm_compute; reflexivity) ltac:(vm_compute; reflexivity)) Hour).
Defined.

(** ** Clamping *)

Lemma lt_negb_le (a b : Duration) :
  reachable a -> reachable b ->
  Duration.lt a b = negb (Duration.le b a) /\
  Duration.gt a b = negb (Duration.le a b).
Proof.
  intros Ha Hb.
  pose proof (comparison_of a b Ha Hb) as Cab. pose proof (comparison_of b a Hb Ha) as Cba.
  unfold Duration.lt, Duration.gt, Duration.le, Num.lt, Num.gt, Num.le, SFltb, SFleb.
  rewrite Cab, Cba.
  rewrite <- (Qcompare_antisym (value (nanoseconds a)) (value (nanoseconds b))).
  destruct (value (nanoseconds a) ?= value (nanoseconds b))%Q; split; reflexivity.
Qed.

(** X17. [clamp] is idempotent, and returns the Duration itself when it
    already lies between the bounds. *)
Theorem X17_clamp_idempotent (d lo hi r : Duration) :
  reachable d -> reachable lo -> reachable hi ->
  Duration.clamp d lo hi = Return r ->
  Duration.clamp r lo hi = Return r /\
  (Duration.le lo d = true -> Duration.le d hi = true -> r = d).
Proof.
  intros Hd Hlo Hhi H.
  assert (G : Duration.gt lo hi = false).
  { unfold Duration.clamp in H. destruct (Duration.gt lo hi); [discriminate | reflexivity]. }
  pose proof (reach_clamp d lo hi r Hd Hlo Hhi H) as Hr.
  rewrite (clamp_result d lo hi Hd Hlo Hhi G) in H.
  rewrite (clamp_result r lo hi Hr Hlo Hhi G).
  destruct (lt_negb_le d lo Hd Hlo) as [L1 _].
  destruct (lt_negb_le d hi Hd Hhi) as [_ G1].
  destruct (lt_negb_le lo lo Hlo Hlo) as [L2 _].
  destruct (lt_negb_le hi hi Hhi Hhi) as [_ G2].
  destruct (lt_negb_le lo hi Hlo Hhi) as [_ G3].
  destruct (comparisons_value lo lo Hlo Hlo) as (_ & LEl & _).
  destruct (comparisons_value hi hi Hhi Hhi) as (_ & LEh & _).
  cbv zeta in LEl, LEh.
  assert (Rl : Duration.le lo lo = true) by (apply LEl, Qle_refl).
  assert (Rh : Duration.le hi hi = true) by (apply LEh, Qle_refl).
  rewrite Rl in L2. rewrite Rh in G2. cbn [negb] in L2, G2.
  assert (Nl : forall z, new_Duration (nanoseconds z) = z) by (intros []; reflexivity).
  destruct (Duration.lt d lo) eqn:E1.
  - inversion H as [Hr']. rewrite Nl in *. subst r.
    split; [rewrite L2, G, Nl; reflexivity | ].
    intros C. rewrite C in L1. discriminate.
  - destruct (Duration.gt d hi) eqn:E2.
    + inversion H as [Hr']. rewrite Nl in *. subst r.
      assert (E3 : Duration.lt hi lo = false) by exact G.
      split; [rewrite E3, G2, Nl; reflexivity | ].
      intros _ C. rewrite C in G1. discriminate.
    + inversion H as [Hr']. rewrite Nl in *. subst r.
      split; [rewrite E1, E2, Nl; reflexivity | reflexivity].
Qed.

Lemma X17_witness :
  let d := new_Duration (of_Z 5000000000) in
  let lo := new_Duration (of_Z 1000000000) in
  let hi := new_Duration (of_Z 3000000000) in
  reachable d /\ reachable lo /\ reachable hi /\
  Duration.clamp d lo hi = Return hi /\ Duration.clamp hi lo hi = Return hi.
Proof.
  intros d lo hi.
  assert (Rd : reachable d)
    by (apply (reach_fromSecs (of_Z 5)); vm_compute; reflexivity).
  assert (Rl : reachable lo)
    by (apply (reach_fromSecs (of_Z 1)); vm_compute; reflexivity).
  assert (Rh : reachable hi)
    by (apply (reach_fromSecs (of_Z 3)); vm_compute; reflexivity).
  assert (H : Duration.clamp d lo hi = Return hi) by (vm_compute; reflexivity).
  split; [exact Rd | split; [exact Rl | split; [exact Rh | split; [exact H | ]]]].
  exact (proj1 (X17_clamp_idempotent d lo hi hi Rd Rl Rh H)).
Defined.

(** ** Accuracy of the arithmetic *)

Lemma returned_count (raw : number) (d : Duration) :
  (n <- toPositive raw ;; Return (new_Duration n)) = Return d ->
  isFinite raw = true /\ (positive_number raw = true -> nanoseconds d = raw).
Proof.
  intros H. apply construct_inv in H. split.
  - unfold toPositive in H. destruct (isFinite raw); [reflexivity | discriminate].
  - intros P. rewrite (toPositive_positive raw P) in H. inversion H. reflexivity.
Qed.

(** X18. Sums and differences are rounded to a nearest double: the
    count of [a.add(b)] is a double nearest to the exact sum of the counts
    (no finite double is closer), and so is the count of [a.sub(b)] with
    respect to the exact difference when [a] exceeds [b].  In particular
    the error is at most the exact result times [2^-53], plus
    [2^-1075]. *)
Theorem X18_add_sub_accurate (a b d : Duration) :
  reachable a -> reachable b ->
  let va := value (nanoseconds a) in
  let vb := value (nanoseconds b) in
  (Duration.add a b = Return d ->
   (forall s : number,
      wf s -> isFinite s = true ->
      (Qabs (value (nanoseconds d) - (va + vb))
       <= Qabs (value s - (va + vb)))%Q) /\
   (Qabs (value (nanoseconds d) - (va + vb))
    <= (va + vb) * pow2 (-53) + pow2 (-1075))%Q) /\
  (Duration.sub a b = Return d -> Duration.le a b = false ->
   (forall s : number,
      wf s -> isFinite s = true ->
      (Qabs (value (nanoseconds d) - (va - vb))
       <= Qabs (value s - (va - vb)))%Q) /\
   (Qabs (value (nanoseconds d) - (va - vb))
    <= (va - vb) * pow2 (-53) + pow2 (-1075))%Q).
Proof.
  intros Ha Hb va vb.
  destruct (reachable_inv a Ha) as [Pa Wa]. destruct (reachable_inv b Hb) as [Pb Wb].
  split.
  - intros H. unfold Duration.add in H. apply returned_count in H as [F E].
    rewrite (E (add_positive _ _ Pa Pb F)). split.
    + intros s Ws Fs.
      exact (rounds_to_nearest _ _ s (add_rounds_to _ _ Wa Wb Pa Pb F) Ws Fs).
    + exact (add_error _ _ Pa Pb F).
  - intros H L. unfold Duration.sub in H. apply returned_count in H as [F E].
    destruct (sub_sign _ _ Wa Wb Pa Pb) as [_ S2].
    destruct (S2 L) as (m & e & Hs).
    assert (P : positive_number (Num.sub (nanoseconds a) (nanoseconds b)) = true)
      by (rewrite Hs; reflexivity).
    rewrite (E P). split.
    + intros s Ws Fs.
      exact (rounds_to_nearest _ _ s (sub_rounds_to _ _ Wa Wb Pa Pb P) Ws Fs).
    + exact (sub_error _ _ Pa Pb P).
Qed.

Lemma X18_witness :
  let a := new_Duration (of_Z (2 ^ 55 - 8)) in
  let b := new_Duration (of_Z 3) in
  let d := new_Duration (of_Z (2 ^ 55 - 4)) in
  let s := of_Z (2 ^ 55 - 8) in
  reachable a /\ reachable b /\ Duration.add a b = Return d /\
  (Qabs (value (nanoseconds d) - (value (nanoseconds a) + value (nanoseconds b)))
   <= Qabs (value s - (value (nanoseconds a) + value (nanoseconds b))))%Q.
Proof.
  intros a b d s.
  assert (Ra : reachable a)
    by (apply (reach_fromNanos (of_Z (2 ^ 55 - 8))); vm_compute; reflexivity).
  assert (Rb : reachable b)
    by (apply (reach_fromNanos (of_Z 3)); vm_compute; reflexivity).
  assert (H : Duration.add a b = Return d) by (vm_compute; reflexivity).
  split; [exact Ra | split; [exact Rb | split; [exact H | ]]].
  exact (proj1 (proj1 (X18_add_sub_accurate a b d Ra Rb) H) s
           ltac:(vm_compute; reflexivity) ltac:(reflexivity)).
Defined.

(** X19. Scaling is rounded to a nearest double: for a non-negative input
    [x], the count stored by a unit constructor is a double nearest to the
    exact product of [x] and the unit's scale (no finite double is
    closer), and so is the count of [d.mul(k)] with respect to the exact
    product for a non-negative factor [k].  In particular the error is at
    most the exact product times [2^-53], plus [2^-1075]. *)
Theorem X19_scaling_accurate (x : number) (d r : Duration) :
  wf x -> positive_number x = true ->
  (forall u : time_unit,
     from_unit u x = Return r ->
     let exact := (value x * inject_Z (scale_Z u))%Q in
     (forall s : number,
        wf s -> isFinite s = true ->
        (Qabs (value (nanoseconds r) - exact) <= Qabs (value s - exact))%Q) /\
     (Qabs (value (nanoseconds r) - exact) <= exact * pow2 (-53) + pow2 (-1075))%Q) /\
  (reachable d -> Duration.mul d x = Return r ->
   let exact := (value (nanoseconds d) * value x)%Q in
   (forall s : number,
      wf s -> isFinite s = true ->
      (Qabs (value (nanoseconds r) - exact) <= Qabs (value s - exact))%Q) /\
   (Qabs (value (nanoseconds r) - exact) <= exact * pow2 (-53) + pow2 (-1075))%Q).
Proof.
  intros Wx Px. split.
  - intros u H exact. rewrite from_unit_unfold in H.
    apply returned_count in H as [F E].
    destruct (scale_facts u) as [Ps Vs]. pose proof (scale_wf u) as Ws.
    rewrite (E (mul_positive _ _ Wx Ws Px Ps F)). split.
    + intros s Wfs Fs. apply (rounds_to_nearest exact _ s); [ | exact Wfs | exact Fs].
      apply (rounds_to_value (value x * value (scale u)));
        [unfold exact; rewrite Vs; reflexivity | ].
      apply mul_rounds_to; assumption.
    + pose proof (mul_positive_error _ _ Wx Ws Px Ps F) as B.
      rewrite Vs in B. exact B.
  - intros Hd H exact. destruct (reachable_inv d Hd) as [Pd Wd].
    unfold Duration.mul in H. apply returned_count in H as [F E].
    rewrite (E (mul_positive _ _ Wd Wx Pd Px F)). split.
    + intros s Wfs Fs.
      exact (rounds_to_nearest _ _ s (mul_rounds_to _ _ Wd Wx Pd Px F) Wfs Fs).
    + exact (mul_positive_error _ _ Wd Wx Pd Px F).
Qed.

Lemma X19_witness :
  let x := of_decimal 1 (-1) in
  let r := new_Duration (of_Z 100000000) in
  let s := of_decimal 1000000000000001 (-7) in
  from_unit Second x = Return r /\
  (Qabs (value (nanoseconds r) - value x * inject_Z (scale_Z Second))
   <= Qabs (value s - value x * inject_Z (scale_Z Second)))%Q /\
  (Qabs (value (nanoseconds r) - value x * inject_Z (scale_Z Second))
   <= value x * inject_Z (scale_Z Second) * pow2 (-53) + pow2 (-1075))%Q.
Proof.
  intros x r s.
  assert (H : from_unit Second x = Return r) by (vm_compute; reflexivity).
  split; [exact H | ].
  destruct (proj1 (X19_scaling_accurate x r r ltac:(vm_compute; reflexivity)
                     ltac:(reflexivity)) Second H) as [N B].
  split; [ | exact B].
  exact (N s ltac:(vm_compute; reflexivity) ltac:(reflexivity)).
Defined.

(** ** Composition of [add] and [sub] *)

(** X20. On whole numbers of nanoseconds whose sum stays below [2^53],
    [sub] undoes [add], and [a.sub(b).add(b)] is the larger of [a] and [b]
    (the difference saturates at zero first).  With fractional counts
    [sub] need not undo [add]: half a nanosecond added to [2^53]
    nanoseconds and subtracted again leaves zero. *)
Theorem X20_add_sub_compose (m n : Z) :
  0 <= m -> 0 <= n -> m + n < 2 ^ 53 ->
  let a := new_Duration (of_Z m) in
  let b := new_Duration (of_Z n) in
  (s <- Duration.add a b ;; Duration.sub s b) = Return a /\
  (s <- Duration.sub a b ;; Duration.add s b)
  = Return (new_Duration (of_Z (Z.max m n))) /\
  (let h := new_Duration (of_decimal 5 (-1)) in
   let big := new_Duration (of_Z (2 ^ 53)) in
   reachable h /\ reachable big /\
   (s <- Duration.add h big ;; Duration.sub s big) = Return Duration.ZERO /\
   Duration.isZero h = false).
Proof.
  intros Hm Hn Hs a b. unfold a, b.
  split; [ | split].
  - rewrite (whole_add m n Hm Hn Hs). cbn [bind].
    rewrite (whole_sub (m + n) n) by lia.
    replace (Z.max 0 (m + n - n)) with m by lia. reflexivity.
  - rewrite (whole_sub m n) by lia. cbn [bind].
    rewrite (whole_add (Z.max 0 (m - n)) n) by lia.
    replace (Z.max 0 (m - n) + n) with (Z.max m n) by lia. reflexivity.
  - split; [ | split; [ | split]].
    + apply (reach_fromNanos (of_decimal 5 (-1))); vm_compute; reflexivity.
    + apply (reach_fromNanos (of_Z (2 ^ 53))); vm_compute; reflexivity.
    + vm_compute. reflexivity.
    + reflexivity.
Qed.

Lemma X20_witness :
  let a := new_Duration (of_Z 1500) in
  let b := new_Duration (of_Z 4000) in
  (s <- Duration.add a b ;; Duration.sub s b) = Return a /\
  (s <- Duration.sub a b ;; Duration.add s b) = Return b.
Proof.
  pose proof (X20_add_sub_compose 1500 4000 ltac:(lia) ltac:(lia) ltac:(lia))
    as (H1 & H2 & _).
  split; [exact H1 | exact H2].
Defined.

(** ** Order is preserved *)

Lemma num_le_of_value (x y : number) :
  wf x -> wf y -> positive_number x = true -> positive_number y = true ->
  (value x <= value y)%Q -> Num.le x y = true.
Proof.
  intros Wx Wy Px Py H. unfold Num.le, SFleb.
  rewrite (compare_value x y Wx Wy Px Py).
  destruct (Qcompare_spec (value x) (value y)) as [E | E | E]; try reflexivity.
  exfalso. apply (Qlt_not_le _ _ E). exact H.
Qed.

Lemma value_of_le (a b : Duration) :
  reachable a -> reachable b -> Duration.le a b = true ->
  (value (nanoseconds a) <= value (nanoseconds b))%Q.
Proof.
  intros Ha Hb H. destruct (comparisons_value a b Ha Hb) as (_ & LE & _).
  apply LE. exact H.
Qed.

Lemma magnitude_facts (d : Duration) (u : time_unit) :
  reachable d ->
  isFinite (magnitude u d) = true /\ wf (magnitude u d) /\
  positive_number (magnitude u d) = true.
Proof.
  intros Hd. destruct (reachable_inv d Hd) as [Pd Wd].
  destruct (scale_shape u) as (m & e & F & Dg & He & V).
  pose proof (div_positive_error (nanoseconds d) m e Wd Pd Dg He) as [Fq _].
  cbv zeta in Fq. unfold magnitude. rewrite F.
  split; [exact Fq | split].
  - apply div_wf; [exact Wd | ]. rewrite <- F. apply scale_wf.
  - apply div_positive; assumption.
Qed.

(** X21. The observers preserve order: when [a.le(b)], each of
    [asMicros], [asMillis], [asSecs], [asMinutes] and [asHours] returns for
    [a] a number that is [<=] the one it returns for [b]. *)
Theorem X21_observers_preserve_order (a b : Duration) (u : time_unit) :
  reachable a -> reachable b -> Duration.le a b = true ->
  Num.le (magnitude u a) (magnitude u b) = true.
Proof.
  intros Ha Hb H.
  destruct (reachable_inv a Ha) as [Pa Wa]. destruct (reachable_inv b Hb) as [Pb Wb].
  destruct (magnitude_facts a u Ha) as (Fa & Wma & Pma).
  destruct (magnitude_facts b u Hb) as (Fb & Wmb & Pmb).
  apply num_le_of_value; try assumption.
  pose proof (value_of_le a b Ha Hb H) as V.
  destruct (scale_shape u) as (m & e & F & _). unfold magnitude in *. rewrite F in *.
  apply div_monotone; assumption.
Qed.

Lemma X21_witness :
  let a := new_Duration (of_Z 1000000000) in
  let b := new_Duration (of_Z 2500000000) in
  reachable a /\ reachable b /\
  Num.le (Duration.asMinutes a) (Duration.asMinutes b) = true.
Proof.
  intros a b.
  assert (Ra : reachable a)
    by (apply (reach_fromSecs (of_Z 1)); vm_compute; reflexivity).
  assert (Rb : reachable b)
    by (apply (reach_fromMillis (of_Z 2500)); vm_compute; reflexivity).
  split; [exact Ra | split; [exact Rb | ]].
  exact (X21_observers_preserve_order a b Minute Ra Rb ltac:(reflexivity)).
Defined.

Lemma returned_positive (raw : number) (d : Duration) :
  (n <- toPositive raw ;; Return (new_Duration n)) = Return d ->
  positive_number raw = true -> nanoseconds d = raw /\ isFinite raw = true.
Proof.
  intros H P. destruct (returned_count raw d H) as [F E]. split; [exact (E P) | exact F].
Qed.

Lemma sub_returned (a b d : Duration) :
  reachable a -> reachable b -> Duration.sub a b = Return d ->
  (Duration.le a b = true /\ nanoseconds d = of_Z 0) \/
  (Duration.le a b = false /\
   positive_number (Num.sub (nanoseconds a) (nanoseconds b)) = true /\
   nanoseconds d = Num.sub (nanoseconds a) (nanoseconds b)).
Proof.
  intros Ha Hb H.
  destruct (reachable_inv a Ha) as [Pa Wa]. destruct (reachable_inv b Hb) as [Pb Wb].
  destruct (sub_sign _ _ Wa Wb Pa Pb) as [S1 S2].
  unfold Duration.sub in H.
  destruct (Duration.le a b) eqn:L; unfold Duration.le in L.
  - left. split; [reflexivity | ]. rewrite (S1 L) in H. inversion H. reflexivity.
  - right. split; [reflexivity | ]. destruct (S2 L) as (m & e & Hs).
    assert (P : positive_number (Num.sub (nanoseconds a) (nanoseconds b)) = true)
      by (rewrite Hs; reflexivity).
    split; [exact P | ]. apply (returned_positive _ _ H P).
Qed.

(** X22. The arithmetic preserves order.  When [a.le(a')]: adding the
    same Duration, subtracting the same Duration, multiplying by the same
    non-negative factor and dividing by the same positive divisor give
    results in the same order; and subtracting [a'] from a Duration
    leaves no more than subtracting [a]. *)
Theorem X22_arithmetic_preserves_order (a a' b : Duration) :
  reachable a -> reachable a' -> reachable b -> Duration.le a a' = true ->
  (forall d d' : Duration,
     Duration.add a b = Return d -> Duration.add a' b = Return d' ->
     Duration.le d d' = true) /\
  (forall d d' : Duration,
     Duration.sub a b = Return d -> Duration.sub a' b = Return d' ->
     Duration.le d d' = true) /\
  (forall d d' : Duration,
     Duration.sub b a = Return d -> Duration.sub b a' = Return d' ->
     Duration.le d' d = true) /\
  (forall (k : number) (d d' : Duration),
     wf k -> positive_number k = true ->
     Duration.mul a k = Return d -> Duration.mul a' k = Return d' ->
     Duration.le d d' = true) /\
  (forall (k : number) (d d' : Duration),
     wf k -> positive_number k = true ->
     Duration.div a k = Return d -> Duration.div a' k = Return d' ->
     Duration.le d d' = true).
Proof.
  intros Ha Ha' Hb H.
  destruct (reachable_inv a Ha) as [Pa Wa]. destruct (reachable_inv a' Ha') as [Pa' Wa'].
  destruct (reachable_inv b Hb) as [Pb Wb].
  pose proof (value_of_le a a' Ha Ha' H) as V.
  split; [ | split; [ | split; [ | split]]].
  - intros d d' A A'.
    pose proof (reach_add _ _ _ Ha Hb A) as Hd.
    pose proof (reach_add _ _ _ Ha' Hb A') as Hd'.
    unfold Duration.add in A, A'.
    destruct (returned_count _ _ A) as [F E].
    destruct (returned_count _ _ A') as [F' E'].
    apply le_of_value; try assumption.
    rewrite (E (add_positive _ _ Pa Pb F)), (E' (add_positive _ _ Pa' Pb F')).
    apply add_monotone; assumption.
  - intros d d' S S'.
    pose proof (reach_sub _ _ _ Ha Hb S) as Hd.
    pose proof (reach_sub _ _ _ Ha' Hb S') as Hd'.
    destruct (reachable_inv d' Hd') as [Pd' _].
    apply le_of_value; try assumption.
    destruct (sub_returned a b d Ha Hb S) as [[_ E] | (L & P & E)].
    + rewrite E. apply (value_nonneg _ Pd').
    + destruct (sub_returned a' b d' Ha' Hb S') as [[L' _] | (_ & P' & E')].
      * exfalso. pose proof (value_of_le a' b Ha' Hb L') as V'.
        assert (L0 : Duration.le a b = true) by (apply le_of_value; try assumption; lra).
        congruence.
      * rewrite E, E'. apply sub_monotone_l; assumption.
  - intros d d' S S'.
    pose proof (reach_sub _ _ _ Hb Ha S) as Hd.
    pose proof (reach_sub _ _ _ Hb Ha' S') as Hd'.
    destruct (reachable_inv d Hd) as [Pd _].
    apply le_of_value; try assumption.
    destruct (sub_returned b a' d' Hb Ha' S') as [[_ E'] | (L' & P' & E')].
    + rewrite E'. apply (value_nonneg _ Pd).
    + destruct (sub_returned b a d Hb Ha S) as [[L _] | (_ & P & E)].
      * exfalso. pose proof (value_of_le b a Hb Ha L) as V'.
        assert (L0 : Duration.le b a' = true) by (apply le_of_value; try assumption; lra).
        congruence.
      * rewrite E, E'. apply sub_monotone_r; assumption.
  - intros k d d' Wk Pk M M'.
    pose proof (reach_mul _ _ _ Ha Wk M) as Hd.
    pose proof (reach_mul _ _ _ Ha' Wk M') as Hd'.
    unfold Duration.mul in M, M'.
    destruct (returned_count _ _ M) as [F E].
    destruct (returned_count _ _ M') as [F' E'].
    apply le_of_value; try assumption.
    rewrite (E (mul_positive _ _ Wa Wk Pa Pk F)), (E' (mul_positive _ _ Wa' Wk Pa' Pk F')).
    apply mul_monotone; assumption.
  - intros k d d' Wk Pk D D'.
    pose proof (reach_div _ _ _ Ha Wk D) as Hd.
    pose proof (reach_div _ _ _ Ha' Wk D') as Hd'.
    unfold Duration.div in D, D'.
    destruct (positive_number_cases k Pk) as [-> | (mk & ek & ->)]; [discriminate | ].
    change (strict_eq (S754_finite false mk ek) (of_Z 0)) with false in D, D'.
    cbv iota in D, D'.
    destruct (returned_count _ _ D) as [F E].
    destruct (returned_count _ _ D') as [F' E'].
    apply le_of_value; try assumption.
    rewrite (E (div_positive _ mk ek Pa F)), (E' (div_positive _ mk ek Pa' F')).
    apply div_monotone; assumption.
Qed.

Lemma X22_witness :
  let a := new_Duration (of_Z 1000000000) in
  let a' := new_Duration (of_Z 2500000000) in
  let b := new_Duration (of_Z 1500) in
  reachable a /\ reachable a' /\ reachable b /\
  forall d d' : Duration,
    Duration.add a b = Return d -> Duration.add a' b = Return d' ->
    Duration.le d d' = true.
Proof.
  intros a a' b.
  assert (Ra : reachable a)
    by (apply (reach_fromSecs (of_Z 1)); vm_compute; reflexivity).
  assert (Ra' : reachable a')
    by (apply (reach_fromMillis (of_Z 2500)); vm_compute; reflexivity).
  assert (Rb : reachable b)
    by (apply (reach_fromNanos (of_Z 1500)); vm_compute; reflexivity).
  split; [exact Ra | split; [exact Ra' | split; [exact Rb | ]]].
  exact (proj1 (X22_arithmetic_preserves_order a a' b Ra Ra' Rb ltac:(reflexivity))).
Defined.

(** X23. Scaling moves a Duration the expected way, rounding included:
    [d.mul(k)] is not below [d] for a factor of one or more and not above
    it for a factor of at most one; [d.div(k)] the other way round; and no
    observer returns more than [asNanos]. *)
Theorem X23_scaling_direction (d r : Duration) (k : number) :
  reachable d -> wf k -> positive_number k = true ->
  (Duration.mul d k = Return r ->
   ((1 <= value k)%Q -> Duration.le d r = true) /\
   ((value k <= 1)%Q -> Duration.le r d = true)) /\
  (Duration.div d k = Return r ->
   ((1 <= value k)%Q -> Duration.le r d = true) /\
   ((value k <= 1)%Q -> Duration.le d r = true)) /\
  (forall u : time_unit,
     Num.le (magnitude u d) (Duration.asNanos d) = true).
Proof.
  intros Hd Wk Pk. destruct (reachable_inv d Hd) as [Pd Wd].
  pose proof (value_nonneg _ Pd) as Nd.
  split; [ | split].
  - intros M. pose proof (reach_mul _ _ _ Hd Wk M) as Hr.
    unfold Duration.mul in M. destruct (returned_count _ _ M) as [F E].
    pose proof (mul_rounds_to _ _ Wd Wk Pd Pk F) as R.
    rewrite <- (E (mul_positive _ _ Wd Wk Pd Pk F)) in R.
    split; intros Hk; apply le_of_value; try assumption.
    + apply (rounds_to_below _ _ _ R Wd Pd). nra.
    + apply (rounds_to_above _ _ _ R Wd Pd). nra.
  - intros D. pose proof (reach_div _ _ _ Hd Wk D) as Hr.
    unfold Duration.div in D.
    destruct (positive_number_cases k Pk) as [-> | (mk & ek & ->)]; [discriminate | ].
    change (strict_eq (S754_finite false mk ek) (of_Z 0)) with false in D.
    cbv iota in D. destruct (returned_count _ _ D) as [F E].
    pose proof (div_rounds_to _ mk ek Wd Pd F) as R.
    rewrite <- (E (div_positive _ mk ek Pd F)) in R.
    pose proof (finite_value_pos mk ek) as Pv.
    split; intros Hk; apply le_of_value; try assumption.
    + apply (rounds_to_above _ _ _ R Wd Pd).
      apply Qle_shift_div_r; [exact Pv | ]. nra.
    + apply (rounds_to_below _ _ _ R Wd Pd).
      apply Qle_shift_div_l; [exact Pv | ]. nra.
  - intros u. destruct (magnitude_facts d u Hd) as (F & Wm & Pm).
    unfold Duration.asNanos. apply num_le_of_value; try assumption.
    destruct (scale_shape u) as (m & e & Fs & _ & _ & V).
    unfold magnitude in *. rewrite Fs in *.
    pose proof (div_rounds_to _ m e Wd Pd F) as R.
    apply (rounds_to_above _ _ _ R Wd Pd).
    pose proof (finite_value_pos m e) as Pv.
    apply Qle_shift_div_r; [exact Pv | ].
    assert (1 <= value (S754_finite false m e))%Q.
    { rewrite V. change 1%Q with (inject_Z 1). rewrite <- Zle_Qle.
      pose proof (scale_Z_bounds u). lia. }
    nra.
Qed.

Lemma X23_witness :
  let d := new_Duration (of_Z 2500000000) in
  let r := new_Duration (of_Z 7500000000) in
  reachable d /\ Duration.mul d (of_Z 3) = Return r /\ Duration.le d r = true.
Proof.
  intros d r.
  assert (Rd : reachable d)
    by (apply (reach_fromMillis (of_Z 2500)); vm_compute; reflexivity).
  assert (M : Duration.mul d (of_Z 3) = Return r) by (vm_compute; reflexivity).
  split; [exact Rd | split; [exact M | ]].
  exact (proj1 (proj1 (X23_scaling_direction d r (of_Z 3) Rd
                         ltac:(vm_compute; reflexivity) ltac:(reflexivity)) M)
           ltac:(vm_compute; discriminate)).
Defined.

Lemma from_unit_reachable (u : time_unit) (x : number) (d : Duration) :
  wf x -> from_unit u x = Return d -> reachable d.
Proof.
  intros Wx H. destruct u; cbn [from_unit] in H;
    [eapply reach_fromHours | eapply reach_fromMinutes | eapply reach_fromSecs
     | eapply reach_fromMillis | eapply reach_fromMicros]; eassumption.
Qed.

Lemma validated_order (x y : number) (d d' : Duration) :
  reachable d -> reachable d' ->
  toPositive x = Return (nanoseconds d) ->
  toPositive y = Return (nanoseconds d') ->
  (forall m e, x = S754_finite false m e ->
               positive_number y = true /\ (value x <= value y)%Q) ->
  Duration.le d d' = true.
Proof.
  intros Hd Hd' Tx Ty Hv.
  destruct (reachable_inv d' Hd') as [Pd' _].
  apply le_of_value; try assumption.
  destruct x as [[ | ] | [ | ] | | [ | ] m e]; try discriminate;
    try (cbn in Tx; inversion Tx as [Ex]; apply (value_nonneg _ Pd')).
  destruct (Hv m e eq_refl) as [Py V].
  rewrite (toPositive_positive y Py) in Ty.
  cbn in Tx. inversion Tx as [Ex]. inversion Ty as [Ey]. rewrite <- Ey. exact V.
Qed.

Lemma le_positive (x y : number) (m : positive) (e : Z) :
  wf x -> wf y -> isFinite y = true -> Num.le x y = true ->
  x = S754_finite false m e ->
  positive_number y = true /\ (value x <= value y)%Q.
Proof.
  intros Wx Wy Fy L ->.
  assert (Py : positive_number y = true)
    by (destruct y as [[ | ] | [ | ] | | [ | ] my ey]; try discriminate; reflexivity).
  split; [exact Py | ].
  revert L. unfold Num.le, SFleb. rewrite (compare_value _ y Wx Wy eq_refl Py).
  destruct (Qcompare_spec (value (S754_finite false m e)) (value y)) as [E | E | E];
    try discriminate; intros _.
  - rewrite E. apply Qle_refl.
  - apply Qlt_le_weak. exact E.
Qed.

(** X24. The constructors preserve order: for numbers [x <= y] on which
    a constructor returns, the Duration built from [x] is [le] the one
    built from [y], for [fromNanos] and for every unit constructor,
    negative inputs (clamped to zero) included. *)
Theorem X24_constructors_preserve_order (x y : number) (d d' : Duration) :
  wf x -> wf y -> Num.le x y = true ->
  (Duration.fromNanos x = Return d -> Duration.fromNanos y = Return d' ->
   Duration.le d d' = true) /\
  (forall u : time_unit,
     from_unit u x = Return d -> from_unit u y = Return d' ->
     Duration.le d d' = true).
Proof.
  intros Wx Wy L. split.
  - intros H H'.
    pose proof (reach_fromNanos x d Wx H) as Hd.
    pose proof (reach_fromNanos y d' Wy H') as Hd'.
    unfold Duration.fromNanos in H, H'.
    destruct (returned_count _ _ H') as [Fy _].
    apply construct_inv in H. apply construct_inv in H'.
    apply (validated_order x y d d'); try assumption.
    intros m e Ex. apply (le_positive x y m e Wx Wy Fy L Ex).
  - intros u H H'.
    pose proof (from_unit_reachable u x d Wx H) as Hd.
    pose proof (from_unit_reachable u y d' Wy H') as Hd'.
    rewrite from_unit_unfold in H, H'.
    destruct (returned_count _ _ H) as [F _].
    destruct (returned_count _ _ H') as [F' _].
    apply construct_inv in H. apply construct_inv in H'.
    destruct (scale_shape u) as (ms & es & Fs & _ & _ & _).
    pose proof (scale_wf u) as Ws.
    assert (Ps : positive_number (scale u) = true) by (rewrite Fs; reflexivity).
    assert (Fy : isFinite y = true).
    { destruct y as [sy | sy | | sy my ey]; try reflexivity;
        rewrite Fs in F'; discriminate. }
    apply (validated_order (Num.mul x (scale u)) (Num.mul y (scale u)) d d');
      try assumption.
    intros m e Em.
    assert (Sx : exists mx ex, x = S754_finite false mx ex).
    { revert Em. rewrite Fs in *.
      destruct x as [[ | ] | [ | ] | | [ | ] mx ex]; try discriminate; [ | eauto].
      destruct (mul_rounded true false mx ms ex es Wx Ws) as (-> & _).
      cbn [xorb]. unfold rounded.
      destruct (rne _ _) as [ | p | p]; try discriminate.
      destruct (_ <? _); destruct (_ <=? _); discriminate. }
    destruct Sx as (mx & ex & Ex).
    destruct (le_positive x y mx ex Wx Wy Fy L Ex) as [Py V].
    assert (Px : positive_number x = true) by (rewrite Ex; reflexivity).
    split; [apply mul_positive; assumption | apply mul_monotone; assumption].
Qed.

Lemma X24_witness :
  let d := new_Duration (of_Z 0) in
  let d' := new_Duration (of_Z 2500000000) in
  from_unit Milli (of_Z (-3)) = Return d /\
  from_unit Milli (of_Z 2500) = Return d' /\
  Duration.le d d' = true.
Proof.
  intros d d'.
  assert (H : from_unit Milli (of_Z (-3)) = Return d) by (vm_compute; reflexivity).
  assert (H' : from_unit Milli (of_Z 2500) = Return d') by (vm_compute; reflexivity).
  split; [exact H | split; [exact H' | ]].
  exact (proj2 (X24_constructors_preserve_order (of_Z (-3)) (of_Z 2500) d d'
                  ltac:(vm_compute; reflexivity) ltac:(vm_compute; reflexivity)
                  ltac:(reflexivity)) Milli H H').
Defined.

(** * Display, against the wording of the specification *)

Lemma divides_evenly_value (d : Duration) (u : time_unit) :
  reachable d ->
  (divides_evenly d u = true <->
   exists k : Z,
     (value (nanoseconds d) == inject_Z k * inject_Z (scale_Z u))%Q).
Proof.
  intros Hd. destruct (reachable_inv d Hd) as [Pd Wd].
  unfold divides_evenly. destruct d as [x]. cbn [nanoseconds] in *.
  destruct (scale_shape u) as (mc & ec & Hs & _ & _ & Hv).
  pose proof (scale_wf u) as Wc. rewrite Hs in *.
  destruct (positive_number_cases _ Pd) as [-> | (m & e & ->)].
  - split; [ | reflexivity]. intros _. exists 0. cbn [value]. ring.
  - rewrite (rem_zero_value m mc e ec Wd Wc).
    split; intros [k Hk]; exists k.
    + rewrite Hk, Hv. reflexivity.
    + rewrite Hk, Hv. reflexivity.
Qed.

Lemma divides_evenly_spec_value (d : Duration) (u : time_unit) :
  divides_evenly_spec d u = true <->
  exists k : Z,
    (value (nanoseconds d) == inject_Z k * inject_Z (scale_Z u))%Q.
Proof.
  unfold divides_evenly_spec. cbv zeta. rewrite Qeq_bool_iff.
  pose proof (inject_Z_pos (scale_Z u) ltac:(pose proof (scale_Z_bounds u); lia)) as Ps.
  split.
  - intros H. eexists. exact H.
  - intros [k Hk].
    assert (Hq : (value (nanoseconds d) / inject_Z (scale_Z u) == inject_Z k)%Q).
    { rewrite Hk. field. lra. }
    rewrite Hq, Qfloor_Z. exact Hk.
Qed.

(** The remainder test of the source is the exact divisibility test. *)
Lemma divides_agree (d : Duration) (u : time_unit) :
  reachable d -> divides_evenly d u = divides_evenly_spec d u.
Proof.
  intros Hd. apply eq_true_iff_eq.
  rewrite (divides_evenly_value d u Hd), (divides_evenly_spec_value d u).
  reflexivity.
Qed.

Lemma round_agree (d : Duration) (u : time_unit) :
  reachable d -> divides_evenly d u = true ->
  Duration.round (magnitude u d) = round_spec (magnitude u d).
Proof.
  intros Hd Hu. destruct (whole_magnitude d u Hd Hu) as (k & _ & _ & _ & I).
  unfold Duration.round, round_spec. rewrite I. reflexivity.
Qed.

Lemma append_inj_l (p a b : string) : (p ++ a = p ++ b)%string -> a = b.
Proof.
  induction p as [ | c p IH]; cbn [append]; intros H; [exact H | ].
  apply IH. inversion H. reflexivity.
Qed.

(** C8.  On every Duration built through the interface, the remainder
    test of [toString] is the exact divisibility test, and the rounding of
    the magnitude is the one the specification words (the magnitude of a
    dividing unit is an integer, which both leave alone).  So [toString]
    is the string of the specification whenever the unit it selects is the
    hour, the minute, the second or the millisecond, and when no unit
    divides evenly.  When it selects the microsecond it differs: the
    suffix it prints is the three characters U+00C2 U+00B5 [s] of the
    source literal, not the microsecond symbol; [fromMicros(1)] prints
    ["1"] followed by those three characters. *)
Theorem C8_toString :
  (forall (d : Duration) (u : time_unit),
     reachable d ->
     divides_evenly d u = divides_evenly_spec d u /\
     (divides_evenly_spec d u = true ->
      Duration.round (magnitude u d) = round_spec (magnitude u d))) /\
  (forall d : Duration,
     reachable d ->
     match find (divides_evenly_spec d) scan_order with
     | Some Micro =>
         Duration.toString d
         = (Str.Number_toString (round_spec (magnitude Micro d))
            ++ Duration.micro_suffix)%string /\
         Duration.toString d <> toString_spec d
     | _ => Duration.toString d = toString_spec d
     end) /\
  (exists d : Duration,
     Duration.fromMicros (of_Z 1) = Return d /\
     Duration.toString d = ("1" ++ Duration.micro_suffix)%string /\
     toString_spec d = ("1" ++ micro_symbol)%string).
Proof.
  split; [ | split].
  - intros d u Hd. split; [apply divides_agree; exact Hd | ].
    intros Hu. apply round_agree; [exact Hd | ].
    rewrite (divides_agree d u Hd). exact Hu.
  - intros d Hd. pose proof (toString_scan d) as T.
    assert (Hfind : find (divides_evenly d) scan_order
                    = find (divides_evenly_spec d) scan_order).
    { unfold scan_order. cbn [find]. rewrite !(divides_agree d _ Hd). reflexivity. }
    rewrite Hfind in T. unfold toString_spec.
    destruct (find (divides_evenly_spec d) scan_order) as [u | ] eqn:Hf;
      [ | exact T].
    apply find_some in Hf as [_ Hu]. rewrite <- (divides_agree d u Hd) in Hu.
    rewrite (round_agree d u Hd Hu) in T.
    destruct u; try exact T.
    split; [exact T | ]. rewrite T. intros C.
    apply append_inj_l in C. discriminate.
  - exists (new_Duration (of_Z 1000)).
    split; [vm_compute; reflexivity | ].
    split; vm_compute; reflexivity.
Qed.

Lemma C8_witness :
  let d := new_Duration (of_Z 1500000000) in
  reachable d /\
  divides_evenly d Milli = divides_evenly_spec d Milli /\
  Duration.toString d = toString_spec d.
Proof.
  intros d.
  assert (R : reachable d)
    by (apply (reach_fromMillis (of_Z 1500)); vm_compute; reflexivity).
  split; [exact R | split].
  - exact (proj1 (proj1 C8_toString d Milli R)).
  - exact (proj1 (proj2 C8_toString) d R).
Defined.
